(** * colundi_generator: period-aligned waveform synthesis

    A shallow embedding of [colundi_generator.py].  The program computes, for
    every frequency of a list, a sample buffer that spans a whole number of
    periods and writes it to a wav file.

    The arithmetic of the program is Python/numpy [float] arithmetic.  The
    algorithm is written once over an interface [PyFloat] of the operations
    the source uses, and read at two number systems:
    - [Binary64]: IEEE-754 binary64 as specified by the Standard Library's
      [SpecFloat], executable and bit-exact;
    - [Exact]: the real numbers, i.e. the same program without rounding,
      which is what statements "up to floating-point tolerance" are about. *)

From Stdlib Require Import ZArith Bool List String Ascii Lia DecimalString.
From Stdlib Require Import Floats.SpecFloat.
From Stdlib Require Import Reals Lra.
Import ListNotations.

Set Implicit Arguments.
Open Scope Z_scope.

(** ** Python exceptions and the error monad *)

Inductive exn : Set :=
| ZeroDivisionError
| OverflowError
| ValueError
| FileExistsError
| FileNotFoundError.

Inductive result (A : Type) : Type :=
| Ok (a : A)
| Raise (e : exn).

Arguments Ok {A} a.
Arguments Raise {A} e.

Definition bind {A B : Type} (r : result A) (k : A -> result B) : result B :=
  match r with
  | Ok a => k a
  | Raise e => Raise e
  end.

Notation "x <- c ;; k" := (bind c (fun x => k))
  (at level 61, c at next level, right associativity).

Definition is_ok {A : Type} (r : result A) : bool :=
  match r with Ok _ => true | Raise _ => false end.

(** [mapM f l] evaluates [f] on the elements of [l] from left to right and
    stops at the first exception, as a list comprehension does. *)
Fixpoint mapM {A B : Type} (f : A -> result B) (l : list A) : result (list B) :=
  match l with
  | [] => Ok []
  | a :: l' => b <- f a ;; bs <- mapM f l' ;; Ok (b :: bs)
  end.

(** ** The float operations the program uses *)

Class PyFloat (F : Type) : Type := {
  (** the float nearest to an integer ([float(i)] before its range check) *)
  of_Z : Z -> F;
  is_finite : F -> bool;
  is_zero : F -> bool;
  fadd : F -> F -> F;
  fsub : F -> F -> F;
  fmul : F -> F -> F;
  fdiv : F -> F -> F;
  (** [np.floor] and [np.abs] on a scalar *)
  ffloor : F -> F;
  fabs : F -> F;
  (** [x % y] of Python floats for a divisor that is not zero *)
  frem : F -> F -> F;
  (** [x < y] *)
  fltb : F -> F -> bool;
  (** [math.ceil(x)] and [int(x)] *)
  fceil : F -> result Z;
  ftrunc : F -> result Z;
  (** the constants [np.pi] and [0.5] *)
  np_pi : F;
  half : F
}.

Inductive WaveFormType : Set := SINE | TRIANGLE | SQUARE | SAWTOOTH.

(** numpy arrays of the two element types that occur: [float64], and the
    [int64] array that [np.vectorize] builds from [_square_func]. *)
Inductive ndarray (F : Type) : Type :=
| Float64Array (l : list F)
| Int64Array (l : list Z).

Arguments Float64Array {F} l.
Arguments Int64Array {F} l.

Section Generator.
Context {F : Type} `{PyFloat F}.

(** *** Python scalar operations *)

(** Conversion of an [int] operand of a float operation. *)
Definition int_to_float (i : Z) : result F :=
  let x := of_Z i in
  if is_finite x then Ok x else Raise OverflowError.

Definition float_truediv (x y : F) : result F :=
  if is_zero y then Raise ZeroDivisionError else Ok (fdiv x y).

Definition float_mod (x y : F) : result F :=
  if is_zero y then Raise ZeroDivisionError else Ok (frem x y).

Definition int_mul_float (i : Z) (x : F) : result F :=
  a <- int_to_float i ;; Ok (fmul a x).

Definition int_div_float (i : Z) (x : F) : result F :=
  a <- int_to_float i ;; float_truediv a x.

(** [2 * np.pi]: the literal [2] converts exactly. *)
Definition two_pi : F := fmul (of_Z 2) np_pi.

(** *** The wave-shaping functions *)

Definition _triangle_func (x : F) : result F :=
  u <- float_truediv x two_pi ;;
  Ok (fsub
        (fmul (of_Z 2)
              (fabs (fmul (of_Z 2) (fsub u (ffloor (fadd u half))))))
        (of_Z 1)).

Definition _square_func (x : F) : result Z :=
  r <- float_mod x two_pi ;;
  Ok (if fltb r np_pi then 1 else -1).

Definition _sawtooth_func (x : F) : result F :=
  u <- float_truediv x two_pi ;;
  Ok (fmul (of_Z 2) (fsub u (ffloor (fadd half u)))).

(** *** numpy *)

(** [np.vectorize(f)] without [otypes]: refuses an input of size 0, and
    otherwise applies [f] to every element; the element type of the output
    is the type of what [f] returns. *)
Definition np_vectorize_float (f : F -> result F) (a : list F)
  : result (ndarray F) :=
  match a with
  | [] => Raise ValueError
  | _ => l <- mapM f a ;; Ok (Float64Array l)
  end.

Definition np_vectorize_int (f : F -> result Z) (a : list F)
  : result (ndarray F) :=
  match a with
  | [] => Raise ValueError
  | _ => l <- mapM f a ;; Ok (Int64Array l)
  end.

(** [np.arange(0, num)] as floats. *)
Definition arange (num : Z) : list F :=
  map (fun i => of_Z (Z.of_nat i)) (seq 0 (Z.to_nat num)).

(** [np.linspace(start, stop, num, endpoint=False)]. *)
Definition np_linspace (start stop : F) (num : Z) : result (list F) :=
  if num <? 0 then Raise ValueError
  else
    let delta := fsub stop start in
    let y := arange num in
    let y :=
      if 0 <? num then
        let step := fdiv delta (of_Z num) in
        if is_zero step
        then map (fun yi => fmul (fdiv yi (of_Z num)) delta) y
        else map (fun yi => fmul yi step) y
      else map (fun yi => fmul yi delta) y in
    Ok (map (fun yi => fadd yi start) y).

(** [a * arr] for a Python float [a]: an integer array is converted to
    float64 first. *)
Definition scalar_mul (a : F) (arr : ndarray F) : list F :=
  match arr with
  | Float64Array l => map (fmul a) l
  | Int64Array l => map (fun i => fmul a (of_Z i)) l
  end.

Definition array_size (arr : ndarray F) : nat :=
  match arr with
  | Float64Array l => List.length l
  | Int64Array l => List.length l
  end.

(** *** The generator *)

Record WaveformGenerator : Type := {
  sample_rate : Z;
  duration : Z;
  amplitude : F
}.

Definition wave_func_t : Type := list F -> result (ndarray F).

Definition _generate_wave (self : WaveformGenerator) (wave_func : wave_func_t)
           (frequency : F) : result (list F) :=
  num_periods <- int_mul_float (duration self) frequency ;;
  num_periods <- fceil num_periods ;;
  adjusted_duration <- int_div_float num_periods frequency ;;
  x <- int_mul_float (sample_rate self) adjusted_duration ;;
  num_samples <- ftrunc x ;;
  t <- np_linspace (of_Z 0) adjusted_duration num_samples ;;
  y <- wave_func (map (fmul (fmul two_pi frequency)) t) ;;
  Ok (scalar_mul (amplitude self) y).

(** The first five statements of [_generate_wave]: the adjusted duration
    and the number of samples. *)
Definition sample_grid (self : WaveformGenerator) (frequency : F)
  : result (F * Z) :=
  num_periods <- int_mul_float (duration self) frequency ;;
  num_periods <- fceil num_periods ;;
  adjusted_duration <- int_div_float num_periods frequency ;;
  x <- int_mul_float (sample_rate self) adjusted_duration ;;
  num_samples <- ftrunc x ;;
  Ok (adjusted_duration, num_samples).

(** The scalar sine of the platform's numpy is not part of the program. *)
Variable sin1 : F -> F.

Definition np_sin (a : list F) : result (ndarray F) :=
  Ok (Float64Array (map sin1 a)).

(** [self.wave_functions] *)
Definition wave_functions (k : WaveFormType) : wave_func_t :=
  match k with
  | SINE => np_sin
  | TRIANGLE => np_vectorize_float _triangle_func
  | SQUARE => np_vectorize_int _square_func
  | SAWTOOTH => np_vectorize_float _sawtooth_func
  end.

End Generator.

Arguments WaveformGenerator F : clear implicits.
Arguments wave_func_t F : clear implicits.

(** ** IEEE-754 binary64 *)

Module Binary64.

Definition prec : Z := 53.
Definition emax : Z := 1024.

Definition float : Type := spec_float.

Definition b64_of_Z (z : Z) : float := binary_normalize prec emax z 0 false.

Definition b64_is_finite (x : float) : bool :=
  match x with
  | S754_zero _ | S754_finite _ _ _ => true
  | _ => false
  end.

Definition b64_is_zero (x : float) : bool :=
  match x with
  | S754_zero _ => true
  | _ => false
  end.

(** The mantissa with its sign. *)
Definition signed (s : bool) (m : positive) : Z :=
  if s then Zneg m else Zpos m.

(** [np.floor]: an integer-valued float; a zero result keeps the sign. *)
Definition b64_floor (x : float) : float :=
  match x with
  | S754_finite s m e =>
      if 0 <=? e then x
      else
        let q := signed s m / 2 ^ (- e) in
        if q =? 0 then S754_zero s else b64_of_Z q
  | _ => x
  end.

(** C's [fmod]: the exact remainder, with the sign of the dividend. *)
Definition c_fmod (x y : float) : float :=
  match x, y with
  | S754_nan, _ | _, S754_nan => S754_nan
  | S754_infinity _, _ => S754_nan
  | _, S754_zero _ => S754_nan
  | S754_zero _, _ => x
  | S754_finite _ _ _, S754_infinity _ => x
  | S754_finite sx mx ex, S754_finite _ my ey =>
      let e := Z.min ex ey in
      let r := Z.rem (Zpos mx * 2 ^ (ex - e)) (Zpos my * 2 ^ (ey - e)) in
      if r =? 0 then S754_zero sx
      else binary_normalize prec emax (if sx then - r else r) e sx
  end.

Definition is_negative (x : float) : bool :=
  SFltb x (S754_zero false).

(** [float_rem] of CPython: the remainder takes the sign of the divisor. *)
Definition b64_rem (x y : float) : float :=
  let m := c_fmod x y in
  if b64_is_zero m then S754_zero (is_negative y)
  else if xorb (is_negative y) (is_negative m)
       then SFadd prec emax m y
       else m.

(** [math.ceil]: exact, an exception on an infinity or a NaN. *)
Definition b64_ceil (x : float) : result Z :=
  match x with
  | S754_nan => Raise ValueError
  | S754_infinity _ => Raise OverflowError
  | S754_zero _ => Ok 0
  | S754_finite s m e =>
      if 0 <=? e then Ok (signed s m * 2 ^ e)
      else Ok (- ((- signed s m) / 2 ^ (- e)))
  end.

(** [int(x)]: truncation towards zero. *)
Definition b64_trunc (x : float) : result Z :=
  match x with
  | S754_nan => Raise ValueError
  | S754_infinity _ => Raise OverflowError
  | S754_zero _ => Ok 0
  | S754_finite s m e =>
      if 0 <=? e then Ok (signed s m * 2 ^ e)
      else Ok (Z.quot (signed s m) (2 ^ (- e)))
  end.

(** [np.pi = 0x1.921fb54442d18p+1] and [0.5]. *)
Definition b64_pi : float := S754_finite false 7074237752028440 (-51).
Definition b64_half : float := S754_finite false 4503599627370496 (-53).

#[export] Instance b64 : PyFloat float := {|
  of_Z := b64_of_Z;
  is_finite := b64_is_finite;
  is_zero := b64_is_zero;
  fadd := SFadd prec emax;
  fsub := SFsub prec emax;
  fmul := SFmul prec emax;
  fdiv := SFdiv prec emax;
  ffloor := b64_floor;
  fabs := SFabs;
  frem := b64_rem;
  fltb := SFltb;
  fceil := b64_ceil;
  ftrunc := b64_trunc;
  np_pi := b64_pi;
  half := b64_half
|}.

(** [0 < x] on floats. *)
Definition positive_float (x : float) : bool := SFltb (S754_zero false) x.

(** The floor of a float as an integer. *)
Definition b64_floor_Z (x : float) : result Z :=
  match x with
  | S754_nan => Raise ValueError
  | S754_infinity _ => Raise OverflowError
  | S754_zero _ => Ok 0
  | S754_finite s m e =>
      if 0 <=? e then Ok (signed s m * 2 ^ e)
      else Ok (signed s m / 2 ^ (- e))
  end.

(** The sample count in the words of the specification:
    [p = ceil(D * f)], [D' = p / f], [N = floor(R * D')], each operation
    being the binary64 one. *)
Definition spec_sample_count (R D : Z) (f : float) : result Z :=
  p <- b64_ceil (SFmul prec emax (b64_of_Z D) f) ;;
  let D' := SFdiv prec emax (b64_of_Z p) f in
  b64_floor_Z (SFmul prec emax (b64_of_Z R) D').

(** A float that is not negative: a zero, a finite number or an infinity
    with the sign bit clear, or a NaN. *)
Definition sign_clear (x : float) : Prop :=
  match x with
  | S754_zero s | S754_infinity s | S754_finite s _ _ => s = false
  | S754_nan => True
  end.

(** The sample times of [np.linspace(0, d, N, endpoint=False)]:
    [i * (d / N)], or [(i / N) * d] when the step [d / N] is zero. *)
Definition b64_time (d : float) (N : Z) (i : nat) : float :=
  let step := SFdiv prec emax d (b64_of_Z N) in
  if b64_is_zero step
  then SFmul prec emax (SFdiv prec emax (b64_of_Z (Z.of_nat i)) (b64_of_Z N)) d
  else SFmul prec emax (b64_of_Z (Z.of_nat i)) step.

End Binary64.

(** ** Exact arithmetic

    The same operations on the real numbers: no rounding, no overflow, and
    [np.pi] is the number pi.  This instance is not the program, which
    runs on [Binary64]: it only says what the formulas of the source mean
    without rounding, and the two can differ (the sample counts by one,
    see [rounding_moves_the_count]). *)

Module Exact.

Open Scope R_scope.

Definition Rltb (x y : R) : bool := if Rlt_dec x y then true else false.

Definition R_is_zero (x : R) : bool := if Req_dec_T x 0 then true else false.

Definition Rfloor (x : R) : Z := Int_part x.

Definition Rceil (x : R) : Z := (- Int_part (- x))%Z.

Definition Rtrunc (x : R) : Z := if Rle_dec 0 x then Rfloor x else Rceil x.

(** [x % y]: the remainder of the floored division. *)
Definition Rrem (x y : R) : R := x - y * IZR (Rfloor (x / y)).

#[export] Instance exact : PyFloat R := {|
  of_Z := IZR;
  is_finite := fun _ => true;
  is_zero := R_is_zero;
  fadd := Rplus;
  fsub := Rminus;
  fmul := Rmult;
  fdiv := Rdiv;
  ffloor := fun x => IZR (Rfloor x);
  fabs := Rabs;
  frem := Rrem;
  fltb := Rltb;
  fceil := fun x => Ok (Rceil x);
  ftrunc := fun x => Ok (Rtrunc x);
  np_pi := PI;
  half := / 2
|}.

(** The values of the shaping functions in closed form. *)
Definition triangle_value (x : R) : R :=
  2 * Rabs (2 * (x / (2 * PI) - IZR (Rfloor (x / (2 * PI) + / 2)))) - 1.

Definition sawtooth_value (x : R) : R :=
  2 * (x / (2 * PI) - IZR (Rfloor (/ 2 + x / (2 * PI)))).

Definition square_value (x : R) : Z :=
  if Rltb (Rrem x (2 * PI)) PI then 1%Z else (-1)%Z.

Definition shaped (k : WaveFormType) (a : list R) : ndarray R :=
  match k with
  | SINE => Float64Array (map sin a)
  | TRIANGLE => Float64Array (map triangle_value a)
  | SQUARE => Int64Array (map square_value a)
  | SAWTOOTH => Float64Array (map sawtooth_value a)
  end.

(** The intermediate values of [_generate_wave]: the number of periods
    [p = ceil(D * f)], the adjusted duration [D' = p / f], the number of
    samples [N = floor(R * D')] and the sample times [i * (D' / N)]. *)
Definition periods (self : WaveformGenerator R) (f : R) : Z :=
  Rceil (IZR (duration self) * f).

Definition adjusted (self : WaveformGenerator R) (f : R) : R :=
  IZR (periods self f) / f.

Definition count (self : WaveformGenerator R) (f : R) : Z :=
  Rfloor (IZR (sample_rate self) * adjusted self f).

Definition times (self : WaveformGenerator R) (f : R) : list R :=
  map (fun i => INR i * (adjusted self f / IZR (count self f)))
      (seq 0 (Z.to_nat (count self f))).

End Exact.

(** ** Text: [str.split], [str.strip], [float(str)] and [repr(float)]

    A text is a sequence of characters with code points below 256; it is the
    value [Path.read_text()] returns. *)

Module Text.

Import Binary64.

Definition code (c : ascii) : Z := Z.of_N (N_of_ascii c).

(** [str.isspace] on one character. *)
Definition is_space (c : ascii) : bool :=
  let n := code c in
  ((9 <=? n) && (n <=? 13)) || ((28 <=? n) && (n <=? 32))
  || (n =? 133) || (n =? 160).

Definition newline : ascii := ascii_of_nat 10.

Fixpoint lstrip (s : string) : string :=
  match s with
  | String c s' => if is_space c then lstrip s' else s
  | EmptyString => EmptyString
  end.

Fixpoint rstrip (s : string) : string :=
  match s with
  | String c s' =>
      match rstrip s' with
      | EmptyString => if is_space c then EmptyString else String c EmptyString
      | r => String c r
      end
  | EmptyString => EmptyString
  end.

(** [s.strip()] *)
Definition strip (s : string) : string := rstrip (lstrip s).

(** [s.split("\n")]: never empty; [n] separators give [n + 1] pieces. *)
Fixpoint split_newline (s : string) : list string :=
  match s with
  | EmptyString => [EmptyString]
  | String c s' =>
      if Ascii.eqb c newline then EmptyString :: split_newline s'
      else
        match split_newline s' with
        | piece :: rest => String c piece :: rest
        | [] => [String c EmptyString]
        end
  end.

(** The number of newline characters of a text. *)
Fixpoint newline_count (s : string) : nat :=
  match s with
  | String c s' =>
      if Ascii.eqb c newline then S (newline_count s') else newline_count s'
  | EmptyString => O
  end.

(** A line of white space only, the empty line included. *)
Fixpoint is_blank (s : string) : bool :=
  match s with
  | String c s' => is_space c && is_blank s'
  | EmptyString => true
  end.

(** *** Reading a float *)

Definition digit_of (c : ascii) : option Z :=
  let n := code c in
  if (48 <=? n) && (n <=? 57) then Some (n - 48) else None.

(** [(["_"] digit)*]: the digits read and the rest of the text. *)
Fixpoint digits_tail (s : string) : list Z * string :=
  match s with
  | String c s' =>
      match digit_of c with
      | Some d => let '(ds, r) := digits_tail s' in (d :: ds, r)
      | None =>
          if Ascii.eqb c "_"%char then
            match s' with
            | String c2 s'' =>
                match digit_of c2 with
                | Some d => let '(ds, r) := digits_tail s'' in (d :: ds, r)
                | None => ([], s)
                end
            | EmptyString => ([], s)
            end
          else ([], s)
      end
  | EmptyString => ([], s)
  end.

(** [digit (["_"] digit)*], or no digit at all. *)
Definition digitpart (s : string) : list Z * string :=
  match s with
  | String c s' =>
      match digit_of c with
      | Some d => let '(ds, r) := digits_tail s' in (d :: ds, r)
      | None => ([], s)
      end
  | EmptyString => ([], s)
  end.

Definition Z_of_digits (ds : list Z) : Z :=
  fold_left (fun acc d => 10 * acc + d) ds 0.

Definition read_sign (s : string) : bool * string :=
  match s with
  | String "-"%char s' => (true, s')
  | String "+"%char s' => (false, s')
  | _ => (false, s)
  end.

Definition lower (c : ascii) : ascii :=
  let n := code c in
  if (65 <=? n) && (n <=? 90) then ascii_of_N (Z.to_N (n + 32)) else c.

Fixpoint lowercase (s : string) : string :=
  match s with
  | String c s' => String (lower c) (lowercase s')
  | EmptyString => EmptyString
  end.

(** The binary64 nearest to [(-1)^s * m * 10^e10], ties to even. *)
Definition decimal_to_float (s : bool) (m : Z) (e10 : Z) : float :=
  match m with
  | Zpos p =>
      if 0 <=? e10
      then binary_normalize prec emax (signed s (p * Z.to_pos (10 ^ e10))) 0 s
      else SFdiv prec emax (S754_finite s p 0)
                 (S754_finite false (Z.to_pos (10 ^ (- e10))) 0)
  | _ => S754_zero s
  end.

(** [("e" | "E") [sign] digitpart] when it is there: its value and the rest. *)
Definition read_exponent (s : string) : Z * string :=
  match s with
  | String c s' =>
      if Ascii.eqb (lower c) "e"%char then
        let '(neg, s1) := read_sign s' in
        match digitpart s1 with
        | ([], _) => (0, s)
        | (ds, r) => (if neg then - Z_of_digits ds else Z_of_digits ds, r)
        end
      else (0, s)
  | EmptyString => (0, s)
  end.

(** The white space [float] itself skips at both ends of its argument: the
    ASCII set of [Py_ISSPACE] (tab to carriage return, and the blank) and the
    two Latin-1 spaces, which it first turns into blanks.  The separators
    U+001C to U+001F are white space for [str.strip] but not for [float]. *)
Definition is_float_space (c : ascii) : bool :=
  let n := code c in
  ((9 <=? n) && (n <=? 13)) || (n =? 32) || (n =? 133) || (n =? 160).

Fixpoint float_lstrip (s : string) : string :=
  match s with
  | String c s' => if is_float_space c then float_lstrip s' else s
  | EmptyString => EmptyString
  end.

Fixpoint float_rstrip (s : string) : string :=
  match s with
  | String c s' =>
      match float_rstrip s' with
      | EmptyString =>
          if is_float_space c then EmptyString else String c EmptyString
      | r => String c r
      end
  | EmptyString => EmptyString
  end.

(** [float(text)]: the white space of [is_float_space] around the number is
    ignored, and the whole rest has to be a number, an infinity or a NaN. *)
Definition py_float (text : string) : result float :=
  let '(neg, s) := read_sign (float_rstrip (float_lstrip text)) in
  let l := lowercase s in
  if String.eqb l "inf"%string || String.eqb l "infinity"%string then Ok (S754_infinity neg)
  else if String.eqb l "nan"%string then Ok S754_nan
  else
    let '(ip, s1) := digitpart s in
    let '(fp, s2) :=
      match s1 with
      | String "."%char s1' => digitpart s1'
      | _ => ([], s1)
      end in
    match ip, fp with
    | [], [] => Raise ValueError
    | _, _ =>
        let '(ex, s3) := read_exponent s2 in
        match s3 with
        | EmptyString =>
            Ok (decimal_to_float neg (Z_of_digits (ip ++ fp))
                                 (ex - Z.of_nat (List.length fp)))
        | _ => Raise ValueError
        end
    end.

(** *** Writing a float

    [repr(x)]: the shortest decimal numeral that reads back as [x], the
    nearest to [x] when there are several, laid out by [float_repr_style]
    "short": an exponent for a decimal point position outside [(-4, 16]]. *)

Definition sf_eqb (x y : float) : bool :=
  match x, y with
  | S754_zero a, S754_zero b => Bool.eqb a b
  | S754_infinity a, S754_infinity b => Bool.eqb a b
  | S754_nan, S754_nan => true
  | S754_finite a m e, S754_finite b m' e' =>
      Bool.eqb a b && Pos.eqb m m' && Z.eqb e e'
  | _, _ => false
  end.

(** [num / den] compared with [10 ^ k]. *)
Definition pow10_le (k num den : Z) : bool :=
  if 0 <=? k then 10 ^ k * den <=? num else den <=? num * 10 ^ (- k).

Fixpoint log10_up (fuel : nat) (k num den : Z) : Z :=
  match fuel with
  | O => k
  | S fuel' =>
      if pow10_le (k + 1) num den then log10_up fuel' (k + 1) num den else k
  end.

(** The [k] with [10 ^ k <= num / den < 10 ^ (k + 1)]. *)
Definition log10_floor (num den : Z) : Z :=
  let bits := Z.log2 num - Z.log2 den in
  log10_up 8 ((bits * 30103) / 100000 - 2) num den.

(** The candidates with [k] digits next to [num / den]: the multiples of
    [10 ^ scale] below and above, and which of them is nearer. *)
Definition candidates (num den scale : Z) : Z * Z * comparison :=
  let n := if 0 <=? scale then num else num * 10 ^ (- scale) in
  let d := if 0 <=? scale then den * 10 ^ scale else den in
  let lo := n / d in
  (lo, lo + 1, (2 * (n mod d)) ?= d).

Fixpoint shortest (fuel : nat) (k : Z) (x : float) (s : bool)
         (num den e10 : Z) : Z * Z :=
  let scale := e10 - k + 1 in
  let '(lo, hi, c) := candidates num den scale in
  let ok_lo := sf_eqb (decimal_to_float s lo scale) x in
  let ok_hi := sf_eqb (decimal_to_float s hi scale) x in
  let pick :=
    match c with
    | Lt => lo
    | Gt => hi
    | Eq => if Z.even lo then lo else hi
    end in
  match fuel with
  | O => (pick, scale)
  | S fuel' =>
      if ok_lo && ok_hi then (pick, scale)
      else if ok_lo then (lo, scale)
      else if ok_hi then (hi, scale)
      else shortest fuel' (k + 1) x s num den e10
  end.

Fixpoint strip_zeros (fuel : nat) (c scale : Z) : Z * Z :=
  match fuel with
  | O => (c, scale)
  | S fuel' =>
      if (c mod 10 =? 0) && negb (c =? 0)
      then strip_zeros fuel' (c / 10) (scale + 1)
      else (c, scale)
  end.

Definition decimal (z : Z) : string :=
  NilZero.string_of_uint (N.to_uint (Z.to_N z)).

Fixpoint zeros (n : nat) : string :=
  match n with
  | O => EmptyString
  | S n' => String "0"%char (zeros n')
  end.

Definition layout (digits : string) (decpt : Z) : string :=
  let n := Z.of_nat (String.length digits) in
  if (decpt <=? -4) || (16 <? decpt) then
    let ex := decpt - 1 in
    let mant :=
      match digits with
      | String d EmptyString => digits
      | String d rest => String d (String "."%char rest)
      | EmptyString => digits
      end in
    let exs := decimal (Z.abs ex) in
    let sgn := if ex <? 0 then "-"%string else "+"%string in
    let pad := if Z.abs ex <? 10 then "0"%string else EmptyString in
    (mant ++ "e" ++ sgn ++ pad ++ exs)%string
  else if decpt <=? 0 then
    ("0." ++ zeros (Z.to_nat (- decpt)) ++ digits)%string
  else if n <=? decpt then
    (digits ++ zeros (Z.to_nat (decpt - n)) ++ ".0")%string
  else
    (substring 0 (Z.to_nat decpt) digits ++ "."
       ++ substring (Z.to_nat decpt) (Z.to_nat (n - decpt)) digits)%string.

Definition py_repr (x : float) : string :=
  match x with
  | S754_nan => "nan"%string
  | S754_infinity s => if s then "-inf"%string else "inf"%string
  | S754_zero s => if s then "-0.0"%string else "0.0"%string
  | S754_finite s m e =>
      let num := if 0 <=? e then Zpos m * 2 ^ e else Zpos m in
      let den := if 0 <=? e then 1 else 2 ^ (- e) in
      let '(c, scale) := shortest 17 1 x s num den (log10_floor num den) in
      let '(c, scale) := strip_zeros 400 c scale in
      let digits := decimal c in
      let body := layout digits (Z.of_nat (String.length digits) + scale) in
      if s then String "-"%char body else body
  end.

(** [repr] of a float that was read, the empty text for an exception. *)
Definition fmap_repr (r : result float) : string :=
  match r with
  | Ok x => py_repr x
  | Raise _ => EmptyString
  end.

(** *** The frequency list *)

(** [load_frequencies], applied to the text of the file. *)
Definition load_frequencies (text : string) : result (list float) :=
  mapM (fun line => py_float (strip line)) (split_newline text).

End Text.

(** ** The driver: files and the console

    The program reads [colundi_hertz.txt], creates the output folder, and
    writes one wav file per frequency.  The world is the file system, an
    association list with the latest write first, and the lines printed.
    Failures of the encoder itself are not modelled: [sf.write] succeeds. *)

Module Driver.

Import Binary64 Text.

Inductive entry : Type :=
| Directory
| TextFile (text : string)
| WavFile (samples : list float) (samplerate : Z).

Record World : Type := {
  files : list (string * entry);
  console : list string
}.

(** State and exceptions. *)
Definition M (A : Type) : Type := World -> result A * World.

Definition ret {A : Type} (a : A) : M A := fun w => (Ok a, w).

Definition lift {A : Type} (r : result A) : M A := fun w => (r, w).

Definition bindM {A B : Type} (m : M A) (k : A -> M B) : M B :=
  fun w =>
    match m w with
    | (Ok a, w') => k a w'
    | (Raise e, w') => (Raise e, w')
    end.

Notation "x <~ c ;; k" := (bindM c (fun x => k))
  (at level 61, c at next level, right associativity).

Fixpoint lookup (path : string) (fs : list (string * entry)) : option entry :=
  match fs with
  | [] => None
  | (p, e) :: fs' => if String.eqb p path then Some e else lookup path fs'
  end.

(** [Path(path).read_text()] *)
Definition read_text (path : string) : M string :=
  fun w =>
    match lookup path (files w) with
    | Some (TextFile text) => (Ok text, w)
    | _ => (Raise FileNotFoundError, w)
    end.

(** [Path(path).mkdir(exist_ok=True)] *)
Definition mkdir (path : string) : M unit :=
  fun w =>
    match lookup path (files w) with
    | Some Directory => (Ok tt, w)
    | Some _ => (Raise FileExistsError, w)
    | None =>
        (Ok tt, {| files := (path, Directory) :: files w;
                   console := console w |})
    end.

(** [sf.write(path, data, samplerate)] *)
Definition sf_write (path : string) (data : list float) (samplerate : Z)
  : M unit :=
  fun w =>
    (Ok tt, {| files := (path, WavFile data samplerate) :: files w;
               console := console w |}).

Definition print (line : string) : M unit :=
  fun w => (Ok tt, {| files := files w; console := console w ++ [line] |}).

(** [str(output_folder / f"colundi_{frequency}.wav")] for a folder name of
    one component. *)
Definition wav_path (output_folder : string) (frequency : float) : string :=
  (output_folder ++ "/" ++ "colundi_" ++ py_repr frequency ++ ".wav")%string.

Record Args : Type := {
  arg_sample_rate : Z;
  arg_duration : Z;
  arg_amplitude : float;
  arg_waveform : WaveFormType
}.

(** [waveform.name.lower()] and [str(waveform)] *)
Definition name_lower (k : WaveFormType) : string :=
  match k with
  | SINE => "sine"
  | TRIANGLE => "triangle"
  | SQUARE => "square"
  | SAWTOOTH => "sawtooth"
  end.

Definition enum_str (k : WaveFormType) : string :=
  match k with
  | SINE => "WaveFormType.SINE"
  | TRIANGLE => "WaveFormType.TRIANGLE"
  | SQUARE => "WaveFormType.SQUARE"
  | SAWTOOTH => "WaveFormType.SAWTOOTH"
  end.

(** The files a successful run of the loop adds, the latest first. *)
Definition written (self : WaveformGenerator float) (output_folder : string)
           (frequencies : list float) (buffers : list (list float))
  : list (string * entry) :=
  rev (map (fun fb => (wav_path output_folder (fst fb),
                       WavFile (snd fb) (sample_rate self)))
           (combine frequencies buffers)).

Section WithSine.

Variable sin1 : float -> float.

(** The loop of [generate_files]. *)
Fixpoint write_waves (self : WaveformGenerator float)
         (wave_function : wave_func_t float) (output_folder : string)
         (frequencies : list float) : M unit :=
  match frequencies with
  | [] => ret tt
  | frequency :: rest =>
      generated_waveform <~
        lift (_generate_wave self wave_function frequency) ;;
      _ <~ sf_write (wav_path output_folder frequency)
                    generated_waveform (sample_rate self) ;;
      write_waves self wave_function output_folder rest
  end.

Definition generate_files (self : WaveformGenerator float)
           (frequencies : list float) (output_folder : string)
           (waveform_type : WaveFormType) : M unit :=
  _ <~ mkdir output_folder ;;
  write_waves self (wave_functions sin1 waveform_type) output_folder
              frequencies.

Definition main (args : Args) : M unit :=
  text <~ read_text "colundi_hertz.txt" ;;
  frequencies <~ lift (load_frequencies text) ;;
  let output_folder :=
    ("colundi_waveforms_" ++ name_lower (arg_waveform args))%string in
  _ <~ print ("Generating " ++ enum_str (arg_waveform args)
               ++ " waveforms for "
               ++ decimal (Z.of_nat (List.length frequencies))
               ++ " frequencies")%string ;;
  let generator :=
    {| sample_rate := arg_sample_rate args;
       duration := arg_duration args;
       amplitude := arg_amplitude args |} in
  _ <~ generate_files generator frequencies output_folder
                      (arg_waveform args) ;;
  print ("Waveforms generated, outputs are in " ++ output_folder)%string.

End WithSine.

End Driver.

(** ** The generator as an object

    A Python method receives [self] by reference: it can read and assign
    the attributes of the object, and it can reach the files and the
    console.  [Heap] holds what a call of [_generate_wave] could read or
    change; the method is written over it statement by statement, every
    [self.x] being a read of the heap. *)

Module Stateful.

Import Binary64.

Record Heap : Type := {
  self_sample_rate : Z;
  self_duration : Z;
  self_amplitude : float;
  world : Driver.World
}.

Definition ST (A : Type) : Type := Heap -> result A * Heap.

Definition st_ret {A : Type} (a : A) : ST A := fun h => (Ok a, h).

Definition st_lift {A : Type} (r : result A) : ST A := fun h => (r, h).

Definition st_bind {A B : Type} (m : ST A) (k : A -> ST B) : ST B :=
  fun h =>
    match m h with
    | (Ok a, h') => k a h'
    | (Raise e, h') => (Raise e, h')
    end.

Notation "x <~ c ;; k" := (st_bind c (fun x => k))
  (at level 61, c at next level, right associativity).

(** [self.sample_rate], [self.duration], [self.amplitude] *)
Definition get_sample_rate : ST Z := fun h => (Ok (self_sample_rate h), h).
Definition get_duration : ST Z := fun h => (Ok (self_duration h), h).
Definition get_amplitude : ST float := fun h => (Ok (self_amplitude h), h).

(** [_generate_wave] as a method: in [self.amplitude * wave_func(...)] the
    attribute is read before the call. *)
Definition _generate_wave_st (wave_func : wave_func_t float)
           (frequency : float) : ST (list float) :=
  d <~ get_duration ;;
  num_periods <~ st_lift (int_mul_float d frequency) ;;
  num_periods <~ st_lift (fceil num_periods) ;;
  adjusted_duration <~ st_lift (int_div_float num_periods frequency) ;;
  r <~ get_sample_rate ;;
  x <~ st_lift (int_mul_float r adjusted_duration) ;;
  num_samples <~ st_lift (ftrunc x) ;;
  t <~ st_lift (np_linspace (of_Z 0) adjusted_duration num_samples) ;;
  a <~ get_amplitude ;;
  y <~ st_lift (wave_func (map (fmul (fmul two_pi frequency)) t)) ;;
  st_ret (scalar_mul a y).

(** The attributes the constructor stored. *)
Definition generator_of (h : Heap) : WaveformGenerator float :=
  {| sample_rate := self_sample_rate h;
     duration := self_duration h;
     amplitude := self_amplitude h |}.

End Stateful.

(** ** The value of a float

    Bounds on what the binary64 run computes are stated on the real number
    a finite float stands for; the operations themselves stay those of
    [Binary64]. *)

Module Value.

Import Binary64.

(** [2^e] *)
Definition bpow (e : Z) : R := powerRZ 2 e.

(** The real number of a finite float; 0 for the others. *)
Definition B2R (x : float) : R :=
  match x with
  | S754_finite s m e => (IZR (signed s m) * bpow e)%R
  | _ => 0%R
  end.

(** A finite float in canonical form. *)
Definition fin (x : float) : Prop :=
  b64_is_finite x = true /\ valid_binary prec emax x = true.

(** What [binary_round_aux] returns for the rounded mantissa [m1] at the
    exponent [e']: a carry into the next binade, an overflow. *)
Definition finish (s : bool) (m1 e' : Z) : float :=
  if m1 =? 0 then S754_zero s
  else if m1 =? 2 ^ 53
       then (if e' + 1 <=? 971 then S754_finite s (Z.to_pos (2 ^ 52)) (e' + 1)
             else S754_infinity s)
       else (if e' <=? 971 then S754_finite s (Z.to_pos m1) e'
             else S754_infinity s).

(** [2^a <= v <= 2^b] *)
Definition rng (a b : Z) (v : R) : Prop := (bpow a <= v <= bpow b)%R.

(** The two factors of one rounding to 53 bits. *)
Definition e1 : R := (1 + bpow (-52))%R.
Definition e0 : R := (1 - bpow (-52))%R.

(** A frequency between 2^-200 and 2^200, in canonical form. *)
Definition moderate (f : float) : bool :=
  match f with
  | S754_finite false m e =>
      SpecFloat.bounded prec emax m e && (-252 <=? e) && (e <=? 147)
  | _ => false
  end.

(** The float just below one half. *)
Definition pred_half : float := S754_finite false 9007199254740991 (-54).

(** A phase that the triangle and the sawtooth keep within [-1, 1]: not
    negative, at most 2^53, and zero or not tiny. *)
Definition tame (x : float) : Prop :=
  fin x /\ (0 <= B2R x <= bpow 53)%R
  /\ (B2R x = 0 \/ bpow (-1018) <= B2R x)%R.

End Value.

(** * Properties *)

Unset Implicit Arguments.

(** ** The error monad and lists *)

Lemma bind_ok {A B : Type} (r : result A) (k : A -> result B) (b : B) :
  bind r k = Ok b -> exists a, r = Ok a /\ k a = Ok b.
Proof.
  destruct r as [a|e]; simpl; intros Hk; [eauto | discriminate].
Qed.

Lemma mapM_length {A B : Type} (f : A -> result B) (l : list A) (l' : list B) :
  mapM f l = Ok l' -> List.length l' = List.length l.
Proof.
  revert l'; induction l as [|a l IH]; simpl; intros l' Hl.
  - injection Hl as <-; reflexivity.
  - apply bind_ok in Hl as (b & _ & Hl).
    apply bind_ok in Hl as (bs & Hbs & Hl).
    injection Hl as <-; simpl; f_equal; auto.
Qed.

Lemma mapM_Forall2 {A B : Type} (f : A -> result B) (l : list A) (l' : list B) :
  mapM f l = Ok l' <-> Forall2 (fun a b => f a = Ok b) l l'.
Proof.
  split.
  - revert l'; induction l as [|a l IH]; simpl; intros l' Hl.
    + injection Hl as <-; constructor.
    + apply bind_ok in Hl as (b & Hb & Hl).
      apply bind_ok in Hl as (bs & Hbs & Hl).
      injection Hl as <-; constructor; auto.
  - induction 1 as [|a b l l' Hab _ IH]; simpl; [reflexivity|].
    rewrite Hab; simpl; rewrite IH; reflexivity.
Qed.

Lemma mapM_total {A B : Type} (f : A -> result B) (g : A -> B) (l : list A) :
  (forall a, In a l -> f a = Ok (g a)) -> mapM f l = Ok (map g l).
Proof.
  induction l as [|a l IH]; simpl; intros Hf; [reflexivity|].
  rewrite Hf by auto; simpl; rewrite IH by auto; reflexivity.
Qed.

Lemma mapM_raise {A B : Type} (f : A -> result B) (l : list A) (x : exn) :
  (forall a e, f a = Raise e -> e = x) ->
  Exists (fun a => is_ok (f a) = false) l ->
  mapM f l = Raise x.
Proof.
  intros Hx; induction 1 as [a l Ha | a l _ IH]; simpl.
  - destruct (f a) as [b|e] eqn:Hf; [discriminate|].
    simpl; f_equal; eauto.
  - destruct (f a) as [b|e] eqn:Hf; simpl; [rewrite IH; reflexivity|].
    f_equal; eauto.
Qed.

Lemma last_is_nth {A : Type} (l : list A) (d : A) :
  last l d = nth (List.length l - 1) l d.
Proof.
  induction l as [|a [|b l] IH]; try reflexivity.
  change (last (a :: b :: l) d) with (last (b :: l) d); rewrite IH.
  simpl; rewrite ?Nat.sub_0_r; reflexivity.
Qed.

(** ** The builder, over any arithmetic *)

Section GeneratorFacts.
Context {F : Type} `{PyFloat F}.

Lemma arange_length (num : Z) : List.length (arange num) = Z.to_nat num.
Proof. unfold arange; rewrite length_map, length_seq; reflexivity. Qed.

Lemma np_linspace_length (start stop : F) (num : Z) (t : list F) :
  np_linspace start stop num = Ok t ->
  0 <= num /\ List.length t = Z.to_nat num.
Proof.
  unfold np_linspace.
  destruct (num <? 0) eqn:Hneg; [discriminate|].
  apply Z.ltb_ge in Hneg; intros Ht; injection Ht as <-.
  split; [assumption|].
  rewrite length_map.
  destruct (0 <? num); [destruct (is_zero _)|];
    rewrite length_map; apply arange_length.
Qed.

Lemma np_linspace_negative (start stop : F) (num : Z) :
  num < 0 -> np_linspace start stop num = Raise ValueError.
Proof.
  intros Hneg; unfold np_linspace.
  apply Z.ltb_lt in Hneg; rewrite Hneg; reflexivity.
Qed.

Lemma scalar_mul_float_length (a : F) (l : list F) :
  List.length (scalar_mul a (Float64Array l)) = List.length l.
Proof. apply length_map. Qed.

Lemma scalar_mul_length (a : F) (arr : ndarray F) :
  List.length (scalar_mul a arr) = array_size arr.
Proof. destruct arr; apply length_map. Qed.

Lemma np_vectorize_float_size (f : F -> result F) (a : list F) arr :
  np_vectorize_float f a = Ok arr -> array_size arr = List.length a /\ a <> [].
Proof.
  destruct a as [|x a]; [discriminate|]; unfold np_vectorize_float.
  intros Hv; apply bind_ok in Hv as (l & Hl & Hv); injection Hv as <-.
  split; [apply (mapM_length _ _ _ Hl) | discriminate].
Qed.

Lemma np_vectorize_int_size (f : F -> result Z) (a : list F) arr :
  np_vectorize_int f a = Ok arr -> array_size arr = List.length a /\ a <> [].
Proof.
  destruct a as [|x a]; [discriminate|]; unfold np_vectorize_int.
  intros Hv; apply bind_ok in Hv as (l & Hl & Hv); injection Hv as <-.
  split; [apply (mapM_length _ _ _ Hl) | discriminate].
Qed.

Variable sin1 : F -> F.

Lemma wave_functions_size (k : WaveFormType) (a : list F) arr :
  wave_functions sin1 k a = Ok arr -> array_size arr = List.length a.
Proof.
  destruct k; simpl; intros Hw.
  - injection Hw as <-; apply length_map.
  - apply (np_vectorize_float_size _ _ _ Hw).
  - apply (np_vectorize_int_size _ _ _ Hw).
  - apply (np_vectorize_float_size _ _ _ Hw).
Qed.

(** [_generate_wave] is [sample_grid] followed by the sampling. *)
Lemma generate_wave_grid (self : WaveformGenerator F) (wf : wave_func_t F)
      (frequency : F) :
  _generate_wave self wf frequency =
  (g <- sample_grid self frequency ;;
   t <- np_linspace (of_Z 0) (fst g) (snd g) ;;
   y <- wf (map (fmul (fmul two_pi frequency)) t) ;;
   Ok (scalar_mul (amplitude self) y)).
Proof.
  unfold _generate_wave, sample_grid.
  destruct (int_mul_float (duration self) frequency) as [a|]; simpl; [|reflexivity].
  destruct (fceil a) as [p|]; simpl; [|reflexivity].
  destruct (int_div_float p frequency) as [d|]; simpl; [|reflexivity].
  destruct (int_mul_float (sample_rate self) d) as [x|]; simpl; [|reflexivity].
  destruct (ftrunc x) as [n|]; simpl; reflexivity.
Qed.

(** The length of what the builder returns is the number of samples. *)
Lemma generate_wave_length (self : WaveformGenerator F) (k : WaveFormType)
      (frequency : F) (buf : list F) :
  _generate_wave self (wave_functions sin1 k) frequency = Ok buf ->
  exists d n, sample_grid self frequency = Ok (d, n)
              /\ 0 <= n /\ Z.of_nat (List.length buf) = n.
Proof.
  rewrite generate_wave_grid; intros Hg.
  apply bind_ok in Hg as ([d n] & Hgrid & Hg); simpl in Hg.
  apply bind_ok in Hg as (t & Ht & Hg).
  apply bind_ok in Hg as (y & Hy & Hg).
  injection Hg as <-.
  apply np_linspace_length in Ht as [Hn Ht].
  apply wave_functions_size in Hy.
  exists d, n; repeat split; try assumption.
  rewrite scalar_mul_length, Hy, length_map, Ht; lia.
Qed.

End GeneratorFacts.

(** ** Binary64: signs *)

Module Binary64Facts.

Import Binary64.

Lemma binary_round_aux_sign (s : bool) (m e : Z) (l : location) :
  match binary_round_aux prec emax s m e l with
  | S754_zero s' | S754_infinity s' | S754_finite s' _ _ => s' = s
  | S754_nan => True
  end.
Proof.
  unfold binary_round_aux.
  destruct (shr_fexp prec emax m e l) as [mrs e'].
  destruct (shr_fexp prec emax _ e' loc_Exact) as [mrs' e''].
  destruct (shr_m mrs'); [reflexivity | | exact I].
  destruct (e'' <=? emax - prec); reflexivity.
Qed.

Lemma binary_round_sign (s : bool) (m : positive) (e : Z) :
  match binary_round prec emax s m e with
  | S754_zero s' | S754_infinity s' | S754_finite s' _ _ => s' = s
  | S754_nan => True
  end.
Proof.
  unfold binary_round.
  destruct (shl_align m e _) as [mz ez].
  apply binary_round_aux_sign.
Qed.

Lemma of_Z_sign_clear (z : Z) : 0 <= z -> sign_clear (b64_of_Z z).
Proof.
  intros Hz; unfold b64_of_Z, binary_normalize.
  destruct z as [|p|p]; [reflexivity | | lia].
  pose proof (binary_round_sign false p 0) as Hs.
  destruct (binary_round prec emax false p 0); simpl; auto.
Qed.

Lemma positive_float_sign_clear (f : float) :
  positive_float f = true -> sign_clear f /\ b64_is_zero f = false.
Proof.
  unfold positive_float, SFltb.
  destruct f as [s|s| |s m e]; simpl; try discriminate;
    destruct s; simpl; try discriminate; auto.
Qed.

Lemma SFmul_sign_clear (x y : float) :
  sign_clear x -> sign_clear y -> sign_clear (SFmul prec emax x y).
Proof.
  destruct x as [sx|sx| |sx mx ex], y as [sy|sy| |sy my ey]; simpl;
    intros Hx Hy; subst; simpl; auto.
  pose proof (binary_round_aux_sign false (Zpos (mx * my)) (ex + ey) loc_Exact) as Hs.
  destruct (binary_round_aux _ _ _ _ _ _); simpl; auto.
Qed.

Lemma SFdiv_sign_clear (x y : float) :
  sign_clear x -> sign_clear y -> sign_clear (SFdiv prec emax x y).
Proof.
  destruct x as [sx|sx| |sx mx ex], y as [sy|sy| |sy my ey]; simpl;
    intros Hx Hy; subst; simpl; auto.
  destruct (SFdiv_core_binary prec emax (Zpos mx) ex (Zpos my) ey)
    as [[mz ez] lz].
  pose proof (binary_round_aux_sign false mz ez lz) as Hs.
  destruct (binary_round_aux _ _ _ _ _ _); simpl; auto.
Qed.

Lemma shifted_nonneg (m : positive) (e : Z) : 0 <= Z.pos m * 2 ^ e.
Proof. apply Z.mul_nonneg_nonneg; [lia | apply Z.pow_nonneg; lia]. Qed.

Lemma ceil_fraction_nonneg (m : positive) (e : Z) :
  e < 0 -> 0 <= - (- Z.pos m / 2 ^ (- e)).
Proof.
  intros He.
  assert (Hpow : 0 < 2 ^ (- e)) by (apply Z.pow_pos_nonneg; lia).
  assert (Hd : - Z.pos m / 2 ^ (- e) < 0)
    by (apply Z.div_lt_upper_bound; lia).
  lia.
Qed.

Lemma floor_fraction_nonneg (m : positive) (e : Z) :
  e < 0 -> 0 <= Z.pos m / 2 ^ (- e).
Proof.
  intros He; apply Z.div_pos; [lia | apply Z.pow_pos_nonneg; lia].
Qed.

Lemma ceil_sign_clear (x : float) (p : Z) :
  sign_clear x -> b64_ceil x = Ok p -> 0 <= p.
Proof.
  unfold sign_clear, b64_ceil.
  destruct x as [s|s| |s m e]; try discriminate.
  - intros _ Hp; injection Hp as <-; lia.
  - intros -> Hp; unfold signed in Hp.
    destruct (0 <=? e) eqn:He; injection Hp as <-.
    + exact (shifted_nonneg m e).
    + apply Z.leb_gt in He; exact (ceil_fraction_nonneg m e He).
Qed.

(** On a float that is not negative, truncation is the floor. *)
Lemma trunc_floor_sign_clear (x : float) :
  sign_clear x -> b64_trunc x = b64_floor_Z x.
Proof.
  unfold sign_clear, b64_trunc, b64_floor_Z.
  destruct x as [s|s| |s m e]; try reflexivity.
  intros ->; unfold signed.
  destruct (0 <=? e) eqn:He; [reflexivity|].
  apply Z.leb_gt in He.
  assert (Hpow : 0 < 2 ^ (- e)) by (apply Z.pow_pos_nonneg; lia).
  rewrite Z.quot_div_nonneg by lia; reflexivity.
Qed.

Lemma int_to_float_ok (i : Z) (x : float) :
  int_to_float i = Ok x -> x = b64_of_Z i /\ b64_is_finite x = true.
Proof.
  unfold int_to_float; simpl.
  destruct (b64_is_finite (b64_of_Z i)) eqn:Hf; [|discriminate].
  intros Hx; injection Hx as <-; auto.
Qed.

Lemma two_pi_not_zero : b64_is_zero (two_pi (F := float)) = false.
Proof. vm_compute; reflexivity. Qed.

End Binary64Facts.

(** ** The number of samples (binary64) *)

Module SampleCount.

Import Binary64 Binary64Facts.

Lemma sample_grid_inv (self : WaveformGenerator float) (f d : float) (n : Z) :
  sample_grid self f = Ok (d, n) ->
  exists p,
    b64_is_finite (b64_of_Z (duration self)) = true
    /\ b64_ceil (SFmul prec emax (b64_of_Z (duration self)) f) = Ok p
    /\ b64_is_finite (b64_of_Z p) = true
    /\ b64_is_zero f = false
    /\ d = SFdiv prec emax (b64_of_Z p) f
    /\ b64_is_finite (b64_of_Z (sample_rate self)) = true
    /\ b64_trunc (SFmul prec emax (b64_of_Z (sample_rate self)) d) = Ok n.
Proof.
  unfold sample_grid, int_mul_float, int_div_float, float_truediv.
  intros Hg.
  apply bind_ok in Hg as (a & Ha & Hg).
  apply bind_ok in Ha as (dd & Hdd & Ha); injection Ha as <-.
  apply int_to_float_ok in Hdd as [-> HD].
  apply bind_ok in Hg as (p & Hp & Hg).
  apply bind_ok in Hg as (d' & Hd & Hg).
  apply bind_ok in Hd as (pp & Hpp & Hd).
  apply int_to_float_ok in Hpp as [-> HP].
  destruct (is_zero f) eqn:Hz; [discriminate|]; injection Hd as <-.
  apply bind_ok in Hg as (x & Hx & Hg).
  apply bind_ok in Hx as (rr & Hrr & Hx); injection Hx as <-.
  apply int_to_float_ok in Hrr as [-> HR].
  apply bind_ok in Hg as (n' & Hn & Hg).
  injection Hg as <- <-.
  exists p; repeat split; assumption.
Qed.

(** For positive rate, duration and frequency the product [R * D'] is not
    negative. *)
Lemma product_sign_clear (R D p : Z) (f : float) :
  0 < R -> 0 < D -> positive_float f = true ->
  b64_ceil (SFmul prec emax (b64_of_Z D) f) = Ok p ->
  sign_clear (SFmul prec emax (b64_of_Z R) (SFdiv prec emax (b64_of_Z p) f)).
Proof.
  intros HR HD Hf Hp.
  apply positive_float_sign_clear in Hf as [Hf _].
  apply SFmul_sign_clear; [apply of_Z_sign_clear; lia|].
  apply SFdiv_sign_clear; [|assumption].
  apply of_Z_sign_clear.
  apply (ceil_sign_clear (SFmul prec emax (b64_of_Z D) f)); [|assumption].
  apply SFmul_sign_clear; [apply of_Z_sign_clear; lia | assumption].
Qed.

Lemma trunc_nonneg (x : float) (n : Z) :
  sign_clear x -> b64_trunc x = Ok n -> 0 <= n.
Proof.
  intros Hx Hn; rewrite (trunc_floor_sign_clear x Hx) in Hn.
  destruct x as [s|s| |s m e]; try discriminate.
  - injection Hn as <-; lia.
  - simpl in Hx; subst s; unfold b64_floor_Z, signed in Hn.
    destruct (0 <=? e) eqn:He; injection Hn as <-.
    + exact (shifted_nonneg m e).
    + apply Z.leb_gt in He; exact (floor_fraction_nonneg m e He).
Qed.

Lemma shapes_total (x : float) :
  (exists y, _triangle_func x = Ok y)
  /\ (exists y, _square_func x = Ok y)
  /\ (exists y, _sawtooth_func x = Ok y).
Proof.
  unfold _triangle_func, _square_func, _sawtooth_func,
    float_truediv, float_mod.
  change (is_zero (two_pi (F := float))) with (b64_is_zero two_pi).
  rewrite two_pi_not_zero; cbn [bind].
  repeat split; eexists; reflexivity.
Qed.

Lemma mapM_shape {B : Type} (f : float -> result B) (a : list float) :
  (forall x, exists y, f x = Ok y) -> exists l, mapM f a = Ok l.
Proof.
  intros Hf; induction a as [|x a [l IH]]; simpl; [eauto|].
  destruct (Hf x) as [y ->]; simpl; rewrite IH; simpl; eauto.
Qed.

Lemma wave_functions_total (sin1 : float -> float) (k : WaveFormType)
      (a : list float) :
  k = SINE \/ a <> [] -> exists arr, wave_functions sin1 k a = Ok arr.
Proof.
  intros Hk; destruct k; simpl.
  - eexists; reflexivity.
  - destruct Hk as [Hk|Ha]; [discriminate|].
    destruct a as [|x a]; [congruence|]; unfold np_vectorize_float.
    destruct (mapM_shape _triangle_func (x :: a)) as [l ->];
      [intros y; apply shapes_total | simpl; eauto].
  - destruct Hk as [Hk|Ha]; [discriminate|].
    destruct a as [|x a]; [congruence|]; unfold np_vectorize_int.
    destruct (mapM_shape _square_func (x :: a)) as [l ->];
      [intros y; apply shapes_total | simpl; eauto].
  - destruct Hk as [Hk|Ha]; [discriminate|].
    destruct a as [|x a]; [congruence|]; unfold np_vectorize_float.
    destruct (mapM_shape _sawtooth_func (x :: a)) as [l ->];
      [intros y; apply shapes_total | simpl; eauto].
Qed.

Lemma np_linspace_total (start stop : float) (num : Z) :
  0 <= num ->
  exists t, np_linspace start stop num = Ok t
            /\ List.length t = Z.to_nat num.
Proof.
  intros Hn.
  destruct (np_linspace start stop num) as [t|e] eqn:Ht.
  - exists t; split; [reflexivity | apply (np_linspace_length _ _ _ _ Ht)].
  - unfold np_linspace in Ht.
    apply Z.ltb_ge in Hn; rewrite Hn in Ht; discriminate.
Qed.

Lemma SFsub_zero (x : float) : SFsub prec emax x (S754_zero false) = x.
Proof.
  destruct x as [s|s| |s m e]; try reflexivity; destruct s; reflexivity.
Qed.

Lemma SFadd_zero (x : float) :
  sign_clear x -> SFadd prec emax x (S754_zero false) = x.
Proof.
  destruct x as [s|s| |s m e]; simpl; intros Hs; subst; reflexivity.
Qed.

Lemma b64_time_sign_clear (d : float) (N : Z) (i : nat) :
  sign_clear d -> 0 <= N -> sign_clear (b64_time d N i).
Proof.
  intros Hd HN; unfold b64_time.
  assert (Hi : sign_clear (b64_of_Z (Z.of_nat i)))
    by (apply of_Z_sign_clear; lia).
  assert (Hn : sign_clear (b64_of_Z N)) by (apply of_Z_sign_clear; lia).
  destruct (b64_is_zero _);
    repeat (apply SFmul_sign_clear || apply SFdiv_sign_clear); assumption.
Qed.

(** In binary64, the sample times of a duration that is not negative. *)
Lemma linspace_b64 (d : float) (N : Z) :
  sign_clear d -> 0 <= N ->
  np_linspace (b64_of_Z 0) d N = Ok (map (b64_time d N) (seq 0 (Z.to_nat N))).
Proof.
  intros Hd HN; unfold np_linspace.
  destruct (N <? 0) eqn:Hneg; [apply Z.ltb_lt in Hneg; lia|].
  destruct (0 <? N) eqn:Hpos.
  - cbn [fsub fdiv fmul fadd is_zero of_Z b64].
    change (b64_of_Z 0) with (S754_zero false).
    rewrite SFsub_zero.
    f_equal; unfold arange.
    destruct (b64_is_zero (SFdiv prec emax d (b64_of_Z N))) eqn:Hz;
      rewrite !map_map; apply map_ext; intros i;
      cbn [of_Z b64];
      (rewrite SFadd_zero;
       [unfold b64_time; rewrite Hz; reflexivity|]);
      pose proof (b64_time_sign_clear d N i Hd HN) as Hs;
      unfold b64_time in Hs; rewrite Hz in Hs; exact Hs.
  - apply Z.ltb_ge in Hpos; assert (HN0 : N = 0) by lia; subst N.
    reflexivity.
Qed.

Lemma adjusted_sign_clear (self : WaveformGenerator float) (f d : float)
      (N : Z) :
  0 < duration self -> positive_float f = true ->
  sample_grid self f = Ok (d, N) -> sign_clear d.
Proof.
  intros HD Hf Hg.
  apply sample_grid_inv in Hg as (p & _ & Hp & _ & _ & -> & _ & _).
  apply positive_float_sign_clear in Hf as [Hf _].
  apply SFdiv_sign_clear; [|assumption].
  apply of_Z_sign_clear.
  apply (ceil_sign_clear (SFmul prec emax (b64_of_Z (duration self)) f));
    [|assumption].
  apply SFmul_sign_clear; [apply of_Z_sign_clear; lia | assumption].
Qed.

(** In binary64 the builder samples the shape at the phases
    [(2 pi f) * t_i] of the [N] times [t_i = i * (D' / N)]. *)
Lemma generate_wave_b64_grid (self : WaveformGenerator float)
      (wf : wave_func_t float) (f d : float) (N : Z) :
  0 < sample_rate self -> 0 < duration self -> positive_float f = true ->
  sample_grid self f = Ok (d, N) ->
  0 <= N
  /\ np_linspace (b64_of_Z 0) d N
     = Ok (map (b64_time d N) (seq 0 (Z.to_nat N)))
  /\ _generate_wave self wf f
     = (y <- wf (map (SFmul prec emax (SFmul prec emax two_pi f))
                     (map (b64_time d N) (seq 0 (Z.to_nat N)))) ;;
        Ok (scalar_mul (amplitude self) y)).
Proof.
  intros HR HD Hf Hg.
  pose proof (adjusted_sign_clear self f d N HD Hf Hg) as Hd.
  assert (HN : 0 <= N).
  { pose proof Hg as Hg'.
    apply sample_grid_inv in Hg' as (p & _ & Hp & _ & _ & -> & _ & Hn).
    apply (trunc_nonneg _ _ (product_sign_clear _ _ _ _ HR HD Hf Hp) Hn). }
  split; [assumption|].
  split; [apply linspace_b64; assumption|].
  rewrite generate_wave_grid, Hg; cbn [bind fst snd].
  change (of_Z 0) with (b64_of_Z 0).
  rewrite (linspace_b64 d N Hd HN); reflexivity.
Qed.

(** In binary64: a buffer that is returned has the number of samples the
    specification computes, and it is returned whenever this number can be
    computed and the shaping function accepts that many phases. *)
Lemma b64_sample_count (sin1 : float -> float)
        (self : WaveformGenerator float) (k : WaveFormType) (f : float) :
  0 < sample_rate self -> 0 < duration self -> positive_float f = true ->
  (forall buf,
      _generate_wave self (wave_functions sin1 k) f = Ok buf ->
      spec_sample_count (sample_rate self) (duration self) f
      = Ok (Z.of_nat (List.length buf)))
  /\ (forall d N,
         sample_grid self f = Ok (d, N) ->
         k = SINE \/ 0 < N ->
         exists buf,
           _generate_wave self (wave_functions sin1 k) f = Ok buf
           /\ Z.of_nat (List.length buf) = N
           /\ spec_sample_count (sample_rate self) (duration self) f = Ok N).
Proof.
  intros HR HD Hf.
  assert (Hspec : forall d N, sample_grid self f = Ok (d, N) ->
            0 <= N /\
            spec_sample_count (sample_rate self) (duration self) f = Ok N).
  { intros d N Hg.
    apply sample_grid_inv in Hg as (p & _ & Hp & _ & _ & -> & _ & Hn).
    pose proof (product_sign_clear _ _ _ _ HR HD Hf Hp) as Hs.
    split; [apply (trunc_nonneg _ _ Hs Hn)|].
    unfold spec_sample_count; rewrite Hp; simpl.
    rewrite <- (trunc_floor_sign_clear _ Hs); assumption. }
  split.
  - intros buf Hbuf.
    apply generate_wave_length in Hbuf as (d & n & Hg & _ & ->).
    apply (Hspec d n Hg).
  - intros d N Hg Hk.
    destruct (Hspec d N Hg) as [HN HS].
    rewrite generate_wave_grid, Hg; cbn [bind fst snd].
    destruct (np_linspace_total (b64_of_Z 0) d N HN) as (t & Ht & Hlen).
    change (of_Z 0) with (b64_of_Z 0); rewrite Ht; cbn [bind].
    destruct (wave_functions_total sin1 k
                (map (fmul (fmul two_pi f)) t)) as [arr Harr].
    { destruct Hk as [Hk|Hk]; [left; assumption | right].
      destruct t; [simpl in Hlen; lia | discriminate]. }
    rewrite Harr; cbn [bind].
    eexists; split; [reflexivity|]; split; [|assumption].
    apply wave_functions_size in Harr.
    rewrite scalar_mul_length, Harr, length_map, Hlen; lia.
Qed.

End SampleCount.

(** ** Parameters outside the intended domain (binary64) *)

Module Parameters.

Import Binary64 Binary64Facts.

Lemma SFmul_finite_zero (x f : float) :
  b64_is_finite x = true -> b64_is_zero f = true ->
  b64_ceil (SFmul prec emax x f) = Ok 0.
Proof.
  destruct x as [sx|sx| |sx mx ex]; try discriminate;
    destruct f as [sf|sf| |sf mf ef]; try discriminate; reflexivity.
Qed.

Lemma ceil_errors (x : float) (e : exn) :
  b64_ceil x = Raise e -> e = OverflowError \/ e = ValueError.
Proof.
  destruct x as [s|s| |s m ex]; simpl; try discriminate.
  - intros [= <-]; left; reflexivity.
  - intros [= <-]; right; reflexivity.
  - destruct (0 <=? ex); discriminate.
Qed.

Lemma trunc_errors (x : float) (e : exn) :
  b64_trunc x = Raise e -> e = OverflowError \/ e = ValueError.
Proof.
  destruct x as [s|s| |s m ex]; simpl; try discriminate.
  - intros [= <-]; left; reflexivity.
  - intros [= <-]; right; reflexivity.
  - destruct (0 <=? ex); discriminate.
Qed.

(** The computation of the adjusted duration and of the sample count fails
    with one of three exceptions, and with ZeroDivisionError for a
    frequency of zero only. *)
Lemma sample_grid_errors (self : WaveformGenerator float) (f : float)
      (e : exn) :
  sample_grid self f = Raise e ->
  (e = ZeroDivisionError /\ b64_is_zero f = true)
  \/ e = OverflowError \/ e = ValueError.
Proof.
  unfold sample_grid, int_mul_float, int_div_float, int_to_float,
    float_truediv.
  destruct (is_finite (of_Z (duration self))); cbn [bind];
    [|intros [= <-]; right; left; reflexivity].
  destruct (fceil (fmul (of_Z (duration self)) f)) as [p|e1] eqn:Hp;
    cbn [bind]; [|intros [= <-]; right; apply (ceil_errors _ _ Hp)].
  destruct (is_finite (of_Z p)); cbn [bind];
    [|intros [= <-]; right; left; reflexivity].
  change (is_zero f) with (b64_is_zero f).
  destruct (b64_is_zero f) eqn:Hz; cbn [bind];
    [intros [= <-]; left; split; reflexivity|].
  destruct (is_finite (of_Z (sample_rate self))); cbn [bind];
    [|intros [= <-]; right; left; reflexivity].
  destruct (ftrunc _) as [n|e1] eqn:Hn; cbn [bind]; [discriminate|].
  intros [= <-]; right; apply (trunc_errors _ _ Hn).
Qed.

Lemma sample_grid_zero_frequency (self : WaveformGenerator float)
      (f : float) :
  b64_is_zero f = true ->
  sample_grid self f
  = if b64_is_finite (b64_of_Z (duration self))
    then Raise ZeroDivisionError else Raise OverflowError.
Proof.
  intros Hz; unfold sample_grid, int_mul_float, int_to_float.
  change (is_finite (of_Z (duration self)))
    with (b64_is_finite (b64_of_Z (duration self))).
  destruct (b64_is_finite (b64_of_Z (duration self))) eqn:HD;
    [|reflexivity].
  cbn [bind].
  change (fceil (fmul (of_Z (duration self)) f))
    with (b64_ceil (SFmul prec emax (b64_of_Z (duration self)) f)).
  rewrite (SFmul_finite_zero _ _ HD Hz); cbn [bind].
  unfold int_div_float, int_to_float, float_truediv.
  change (is_finite (of_Z 0)) with true; cbn [bind].
  change (is_zero f) with (b64_is_zero f); rewrite Hz; reflexivity.
Qed.

(** With no sample at all the sine returns the empty buffer, and the
    shapes that [np.vectorize] wraps are refused. *)
Lemma zero_samples (sin1 : float -> float) (self : WaveformGenerator float)
        (k : WaveFormType) (f d : float) :
  sample_grid self f = Ok (d, 0) ->
  _generate_wave self (wave_functions sin1 k) f
  = if match k with SINE => true | _ => false end
    then Ok [] else Raise ValueError.
Proof.
  intros Hg; rewrite generate_wave_grid, Hg; cbn [bind fst snd].
  unfold np_linspace; cbn [Z.ltb Z.compare bind map arange seq Z.to_nat].
  destruct k; reflexivity.
Qed.


End Parameters.

(** ** Boundary values of the shaping functions (binary64) *)

Module Boundary.

Import Binary64 Binary64Facts.

(** C4.  square(0) = +1 and square(pi) = -1, sawtooth(0) = 0 and
    triangle(0) = -1, exactly; the square is +1 exactly when the phase
    modulo 2 pi is below pi, so that a whole turn gives +1 again. *)
Theorem shape_boundary_values :
  _square_func (b64_of_Z 0) = Ok 1
  /\ _square_func b64_pi = Ok (-1)
  /\ _sawtooth_func (b64_of_Z 0) = Ok (S754_zero false)
  /\ _triangle_func (b64_of_Z 0) = Ok (b64_of_Z (-1))
  /\ _square_func (two_pi (F := float)) = Ok 1
  /\ (forall x : float,
         _square_func x
         = Ok (if SFltb (b64_rem x two_pi) b64_pi then 1 else -1)).
Proof.
  do 5 (split; [vm_compute; reflexivity|]).
  intros x; unfold _square_func, float_mod.
  change (is_zero (two_pi (F := float))) with (b64_is_zero two_pi).
  rewrite two_pi_not_zero; reflexivity.
Qed.

End Boundary.

(** ** The samples of the square (binary64) *)

Module SquareExact.

Import Binary64 Binary64Facts.

Lemma round_exact_shift (s : bool) (m : positive) (e : Z) :
  SpecFloat.bounded prec emax m e = true ->
  binary_round_aux prec emax s (Z.pos (m * 4503599627370496)) (e + -52)
                   loc_Exact
  = S754_finite s m e.
Proof.
  unfold SpecFloat.bounded, canonical_mantissa; intros Hb.
  apply andb_prop in Hb as [Hc He].
  apply Z.eqb_eq in Hc.
  rewrite Pos.mul_comm.
  unfold binary_round_aux, shr_fexp.
  assert (Hdig : Zdigits2 (Z.pos (4503599627370496 * m)) + (e + -52)
                 = Z.pos (digits2_pos m) + e).
  { cbn [Pos.mul Zdigits2 digits2_pos]. lia. }
  rewrite Hdig, Hc.
  replace (e - (e + -52)) with 52 by lia.
  cbn [shr shr_record_of_loc SpecFloat.iter_pos].
  cbn [Pos.mul shr_1 orb].
  cbn [loc_of_shr_record shr_m round_nearest_even].
  replace (e + -52 + 52) with e by lia.
  cbn [Zdigits2]; rewrite Hc, Z.sub_diag.
  cbn [shr shr_record_of_loc shr_m].
  rewrite He; reflexivity.
Qed.

Lemma mul_one (A : float) :
  valid_binary prec emax A = true -> SFmul prec emax A (b64_of_Z 1) = A.
Proof.
  change (b64_of_Z 1) with (S754_finite false 4503599627370496 (-52)).
  destruct A as [s|s| |s m e]; cbn [SFmul valid_binary]; intros Hv;
    try reflexivity; try (destruct s; reflexivity).
  destruct s; apply round_exact_shift; assumption.
Qed.

Lemma mul_minus_one (A : float) :
  valid_binary prec emax A = true ->
  SFmul prec emax A (b64_of_Z (-1)) = SFopp A.
Proof.
  change (b64_of_Z (-1)) with (S754_finite true 4503599627370496 (-52)).
  destruct A as [s|s| |s m e]; cbn [SFmul valid_binary SFopp]; intros Hv;
    try reflexivity; try (destruct s; reflexivity).
  destruct s; apply round_exact_shift; assumption.
Qed.

Lemma square_values (x : float) (z : Z) :
  _square_func x = Ok z -> z = 1 \/ z = -1.
Proof.
  unfold _square_func, float_mod.
  destruct (is_zero _); [discriminate|]; cbn [bind].
  destruct (fltb _ _); intros Hz; injection Hz as <-; auto.
Qed.

Lemma mapM_square_values (a : list float) (l : list Z) :
  mapM _square_func a = Ok l -> Forall (fun z => z = 1 \/ z = -1) l.
Proof.
  intros Hl; apply mapM_Forall2 in Hl.
  induction Hl as [|x z a l Hx _ IH]; constructor;
    [apply (square_values x z Hx) | assumption].
Qed.

(** In binary64 the samples of the square are the amplitude or its
    opposite, bit for bit. *)
Lemma square_samples_exact (self : WaveformGenerator float) (f : float)
      (buf : list float) :
  valid_binary prec emax (amplitude self) = true ->
  _generate_wave self (np_vectorize_int _square_func) f = Ok buf ->
  Forall (fun s => s = amplitude self \/ s = SFopp (amplitude self)) buf.
Proof.
  intros HA; rewrite generate_wave_grid; intros Hg.
  apply bind_ok in Hg as (g & _ & Hg).
  apply bind_ok in Hg as (t & _ & Hg).
  apply bind_ok in Hg as (y & Hy & Hg).
  injection Hg as <-.
  unfold np_vectorize_int in Hy.
  destruct (map _ t) as [|x a]; [discriminate|].
  apply bind_ok in Hy as (l & Hl & Hy); injection Hy as <-.
  apply mapM_square_values in Hl.
  cbn [scalar_mul]; apply Forall_map.
  apply (Forall_impl _ (P := fun z => z = 1 \/ z = -1)); [|assumption].
  intros z [-> | ->]; [left; apply (mul_one _ HA) | right; apply (mul_minus_one _ HA)].
Qed.

End SquareExact.

(** ** Exact arithmetic: the number of samples *)

Module ExactFacts.

Import Exact.
Open Scope R_scope.

Lemma Rfloor_spec (x : R) : IZR (Rfloor x) <= x < IZR (Rfloor x) + 1.
Proof.
  unfold Rfloor; destruct (base_Int_part x) as [Hlo Hhi]; lra.
Qed.

Lemma Rceil_spec (x : R) : x <= IZR (Rceil x) < x + 1.
Proof.
  unfold Rceil; rewrite opp_IZR.
  destruct (base_Int_part (- x)) as [Hlo Hhi]; lra.
Qed.

Lemma Rfloor_ge (x : R) (n : Z) : IZR n <= x -> (n <= Rfloor x)%Z.
Proof.
  intros Hn; destruct (Rfloor_spec x) as [_ Hhi].
  assert (Hlt : IZR n < IZR (Rfloor x + 1)) by (rewrite plus_IZR; lra).
  apply lt_IZR in Hlt; lia.
Qed.

Lemma Rfloor_unique (x : R) (n : Z) : IZR n <= x < IZR n + 1 -> Rfloor x = n.
Proof.
  intros [Hlo Hhi]; destruct (Rfloor_spec x) as [Flo Fhi].
  assert (H1 : IZR n < IZR (Rfloor x + 1)) by (rewrite plus_IZR; lra).
  assert (H2 : IZR (Rfloor x) < IZR (n + 1)) by (rewrite plus_IZR; lra).
  apply lt_IZR in H1, H2; lia.
Qed.

Lemma two_pi_exact : two_pi (F := R) = 2 * PI.
Proof. reflexivity. Qed.

Lemma two_pi_pos : 0 < 2 * PI.
Proof. pose proof PI_RGT_0; lra. Qed.

Lemma R_is_zero_false (x : R) : x <> 0 -> R_is_zero x = false.
Proof. intros Hx; unfold R_is_zero; destruct (Req_dec_T x 0); congruence. Qed.

Lemma triangle_exact (x : R) :
  _triangle_func x
  = Ok (2 * Rabs (2 * (x / (2 * PI) - IZR (Rfloor (x / (2 * PI) + / 2)))) - 1).
Proof.
  unfold _triangle_func, float_truediv.
  change (is_zero (two_pi (F := R))) with (R_is_zero (2 * PI)).
  rewrite R_is_zero_false by (pose proof two_pi_pos; lra).
  reflexivity.
Qed.

Lemma sawtooth_exact (x : R) :
  _sawtooth_func x
  = Ok (2 * (x / (2 * PI) - IZR (Rfloor (/ 2 + x / (2 * PI))))).
Proof.
  unfold _sawtooth_func, float_truediv.
  change (is_zero (two_pi (F := R))) with (R_is_zero (2 * PI)).
  rewrite R_is_zero_false by (pose proof two_pi_pos; lra).
  reflexivity.
Qed.

Lemma square_exact (x : R) :
  _square_func x = Ok (if Rltb (Rrem x (2 * PI)) PI then 1 else -1)%Z.
Proof.
  unfold _square_func, float_mod.
  change (is_zero (two_pi (F := R))) with (R_is_zero (2 * PI)).
  rewrite R_is_zero_false by (pose proof two_pi_pos; lra).
  reflexivity.
Qed.

(** What the shaping functions return on a list of phases. *)
Lemma wave_functions_exact (k : WaveFormType) (a : list R) :
  k = SINE \/ a <> [] ->
  wave_functions sin k a =
  Ok (shaped k a).
Proof.
  intros Hk; destruct k; simpl; [reflexivity| | |];
    (destruct Hk as [Hk|Ha]; [discriminate|]);
    (destruct a as [|x a]; [congruence|]).
  - unfold np_vectorize_float.
    rewrite (mapM_total _ triangle_value)
      by (intros; apply triangle_exact); reflexivity.
  - unfold np_vectorize_int.
    rewrite (mapM_total _ square_value)
      by (intros; apply square_exact); reflexivity.
  - unfold np_vectorize_float.
    rewrite (mapM_total _ sawtooth_value)
      by (intros; apply sawtooth_exact); reflexivity.
Qed.

Section Grid.
Variable self : WaveformGenerator R.
Variable f : R.
Hypothesis HR : (0 < sample_rate self)%Z.
Hypothesis HD : (0 < duration self)%Z.
Hypothesis Hf : 0 < f.

Lemma adjusted_ge_duration : IZR (duration self) <= adjusted self f.
Proof.
  unfold adjusted, periods.
  destruct (Rceil_spec (IZR (duration self) * f)) as [Hlo _].
  apply (Rmult_le_reg_r f); [assumption|].
  unfold Rdiv; rewrite Rmult_assoc, Rinv_l by lra; lra.
Qed.

Lemma adjusted_ge_1 : 1 <= adjusted self f.
Proof.
  pose proof adjusted_ge_duration.
  assert (1 <= IZR (duration self)) by (apply IZR_le; lia).
  lra.
Qed.

Lemma count_pos : (1 <= count self f)%Z.
Proof.
  unfold count; apply Rfloor_ge.
  pose proof adjusted_ge_1.
  assert (1 <= IZR (sample_rate self)) by (apply IZR_le; lia).
  nra.
Qed.

Lemma sample_grid_exact :
  sample_grid self f = Ok (adjusted self f, count self f).
Proof.
  unfold sample_grid, int_mul_float, int_div_float, int_to_float,
    float_truediv.
  cbn [bind is_finite exact of_Z is_zero fmul fdiv fceil ftrunc].
  rewrite (R_is_zero_false f) by lra.
  cbn [bind].
  unfold Rtrunc.
  destruct (Rle_dec 0 _) as [_|Hneg]; [reflexivity|].
  exfalso; apply Hneg.
  pose proof adjusted_ge_1.
  assert (1 <= IZR (sample_rate self)) by (apply IZR_le; lia).
  fold (periods self f); fold (adjusted self f); nra.
Qed.

Lemma linspace_exact :
  np_linspace (IZR 0) (adjusted self f) (count self f) = Ok (times self f).
Proof.
  pose proof count_pos as HN; pose proof adjusted_ge_1 as HA.
  assert (HNr : 1 <= IZR (count self f)) by (apply IZR_le; lia).
  unfold np_linspace.
  destruct ((count self f) <? 0)%Z eqn:Hneg; [apply Z.ltb_lt in Hneg; lia|].
  destruct (0 <? (count self f))%Z eqn:Hpos; [|apply Z.ltb_ge in Hpos; lia].
  cbn [is_zero exact fsub fdiv of_Z fmul fadd].
  rewrite R_is_zero_false.
  - unfold arange, times; rewrite !map_map; f_equal.
    apply map_ext; intros i.
    cbn [of_Z exact]; rewrite <- INR_IZR_INZ; lra.
  - apply Rgt_not_eq; apply Rdiv_lt_0_compat; lra.
Qed.

Lemma times_spec (i : nat) :
  (i < Z.to_nat (count self f))%nat ->
  nth i (times self f) 0 = INR i * (adjusted self f / IZR (count self f))
  /\ 0 <= nth i (times self f) 0 < adjusted self f
  /\ 2 * PI * f * nth i (times self f) 0 < 2 * PI * IZR (periods self f).
Proof.
  intros Hi.
  pose proof count_pos as HN; pose proof adjusted_ge_1 as HA.
  assert (HNr : 1 <= IZR (count self f)) by (apply IZR_le; lia).
  assert (Hnth : nth i (times self f) 0
                 = INR i * (adjusted self f / IZR (count self f))).
  { unfold times.
    set (g := fun i : nat => INR i * (adjusted self f / IZR (count self f))).
    rewrite (nth_indep _ 0 (g O))
      by (rewrite length_map, length_seq; assumption).
    rewrite map_nth, seq_nth by assumption; reflexivity. }
  assert (Hi' : INR i + 1 <= IZR (count self f)).
  { rewrite <- (Z2Nat.id (count self f)) by lia.
    rewrite <- INR_IZR_INZ, <- S_INR; apply le_INR; lia. }
  assert (Hi0 : 0 <= INR i) by apply pos_INR.
  assert (Hstep : 0 < (adjusted self f) / IZR (count self f))
    by (apply Rdiv_lt_0_compat; lra).
  assert (Hfull : IZR (count self f)
                  * (adjusted self f / IZR (count self f))
                  = adjusted self f)
    by (field; lra).
  assert (Hlt : nth i (times self f) 0 < adjusted self f)
    by (rewrite Hnth; nra).
  split; [assumption|]; split; [split; [rewrite Hnth; nra | assumption]|].
  assert (Hp : f * (adjusted self f) = IZR (periods self f))
    by (unfold adjusted; field; lra).
  pose proof two_pi_pos.
  rewrite <- Hp.
  assert (0 < 2 * PI * f) by nra.
  nra.
Qed.
End Grid.

Lemma generate_wave_exact (self : WaveformGenerator R) (wf : wave_func_t R)
      (f : R) :
  (0 < sample_rate self)%Z -> (0 < duration self)%Z -> 0 < f ->
  _generate_wave self wf f =
  (y <- wf (map (Rmult (2 * PI * f)) (times self f)) ;;
   Ok (scalar_mul (amplitude self) y)).
Proof.
  intros HR HD Hf.
  rewrite generate_wave_grid, (sample_grid_exact self f HR HD Hf).
  cbn [bind fst snd].
  change (of_Z 0) with (IZR 0).
  rewrite (linspace_exact self f HR HD Hf); reflexivity.
Qed.

Lemma times_length (self : WaveformGenerator R) (f : R) :
  List.length (times self f) = Z.to_nat (count self f).
Proof. unfold times; rewrite length_map, length_seq; reflexivity. Qed.

(** In exact arithmetic the buffer exists and has floor(R * D') samples. *)
Lemma exact_sample_count (self : WaveformGenerator R) (k : WaveFormType)
      (f : R) :
  (0 < sample_rate self)%Z -> (0 < duration self)%Z -> 0 < f ->
  exists buf : list R,
    _generate_wave self (wave_functions sin k) f = Ok buf
    /\ Z.of_nat (List.length buf)
       = Rfloor (IZR (sample_rate self)
                 * (IZR (Rceil (IZR (duration self) * f)) / f)).
Proof.
  intros HR HD Hf.
  pose proof (count_pos self f HR HD Hf) as HN.
  set (phases := map (Rmult (2 * PI * f)) (times self f)).
  assert (Hne : phases <> []).
  { intros Hnil; apply (f_equal (@List.length R)) in Hnil.
    unfold phases in Hnil; rewrite length_map, times_length in Hnil.
    simpl in Hnil; lia. }
  exists (scalar_mul (amplitude self) (shaped k phases)).
  rewrite (generate_wave_exact self _ f HR HD Hf).
  fold phases; rewrite (wave_functions_exact k phases) by (right; assumption).
  split; [reflexivity|].
  rewrite scalar_mul_length.
  assert (Hsize : array_size (shaped k phases) = List.length phases)
    by (destruct k; simpl; apply length_map).
  rewrite Hsize; unfold phases; rewrite length_map, times_length.
  fold (periods self f); fold (adjusted self f); fold (count self f); lia.
Qed.

End ExactFacts.

(** ** The sample times and the size of the samples *)

Module Samples.

Import Binary64 Exact.

(** C1.  For a positive sample rate R, duration D and frequency f, the
    buffer of [_generate_wave] has N samples, where p = ceil(D * f),
    D' = p / f and N = floor(R * D'), the floor being the truncation of
    [int].  In binary64 each of these operations is the rounded one
    ([spec_sample_count]): a buffer that is returned has this length, and
    it is returned whenever N can be computed without overflow and is
    positive (or the shape is the sine, which accepts no phases at all).
    In exact arithmetic the buffer is always returned and N is
    floor(R * ceil(D * f) / f). *)
Theorem sample_count_floor_ceil :
  (forall (sin1 : float -> float) (self : WaveformGenerator float)
          (k : WaveFormType) (f : float),
      (0 < sample_rate self)%Z -> (0 < duration self)%Z ->
      positive_float f = true ->
      (forall buf,
          _generate_wave self (wave_functions sin1 k) f = Ok buf ->
          spec_sample_count (sample_rate self) (duration self) f
          = Ok (Z.of_nat (List.length buf)))
      /\ (forall d N,
             sample_grid self f = Ok (d, N) ->
             k = SINE \/ (0 < N)%Z ->
             exists buf,
               _generate_wave self (wave_functions sin1 k) f = Ok buf
               /\ Z.of_nat (List.length buf) = N
               /\ spec_sample_count (sample_rate self) (duration self) f
                  = Ok N))
  /\ (forall (self : WaveformGenerator R) (k : WaveFormType) (f : R),
         (0 < sample_rate self)%Z -> (0 < duration self)%Z -> 0 < f ->
         exists buf : list R,
           _generate_wave self (wave_functions sin k) f = Ok buf
           /\ Z.of_nat (List.length buf)
              = Rfloor (IZR (sample_rate self)
                        * IZR (Rceil (IZR (duration self) * f)) / f)).
Proof.
  split.
  - apply SampleCount.b64_sample_count.
  - intros self k f HR HD Hf.
    destruct (ExactFacts.exact_sample_count self k f HR HD Hf)
      as (buf & Hbuf & Hlen).
    exists buf; split; [assumption|].
    rewrite Hlen; f_equal; unfold Rdiv; ring.
Qed.

End Samples.

(** ** The frequency list *)

Module TextFacts.

Import Binary64 Text.

Lemma lstrip_blank (s : string) : is_blank s = true -> lstrip s = EmptyString.
Proof.
  induction s as [|c s IH]; simpl; [reflexivity|].
  destruct (is_space c); simpl; [assumption | discriminate].
Qed.

Lemma strip_blank (s : string) : is_blank s = true -> strip s = EmptyString.
Proof. intros Hs; unfold strip; rewrite (lstrip_blank s Hs); reflexivity. Qed.

Lemma py_float_raise (text : string) (e : exn) :
  py_float text = Raise e -> e = ValueError.
Proof.
  unfold py_float.
  destruct (read_sign _) as [neg s].
  destruct (String.eqb _ _ || String.eqb _ _); [discriminate|].
  destruct (String.eqb _ _); [discriminate|].
  destruct (digitpart s) as [ip s1].
  destruct (match s1 with String "."%char s1' => digitpart s1' | _ => ([], s1) end)
    as [fp s2].
  destruct (read_exponent s2) as [ex s3].
  destruct ip, fp, s3; intros He; congruence.
Qed.

Lemma py_float_blank (line : string) :
  is_blank line = true -> py_float (strip line) = Raise ValueError.
Proof. intros Hb; rewrite (strip_blank line Hb); reflexivity. Qed.

(** A text that ends with a newline has an empty last line. *)
Lemma split_newline_trailing (s : string) :
  exists l, split_newline (s ++ String newline EmptyString)
            = l ++ [EmptyString] /\ l <> [].
Proof.
  induction s as [|c s (l & Hl & Hne)]; simpl.
  - exists [EmptyString]; split; [reflexivity | discriminate].
  - rewrite Hl; destruct (Ascii.eqb c newline).
    + exists (EmptyString :: l); split; [reflexivity | discriminate].
    + destruct l as [|piece l]; [congruence|].
      exists (String c piece :: l); split; [reflexivity | discriminate].
Qed.

Lemma load_frequencies_raise (text : string) :
  Exists (fun line => is_ok (py_float (strip line)) = false)
         (split_newline text) ->
  load_frequencies text = Raise ValueError.
Proof.
  intros Hbad; unfold load_frequencies.
  apply mapM_raise; [|assumption].
  intros line e; apply py_float_raise.
Qed.

(** C9.  [load_frequencies] does not look at the values it reads: when
    every line reads as a float, it returns these floats in the order of
    the file, whatever their sign, and [main] hands exactly this list to
    [generate_files]. *)
Theorem load_frequencies_unchecked (text : string) (values : list float) :
  Forall2 (fun line v => py_float (strip line) = Ok v)
          (split_newline text) values ->
  load_frequencies text = Ok values
  /\ forall sin1 args w,
      Driver.lookup "colundi_hertz.txt" (Driver.files w)
      = Some (Driver.TextFile text) ->
      let folder :=
        ("colundi_waveforms_"
           ++ Driver.name_lower (Driver.arg_waveform args))%string in
      let generator :=
        {| sample_rate := Driver.arg_sample_rate args;
           duration := Driver.arg_duration args;
           amplitude := Driver.arg_amplitude args |} in
      Driver.main sin1 args w =
      Driver.bindM
        (Driver.print ("Generating "
                         ++ Driver.enum_str (Driver.arg_waveform args)
                         ++ " waveforms for "
                         ++ decimal (Z.of_nat (List.length values))
                         ++ " frequencies")%string)
        (fun _ =>
           Driver.bindM
             (Driver.generate_files sin1 generator values folder
                                    (Driver.arg_waveform args))
             (fun _ =>
                Driver.print
                  ("Waveforms generated, outputs are in " ++ folder)%string))
        w.
Proof.
  intros Hall.
  assert (Hload : load_frequencies text = Ok values)
    by (apply mapM_Forall2; assumption).
  split; [assumption|].
  intros sin1 args w Hfile folder generator.
  unfold Driver.main, Driver.bindM at 1, Driver.read_text.
  rewrite Hfile.
  unfold Driver.bindM at 1, Driver.lift; rewrite Hload; reflexivity.
Qed.

(** C10.  A blank line makes [load_frequencies] fail: a line that is empty
    or consists of white space, and so every text that ends with a
    newline, raises the ValueError of [float]. *)
Theorem blank_line_rejected (text : string) :
  Exists (fun line => is_blank line = true) (split_newline text)
  \/ (exists s, text = (s ++ String newline EmptyString)%string) ->
  load_frequencies text = Raise ValueError.
Proof.
  intros Hblank; apply load_frequencies_raise.
  destruct Hblank as [Hblank | [s ->]].
  - apply Exists_exists in Hblank as (line & Hin & Hb).
    apply Exists_exists; exists line; split; [assumption|].
    rewrite (py_float_blank line Hb); reflexivity.
  - destruct (split_newline_trailing s) as (l & -> & _).
    apply Exists_app; right; constructor; reflexivity.
Qed.

(** C8.  A line of the frequency list that does not read as a float makes
    [main] fail with the ValueError of [float] before anything else
    happens: no folder is created, no file is written and nothing is
    printed. *)
Theorem malformed_list_fails_first (sin1 : float -> float)
        (args : Driver.Args) (w : Driver.World) (text : string) :
  Driver.lookup "colundi_hertz.txt" (Driver.files w)
  = Some (Driver.TextFile text) ->
  Exists (fun line => is_ok (py_float (strip line)) = false)
         (split_newline text) ->
  Driver.main sin1 args w = (Raise ValueError, w).
Proof.
  intros Hfile Hbad.
  unfold Driver.main, Driver.bindM at 1, Driver.read_text.
  rewrite Hfile.
  unfold Driver.bindM at 1, Driver.lift.
  rewrite (load_frequencies_raise text Hbad); reflexivity.
Qed.

End TextFacts.

(** ** The files written *)

Module DriverFacts.

Import Binary64 Text Driver.

Lemma write_waves_ok (self : WaveformGenerator float)
      (wf : wave_func_t float) (folder : string) (frequencies : list float) :
  forall w w',
    write_waves self wf folder frequencies w = (Ok tt, w') ->
    exists buffers,
      Forall2 (fun f b => _generate_wave self wf f = Ok b) frequencies buffers
      /\ files w' = written self folder frequencies buffers ++ files w
      /\ console w' = console w.
Proof.
  induction frequencies as [|f rest IH]; intros w w' Hrun.
  - injection Hrun as <-; exists []; repeat split; constructor.
  - cbn [write_waves] in Hrun; unfold bindM at 1, lift in Hrun.
    destruct (_generate_wave self wf f) as [buf|e] eqn:Hbuf; [|discriminate].
    unfold bindM at 1, sf_write in Hrun.
    apply IH in Hrun as (buffers & Hall & Hfiles & Hconsole).
    exists (buf :: buffers); split; [constructor; assumption|].
    split; [|assumption].
    rewrite Hfiles; unfold written; cbn [combine map rev files fst snd].
    rewrite <- app_assoc; reflexivity.
Qed.

(** C7, as the code has it.  A run of [generate_files] that succeeds has
    written, for every frequency of the list and in this order, the buffer
    of this frequency at [<output_folder>/colundi_<r>.wav], where [<r>] is
    [repr] of the float, not the text of the input line. *)
Theorem files_named_by_repr (sin1 : float -> float)
        (self : WaveformGenerator float) (frequencies : list float)
        (output_folder : string) (k : WaveFormType) (w w' : World) :
  generate_files sin1 self frequencies output_folder k w = (Ok tt, w') ->
  exists buffers,
    Forall2 (fun f b => _generate_wave self (wave_functions sin1 k) f = Ok b)
            frequencies buffers
    /\ files w'
       = rev (map (fun fb =>
                     ((output_folder ++ "/" ++ "colundi_"
                         ++ py_repr (fst fb) ++ ".wav")%string,
                      WavFile (snd fb) (sample_rate self)))
                  (combine frequencies buffers))
         ++ files (snd (mkdir output_folder w)).
Proof.
  unfold generate_files, bindM at 1; intros Hrun.
  destruct (mkdir output_folder w) as [[[]|e] w0] eqn:Hmk; [|discriminate].
  apply write_waves_ok in Hrun as (buffers & Hall & Hfiles & _).
  exists buffers; split; [assumption|].
  rewrite Hfiles; reflexivity.
Qed.

End DriverFacts.

(** ** The builder as a method of an object *)

Module StatefulFacts.

Import Binary64 Stateful.

(** A call of the method leaves the heap as it found it, and returns what
    [_generate_wave] computes from the three attributes read. *)
Lemma generate_wave_st_run (wf : wave_func_t float) (f : float) (h : Heap) :
  _generate_wave_st wf f h = (_generate_wave (generator_of h) wf f, h).
Proof.
  unfold _generate_wave_st, _generate_wave, st_bind, st_lift, st_ret,
    get_duration, get_sample_rate, get_amplitude, generator_of.
  cbn [sample_rate duration amplitude].
  destruct (int_mul_float (self_duration h) f) as [a|]; cbn [bind];
    [|reflexivity].
  destruct (fceil a) as [p|]; cbn [bind]; [|reflexivity].
  destruct (int_div_float p f) as [d|]; cbn [bind]; [|reflexivity].
  destruct (int_mul_float (self_sample_rate h) d) as [x|]; cbn [bind];
    [|reflexivity].
  destruct (ftrunc x) as [n|]; cbn [bind]; [|reflexivity].
  destruct (np_linspace (of_Z 0) d n) as [t|]; cbn [bind]; [|reflexivity].
  destruct (wf _) as [y|]; cbn [bind]; reflexivity.
Qed.


End StatefulFacts.

(** ** Concrete runs *)

Module Runs.

Import Binary64 Text Driver.

(** The scenarios of the specification: R = 96000, D = 1, f = 440 gives
    D' = 1.0 and 96000 samples; R = 8000, D = 1, f = 3 gives 8000. *)
Example scenario_440 :
  sample_grid {| sample_rate := 96000; duration := 1; amplitude := b64_half |}
              (b64_of_Z 440)
  = Ok (b64_of_Z 1, 96000).
Proof. vm_compute; reflexivity. Qed.

Example scenario_3 :
  sample_grid {| sample_rate := 8000; duration := 1; amplitude := b64_half |}
              (b64_of_Z 3)
  = Ok (b64_of_Z 1, 8000).
Proof. vm_compute; reflexivity. Qed.

(** [float] and [repr] on some texts. *)
Example float_440 : py_float "440" = Ok (b64_of_Z 440).
Proof. vm_compute; reflexivity. Qed.

Example repr_440 : py_repr (b64_of_Z 440) = "440.0"%string.
Proof. vm_compute; reflexivity. Qed.

Example float_tenth :
  py_float " 0.1 " = Ok (S754_finite false 7205759403792794 (-56)).
Proof. vm_compute; reflexivity. Qed.

Example repr_tenth :
  py_repr (S754_finite false 7205759403792794 (-56)) = "0.1"%string.
Proof. vm_compute; reflexivity. Qed.

Example repr_exponent :
  map (fun text => fmap_repr (py_float text))
      ["1e22"; "1e16"; "1e15"; "0.00001"; "0.0001"; "-0"; "inf"; "nan";
       "1_000.5"; "9007199254740993"]%string
  = ["1e+22"; "1e+16"; "1000000000000000.0"; "1e-05"; "0.0001"; "-0.0";
     "inf"; "nan"; "1000.5"; "9007199254740992.0"]%string.
Proof. vm_compute; reflexivity. Qed.

Example float_rejects :
  map (fun text => is_ok (py_float text))
      [""; " "; "abc"; "1e"; "."; "1__0"; "0x10"; "1,5"; "4 4"]%string
  = [false; false; false; false; false; false; false; false; false].
Proof. vm_compute; reflexivity. Qed.

Lemma sample_count_floor_ceil_witness :
  exists buf,
    _generate_wave
      {| sample_rate := 8000; duration := 1; amplitude := b64_half |}
      (wave_functions (fun x => x) TRIANGLE) (b64_of_Z 3) = Ok buf
    /\ Z.of_nat (List.length buf) = 8000
    /\ spec_sample_count 8000 1 (b64_of_Z 3) = Ok 8000.
Proof.
  apply (proj2 (proj1 Samples.sample_count_floor_ceil
                  (fun x => x)
                  {| sample_rate := 8000; duration := 1;
                     amplitude := b64_half |}
                  TRIANGLE (b64_of_Z 3) eq_refl eq_refl eq_refl)
               (b64_of_Z 1) 8000).
  - vm_compute; reflexivity.
  - right; reflexivity.
Defined.



(** A triangle and a sawtooth sample beyond the amplitude: for R = 3,
    D = 1, f = 1.5e16 and A = 0.5 the second phase is so large that
    [u + 0.5] rounds to the next whole number; the triangle buffer is
    [-0.5; 1.5; -0.5] and the sawtooth buffer [0.0; -1.0; 0.0]. *)
Lemma shape_exceeds_amplitude :
  let self := {| sample_rate := 3; duration := 1; amplitude := b64_half |} in
  let f := b64_of_Z 15000000000000000 in
  positive_float f = true
  /\ py_float "1.5e16" = Ok f
  /\ _generate_wave self (wave_functions (fun x => x) TRIANGLE) f
     = Ok [SFopp b64_half; S754_finite false 6755399441055744 (-52);
           SFopp b64_half]
  /\ fmap_repr (Ok (S754_finite false 6755399441055744 (-52)))
     = "1.5"%string
  /\ SFleb (SFabs (S754_finite false 6755399441055744 (-52))) b64_half
     = false
  /\ _generate_wave self (wave_functions (fun x => x) SAWTOOTH) f
     = Ok [S754_zero false; b64_of_Z (-1); S754_zero false]
  /\ SFleb (SFabs (b64_of_Z (-1))) b64_half = false.
Proof. repeat split; vm_compute; reflexivity. Qed.

(** Phases that are not below 2 pi ceil(D f): for R = 3, D = 1 and
    f = 1e308 the adjusted duration is 1.0 and there are three samples, but
    [2 * np.pi * frequency] overflows to an infinity, so that the three
    phases are NaN, inf and inf. *)
Lemma phases_overflow :
  let self := {| sample_rate := 3; duration := 1; amplitude := b64_half |} in
  let f := S754_finite false 5010420900022432 971 in
  positive_float f = true
  /\ py_float "1e308" = Ok f
  /\ sample_grid self f = Ok (b64_of_Z 1, 3)
  /\ map (SFmul prec emax (SFmul prec emax two_pi f))
         (map (b64_time (b64_of_Z 1) 3) (seq 0 3))
     = [S754_nan; S754_infinity false; S754_infinity false]
  /\ (forall p, b64_ceil (SFmul prec emax (b64_of_Z 1) f) = Ok p ->
                SFltb (S754_infinity false)
                      (SFmul prec emax two_pi (b64_of_Z p)) = false)
  /\ _generate_wave self (wave_functions (fun x => x) TRIANGLE) f
     = Ok [S754_nan; S754_nan; S754_nan].
Proof.
  repeat split; try (vm_compute; reflexivity).
  intros p Hp; destruct (SFmul prec emax two_pi (b64_of_Z p)) as [s|[|]| |[|] m e];
    reflexivity.
Qed.


Lemma name_differs_from_input_text :
  exists f,
    load_frequencies "440" = Ok [f]
    /\ wav_path "colundi_waveforms_sine" f
       = "colundi_waveforms_sine/colundi_440.0.wav"%string
    /\ wav_path "colundi_waveforms_sine" f
       <> ("colundi_waveforms_sine/colundi_" ++ "440" ++ ".wav")%string.
Proof.
  exists (S754_finite false 7740561859543040 (-44)).
  split; [vm_compute; reflexivity|].
  split; [vm_compute; reflexivity|].
  vm_compute; discriminate.
Qed.

Lemma files_named_by_repr_witness :
  exists w',
    generate_files (fun x => x)
      {| sample_rate := 8; duration := 1; amplitude := b64_half |}
      [b64_of_Z 2] "out" SQUARE {| files := []; console := [] |}
    = (Ok tt, w')
    /\ exists buffers,
        Forall2 (fun f b =>
                   _generate_wave
                     {| sample_rate := 8; duration := 1;
                        amplitude := b64_half |}
                     (wave_functions (fun x => x) SQUARE) f = Ok b)
                [b64_of_Z 2] buffers
        /\ files w'
           = rev (map (fun fb =>
                         (("out" ++ "/" ++ "colundi_"
                             ++ py_repr (fst fb) ++ ".wav")%string,
                          WavFile (snd fb) 8))
                      (combine [b64_of_Z 2] buffers))
             ++ files (snd (mkdir "out" {| files := []; console := [] |})).
Proof.
  eexists; split; [vm_compute; reflexivity|].
  apply (DriverFacts.files_named_by_repr
           (fun x => x)
           {| sample_rate := 8; duration := 1; amplitude := b64_half |}
           [b64_of_Z 2] "out" SQUARE {| files := []; console := [] |}).
  vm_compute; reflexivity.
Defined.

Lemma malformed_list_fails_first_witness :
  main (fun x => x)
       {| arg_sample_rate := 96000; arg_duration := 1;
          arg_amplitude := b64_half; arg_waveform := SQUARE |}
       {| files := [("colundi_hertz.txt"%string,
                     TextFile ("440" ++ String newline "abc"))];
          console := [] |}
  = (Raise ValueError,
     {| files := [("colundi_hertz.txt"%string,
                   TextFile ("440" ++ String newline "abc"))];
        console := [] |}).
Proof.
  apply (TextFacts.malformed_list_fails_first
           (fun x => x) _ _ ("440" ++ String newline "abc")).
  - reflexivity.
  - apply Exists_cons_tl, Exists_cons_hd; vm_compute; reflexivity.
Defined.

Lemma load_frequencies_unchecked_witness :
  load_frequencies ("0" ++ String newline "-440")
  = Ok [S754_zero false; b64_of_Z (-440)].
Proof.
  apply (TextFacts.load_frequencies_unchecked
           ("0" ++ String newline "-440")
           [S754_zero false; b64_of_Z (-440)]).
  repeat constructor.
Defined.

Lemma blank_line_rejected_witness :
  load_frequencies ("440" ++ String newline EmptyString)
  = Raise ValueError
  /\ load_frequencies ("440" ++ String newline
                             (" " ++ String newline "880"))
     = Raise ValueError.
Proof.
  split; apply TextFacts.blank_line_rejected.
  - right; exists "440"%string; reflexivity.
  - left; apply Exists_cons_tl, Exists_cons_hd; reflexivity.
Defined.

End Runs.

(** ** Concrete runs in exact arithmetic *)

Module ExactRuns.

Import Binary64 Exact.
Open Scope R_scope.

(** Rounding can move the count by one: for R = 96000, D = 1 and the float
    nearest to 0.001, which is a little above 0.001, the binary64 run has
    D' = 1000.0 and 96000000 samples, whereas the exact quotient is a
    little below 1000 and gives 95999999. *)
Remark rounding_moves_the_count :
  Text.py_float "0.001" = Ok (S754_finite false 4611686018427388 (-62))
  /\ sample_grid
       {| sample_rate := 96000; duration := 1;
          amplitude := Binary64.b64_half |}
       (S754_finite false 4611686018427388 (-62))
     = Ok (Binary64.b64_of_Z 1000, 96000000%Z)
  /\ count {| sample_rate := 96000; duration := 1; amplitude := / 2 |}
           (4611686018427388 / 4611686018427387904)
     = 95999999%Z.
Proof.
  split; [vm_compute; reflexivity|].
  split; [vm_compute; reflexivity|].
  unfold count, adjusted, periods; cbn [sample_rate duration].
  assert (Hp : Rceil (1 * (4611686018427388 / 4611686018427387904)) = 1%Z).
  { unfold Rceil.
    change (Int_part ?x) with (Rfloor x).
    rewrite (ExactFacts.Rfloor_unique _ (-1)); [reflexivity | lra]. }
  rewrite Hp.
  apply ExactFacts.Rfloor_unique; lra.
Qed.

End ExactRuns.

(** ** More on the frequency list *)

Module TextMore.

Import Binary64 Text.

Lemma split_newline_length (s : string) :
  List.length (split_newline s) = S (newline_count s).
Proof.
  induction s as [|c s IH]; simpl; [reflexivity|].
  destruct (Ascii.eqb c newline); simpl; [rewrite IH; reflexivity|].
  destruct (split_newline s) as [|piece rest]; simpl in *; [discriminate | assumption].
Qed.

(** X1.  A frequency list that loads has one value per line: as many
    values as the text has newline characters, plus one. *)
Theorem load_frequencies_line_count (text : string) (values : list float) :
  load_frequencies text = Ok values ->
  List.length values = S (newline_count text).
Proof.
  intros Hv; unfold load_frequencies in Hv.
  rewrite (mapM_length _ _ _ Hv); apply split_newline_length.
Qed.

End TextMore.

(** ** More on the builder (binary64) *)

Module BuilderMore.

Import Binary64 Binary64Facts.

Lemma SFmul_finite_nonfinite (x f : float) :
  b64_is_finite x = true -> b64_is_finite f = false ->
  b64_ceil (SFmul prec emax x f) = Raise OverflowError
  \/ b64_ceil (SFmul prec emax x f) = Raise ValueError.
Proof.
  destruct x as [sx|sx| |sx mx ex]; try discriminate;
    destruct f as [sf|sf| |sf mf ef]; try discriminate; intros _ _;
    cbn; auto.
Qed.

(** X3.  A frequency that is an infinity or a NaN, which [float] reads from
    "inf" and "nan", never yields a buffer: [math.ceil] raises
    OverflowError or ValueError (or the duration does not fit a float). *)
Theorem nonfinite_frequency_fails (self : WaveformGenerator float)
        (wf : wave_func_t float) (f : float) :
  b64_is_finite f = false ->
  _generate_wave self wf f = Raise OverflowError
  \/ _generate_wave self wf f = Raise ValueError.
Proof.
  intros Hf; unfold _generate_wave, int_mul_float, int_to_float.
  change (is_finite (of_Z (duration self)))
    with (b64_is_finite (b64_of_Z (duration self))).
  destruct (b64_is_finite (b64_of_Z (duration self))) eqn:HD;
    [|left; reflexivity].
  cbn [bind].
  change (fceil (fmul (of_Z (duration self)) f))
    with (b64_ceil (SFmul prec emax (b64_of_Z (duration self)) f)).
  destruct (SFmul_finite_nonfinite _ _ HD Hf) as [-> | ->]; auto.
Qed.

(** X4.  In binary64 the three shaping functions never raise, whatever the
    phase: the divisor 2 pi is not zero.  The square returns 1 or -1;
    on an infinite or NaN phase it returns -1, and the triangle and the
    sawtooth return NaN. *)
Theorem shapes_of_nonfinite_phase (x : float) :
  (exists y, _triangle_func x = Ok y)
  /\ (exists z, _square_func x = Ok z /\ (z = 1 \/ z = -1))
  /\ (exists y, _sawtooth_func x = Ok y)
  /\ (b64_is_finite x = false ->
      _triangle_func x = Ok S754_nan
      /\ _square_func x = Ok (-1)
      /\ _sawtooth_func x = Ok S754_nan).
Proof.
  destruct (SampleCount.shapes_total x) as (Ht & [z Hz] & Hs).
  split; [assumption|].
  split; [exists z; split; [assumption | apply (SquareExact.square_values x z Hz)]|].
  split; [assumption|].
  destruct x as [s|s| |s m e]; try discriminate; intros _;
    try destruct s; repeat split; vm_compute; reflexivity.
Qed.

Lemma zero_duration_grid (self : WaveformGenerator float) (f : float) :
  duration self = 0 ->
  b64_is_finite f = true -> b64_is_zero f = false ->
  b64_is_finite (b64_of_Z (sample_rate self)) = true ->
  exists s, sample_grid self f = Ok (S754_zero s, 0).
Proof.
  intros HD Hf Hz HR.
  unfold sample_grid, int_mul_float, int_div_float, int_to_float, float_truediv.
  rewrite HD.
  change (is_finite (of_Z 0)) with true; cbn [bind].
  change (is_zero f) with (b64_is_zero f); rewrite Hz.
  change (is_finite (of_Z (sample_rate self)))
    with (b64_is_finite (b64_of_Z (sample_rate self))).
  destruct f as [sf|sf| |sf mf ef]; try discriminate.
  cbn [fmul b64 of_Z fceil]. change (b64_of_Z 0) with (S754_zero false).
  cbn [SFmul b64_ceil bind]. change (b64_is_finite (S754_zero false)) with true.
  cbn [bind fdiv b64 SFdiv]. rewrite HR. cbn [bind].
  destruct (b64_of_Z (sample_rate self)) as [sr|sr| |sr mr er]; try discriminate;
    cbn [SFmul b64_trunc ftrunc b64 bind]; eexists; reflexivity.
Qed.

(** X5.  With a duration of 0 (and a finite frequency other than zero, and a
    sample rate that fits a float) the number of samples is 0: the sine
    returns the empty buffer, and the three shapes wrapped by
    [np.vectorize] raise ValueError. *)
Theorem zero_duration_buffer (sin1 : float -> float)
        (self : WaveformGenerator float) (k : WaveFormType) (f : float) :
  duration self = 0 ->
  b64_is_finite f = true -> b64_is_zero f = false ->
  b64_is_finite (b64_of_Z (sample_rate self)) = true ->
  _generate_wave self (wave_functions sin1 k) f
  = if match k with SINE => true | _ => false end
    then Ok [] else Raise ValueError.
Proof.
  intros HD Hf Hz HR.
  destruct (zero_duration_grid self f HD Hf Hz HR) as [s Hg].
  apply (Parameters.zero_samples sin1 self k f (S754_zero s) Hg).
Qed.

End BuilderMore.

(** ** More on the driver *)

Module DriverMore.

Import Binary64 Binary64Facts Text Driver DriverFacts.

Lemma written_app (self : WaveformGenerator float) (folder : string)
      (f : float) (b : list float) (fs : list float) (bs : list (list float)) :
  written self folder (f :: fs) (b :: bs)
  = written self folder fs bs
    ++ [(wav_path folder f, WavFile b (sample_rate self))].
Proof. reflexivity. Qed.

(** The loop stops at the first frequency whose buffer cannot be built; the
    files of the frequencies before it stay written. *)
Lemma write_waves_stops (self : WaveformGenerator float)
      (wf : wave_func_t float) (folder : string) (pre : list float)
      (buffers : list (list float)) (f : float) (post : list float) (e : exn) :
  Forall2 (fun f b => _generate_wave self wf f = Ok b) pre buffers ->
  _generate_wave self wf f = Raise e ->
  forall w,
    write_waves self wf folder (pre ++ f :: post) w
    = (Raise e, {| files := written self folder pre buffers ++ files w;
                   console := console w |}).
Proof.
  intros Hpre Hf; induction Hpre as [|g b pre buffers Hg _ IH]; intros w.
  - cbn [app write_waves]; unfold bindM, lift; rewrite Hf.
    destruct w; reflexivity.
  - cbn [app write_waves]; unfold bindM at 1, lift; rewrite Hg.
    unfold bindM at 1, sf_write; rewrite IH.
    cbn [files console]; rewrite written_app, <- app_assoc; reflexivity.
Qed.

(** X6.  [generate_files] stops at the first frequency whose buffer cannot
    be built and raises its exception; the files of the frequencies before
    it have been written and stay, none is written for those after it. *)
Theorem generate_files_stops (sin1 : float -> float)
        (self : WaveformGenerator float) (folder : string) (k : WaveFormType)
        (pre : list float) (buffers : list (list float)) (f : float)
        (post : list float) (e : exn) (w w0 : World) :
  mkdir folder w = (Ok tt, w0) ->
  Forall2 (fun f b => _generate_wave self (wave_functions sin1 k) f = Ok b)
          pre buffers ->
  _generate_wave self (wave_functions sin1 k) f = Raise e ->
  generate_files sin1 self (pre ++ f :: post) folder k w
  = (Raise e, {| files := written self folder pre buffers ++ files w0;
                 console := console w |}).
Proof.
  intros Hmk Hpre Hf; unfold generate_files, bindM at 1; rewrite Hmk.
  rewrite (write_waves_stops self _ folder pre buffers f post e Hpre Hf).
  f_equal; f_equal.
  unfold mkdir in Hmk.
  destruct (lookup folder (files w)) as [[| |]|]; try discriminate;
    injection Hmk as <-; reflexivity.
Qed.

(** X7.  When the name of the output folder is taken by a file,
    [generate_files] raises FileExistsError and writes nothing. *)
Theorem generate_files_folder_is_file (sin1 : float -> float)
        (self : WaveformGenerator float) (frequencies : list float)
        (folder : string) (k : WaveFormType) (w : World) :
  (exists text, lookup folder (files w) = Some (TextFile text))
  \/ (exists b r, lookup folder (files w) = Some (WavFile b r)) ->
  generate_files sin1 self frequencies folder k w = (Raise FileExistsError, w).
Proof.
  intros Hl; unfold generate_files, bindM, mkdir.
  destruct Hl as [[text ->] | (b & r & ->)]; reflexivity.
Qed.

Lemma mkdir_console (folder : string) (w w0 : World) (r : result unit) :
  mkdir folder w = (r, w0) -> console w0 = console w.
Proof.
  unfold mkdir; destruct (lookup folder (files w)) as [[| |]|];
    intros Hm; injection Hm as <- <-; reflexivity.
Qed.

(** X8.  A run of [main] that succeeds has read colundi_hertz.txt, built a
    buffer for each of its lines, written them in the order of the file
    into colundi_waveforms_<waveform>, created if it was not there, and
    printed two lines, the first with the number of frequencies. *)
Theorem main_success (sin1 : float -> float) (args : Args) (w w' : World) :
  main sin1 args w = (Ok tt, w') ->
  let folder := ("colundi_waveforms_" ++ name_lower (arg_waveform args))%string in
  let generator := {| sample_rate := arg_sample_rate args;
                      duration := arg_duration args;
                      amplitude := arg_amplitude args |} in
  exists text frequencies buffers,
    lookup "colundi_hertz.txt" (files w) = Some (TextFile text)
    /\ load_frequencies text = Ok frequencies
    /\ List.length frequencies = S (newline_count text)
    /\ Forall2 (fun f b =>
                  _generate_wave generator
                    (wave_functions sin1 (arg_waveform args)) f = Ok b)
               frequencies buffers
    /\ files w' = written generator folder frequencies buffers
                  ++ files (snd (mkdir folder w))
    /\ console w'
       = console w
         ++ [("Generating " ++ enum_str (arg_waveform args)
                ++ " waveforms for "
                ++ decimal (Z.of_nat (List.length frequencies))
                ++ " frequencies")%string;
             ("Waveforms generated, outputs are in " ++ folder)%string].
Proof.
  intros Hmain folder generator.
  unfold main, bindM at 1, read_text in Hmain.
  destruct (lookup "colundi_hertz.txt" (files w)) as [[|text|]|] eqn:Hfile;
    try discriminate.
  unfold bindM at 1, lift in Hmain.
  destruct (load_frequencies text) as [frequencies|] eqn:Hload;
    [|discriminate].
  unfold bindM at 1, print at 1 in Hmain.
  unfold bindM at 1 in Hmain.
  fold folder in Hmain; fold generator in Hmain.
  match type of Hmain with
  | context [generate_files ?s ?g ?fs ?o ?k ?w1] =>
      destruct (generate_files s g fs o k w1) as [[[]|e] w2] eqn:Hgen;
        [|discriminate]
  end.
  unfold print in Hmain; injection Hmain as <-.
  pose proof Hgen as Hgen'.
  apply files_named_by_repr in Hgen' as (buffers & Hall & Hfiles).
  exists text, frequencies, buffers.
  split; [reflexivity|]. split; [assumption|].
  split.
  { unfold load_frequencies in Hload.
    rewrite (mapM_length _ _ _ Hload).
    apply TextMore.split_newline_length. }
  split; [assumption|].
  split.
  - cbn [files]; rewrite Hfiles; unfold written, wav_path.
    f_equal.
    unfold mkdir; cbn [files console].
    destruct (lookup folder (files w)) as [[| |]|]; reflexivity.
  - cbn [console].
    unfold generate_files, bindM at 1 in Hgen.
    match type of Hgen with
    | context [mkdir ?o ?w1] =>
        destruct (mkdir o w1) as [[[]|e] w3] eqn:Hmk; [|discriminate];
          apply mkdir_console in Hmk
    end.
    apply write_waves_ok in Hgen as (_ & _ & _ & Hc).
    rewrite Hc, Hmk; cbn [console]; rewrite <- app_assoc; reflexivity.
Qed.

End DriverMore.

(** ** The amplitude *)

Section Amplitude.
Context {F : Type} `{PyFloat F}.

Lemma generic_amplitude_only_scales (self1 self2 : WaveformGenerator F)
      (wf : wave_func_t F) (f : F) :
  sample_rate self1 = sample_rate self2 ->
  duration self1 = duration self2 ->
  match _generate_wave self1 wf f with
  | Ok buf1 =>
      exists arr, buf1 = scalar_mul (amplitude self1) arr
                  /\ _generate_wave self2 wf f
                     = Ok (scalar_mul (amplitude self2) arr)
  | Raise e => _generate_wave self2 wf f = Raise e
  end.
Proof.
  intros HR HD; rewrite !generate_wave_grid.
  assert (Hg : sample_grid self2 f = sample_grid self1 f)
    by (unfold sample_grid; rewrite HR, HD; reflexivity).
  rewrite Hg.
  destruct (sample_grid self1 f) as [[d n]|e]; [|reflexivity].
  cbn [bind fst snd].
  destruct (np_linspace (of_Z 0) d n) as [t|e]; [|reflexivity].
  cbn [bind].
  destruct (wf _) as [arr|e]; [|reflexivity]; cbn [bind].
  exists arr; split; reflexivity.
Qed.
End Amplitude.

Module ExactMore.

Import Binary64 Exact ExactFacts.

Lemma exact_amplitude_scales (self : WaveformGenerator R)
      (wf : wave_func_t R) (f : R) :
  match _generate_wave {| sample_rate := sample_rate self;
                          duration := duration self;
                          amplitude := 1 |} wf f with
  | Ok unit_buf =>
      _generate_wave self wf f = Ok (map (Rmult (amplitude self)) unit_buf)
  | Raise e => _generate_wave self wf f = Raise e
  end.
Proof.
  rewrite !generate_wave_grid.
  change (sample_grid {| sample_rate := sample_rate self;
                         duration := duration self;
                         amplitude := 1 |} f)
    with (sample_grid self f).
  destruct (sample_grid self f) as [[d n]|e]; [|reflexivity].
  cbn [bind fst snd].
  destruct (np_linspace (of_Z 0) d n) as [t|e]; [|reflexivity].
  cbn [bind].
  destruct (wf _) as [[l|l]|e]; [| |reflexivity];
    cbn [bind scalar_mul amplitude].
  - f_equal; rewrite map_map; apply map_ext; intros v.
    cbn [fmul exact]; ring.
  - f_equal; rewrite map_map; apply map_ext; intros v.
    cbn [fmul exact of_Z]; ring.
Qed.

(** X12.  The amplitude only scales: two generators with the same sample
    rate and duration fail with the same exception or return the same
    shape array, each multiplied by its own amplitude (binary64); in exact
    arithmetic the buffer is the amplitude times the buffer of amplitude
    1. *)
Theorem amplitude_only_scales :
  (forall (self1 self2 : WaveformGenerator Binary64.float)
          (wf : wave_func_t Binary64.float) (f : Binary64.float),
      sample_rate self1 = sample_rate self2 ->
      duration self1 = duration self2 ->
      match _generate_wave self1 wf f with
      | Ok buf1 =>
          exists arr, buf1 = scalar_mul (amplitude self1) arr
                      /\ _generate_wave self2 wf f
                         = Ok (scalar_mul (amplitude self2) arr)
      | Raise e => _generate_wave self2 wf f = Raise e
      end)
  /\ (forall (self : WaveformGenerator R) (wf : wave_func_t R) (f : R),
         match _generate_wave {| sample_rate := sample_rate self;
                                 duration := duration self;
                                 amplitude := 1 |} wf f with
         | Ok unit_buf =>
             _generate_wave self wf f
             = Ok (map (Rmult (amplitude self)) unit_buf)
         | Raise e => _generate_wave self wf f = Raise e
         end).
Proof.
  split.
  - intros self1 self2 wf f; apply generic_amplitude_only_scales.
  - apply exact_amplitude_scales.
Qed.

End ExactMore.

(** ** Whole frequencies (binary64) *)

Module WholeFrequency.

Import Binary64 Binary64Facts.

Lemma digits2_size (p : positive) : digits2_pos p = Pos.size p.
Proof. induction p; simpl; congruence. Qed.

Lemma digits_le_53 (p : positive) :
  Z.pos p < 2 ^ 53 -> Z.pos (digits2_pos p) <= 53.
Proof.
  intros Hp; rewrite digits2_size.
  pose proof (Pos.size_le p) as Hs.
  apply Pos2Z.pos_le_pos in Hs.
  rewrite Pos2Z.inj_pow in Hs.
  change (Z.pos p~0) with (2 * Z.pos p) in Hs.
  destruct (Z_le_gt_dec (Z.pos (Pos.size p)) 53) as [Hle|Hgt]; [assumption|].
  assert (H54 : 2 ^ 54 <= 2 ^ Z.pos (Pos.size p))
    by (apply Z.pow_le_mono_r; lia).
  change (2 ^ 54) with (2 * 2 ^ 53) in H54; lia.
Qed.

Lemma iter_xO_value (p : positive) (n : positive) :
  Z.pos (Pos.iter xO p n) = Z.pos p * 2 ^ Z.pos n.
Proof.
  induction n as [|n IH] using Pos.peano_ind.
  - simpl; lia.
  - rewrite Pos.iter_succ, Pos2Z.inj_succ, Z.pow_succ_r by lia.
    change (Z.pos (Pos.iter xO p n)~0) with (2 * Z.pos (Pos.iter xO p n)).
    rewrite IH; ring.
Qed.

Lemma iter_xO_digits (p : positive) (n : positive) :
  Z.pos (digits2_pos (Pos.iter xO p n)) = Z.pos (digits2_pos p) + Z.pos n.
Proof.
  induction n as [|n IH] using Pos.peano_ind.
  - simpl; lia.
  - rewrite Pos.iter_succ; cbn [digits2_pos].
    rewrite Pos2Z.inj_succ, IH; lia.
Qed.

Lemma round_canonical (s : bool) (m : positive) (e : Z) :
  SpecFloat.bounded prec emax m e = true ->
  binary_round_aux prec emax s (Z.pos m) e loc_Exact = S754_finite s m e.
Proof.
  unfold SpecFloat.bounded, canonical_mantissa; intros Hb.
  apply andb_prop in Hb as [Hc He]; apply Z.eqb_eq in Hc.
  unfold binary_round_aux, shr_fexp.
  cbn [Zdigits2]; rewrite Hc, Z.sub_diag.
  cbn [shr shr_record_of_loc loc_of_shr_record shr_m round_nearest_even
       Zdigits2].
  rewrite Hc, Z.sub_diag; cbn [shr shr_m]; rewrite He; reflexivity.
Qed.

(** The float of an integer below 2^53 is this integer. *)
Lemma of_Z_exact (z : Z) :
  0 < z < 2 ^ 53 ->
  exists m e,
    b64_of_Z z = S754_finite false m e
    /\ SpecFloat.bounded prec emax m e = true
    /\ e <= 0
    /\ Z.pos m = z * 2 ^ (- e).
Proof.
  intros [Hpos Hlt]; destruct z as [|p|p]; try lia.
  pose proof (digits_le_53 p Hlt) as Hd.
  assert (Hd1 : 1 <= Z.pos (digits2_pos p)) by lia.
  unfold b64_of_Z, binary_normalize, binary_round, shl_align.
  assert (Hfexp : fexp prec emax (Z.pos (digits2_pos p) + 0)
                  = Z.pos (digits2_pos p) - 53).
  { unfold fexp, SpecFloat.emin, prec, emax; lia. }
  rewrite Hfexp.
  destruct (Z.pos (digits2_pos p) - 53 - 0) as [|n|n] eqn:Hn; try lia.
  - exists p, 0.
    assert (Hb : SpecFloat.bounded prec emax p 0 = true).
    { unfold SpecFloat.bounded, canonical_mantissa.
      rewrite Hfexp; apply andb_true_intro; split;
        [apply Z.eqb_eq; lia | reflexivity]. }
    rewrite (round_canonical false p 0 Hb).
    repeat split; [assumption | lia | simpl; lia].
  - exists (Pos.iter xO p n), (Z.pos (digits2_pos p) - 53).
    assert (Hb : SpecFloat.bounded prec emax (Pos.iter xO p n)
                                   (Z.pos (digits2_pos p) - 53) = true).
    { unfold SpecFloat.bounded, canonical_mantissa.
      rewrite iter_xO_digits.
      apply andb_true_intro; split.
      - apply Z.eqb_eq; unfold fexp, SpecFloat.emin, prec, emax; lia.
      - apply Z.leb_le; unfold prec, emax; lia. }
    rewrite (round_canonical false _ _ Hb).
    repeat split; [assumption | lia |].
    rewrite iter_xO_value; f_equal; f_equal; lia.
Qed.

Lemma ceil_trunc_exact (z : Z) (m : positive) (e : Z) :
  e <= 0 -> Z.pos m = z * 2 ^ (- e) ->
  b64_ceil (S754_finite false m e) = Ok z
  /\ b64_trunc (S754_finite false m e) = Ok z.
Proof.
  intros He Hm; unfold b64_ceil, b64_trunc, signed.
  assert (Hpow : 0 < 2 ^ (- e)) by (apply Z.pow_pos_nonneg; lia).
  destruct (0 <=? e) eqn:Hle.
  - apply Z.leb_le in Hle; assert (e = 0) by lia; subst e.
    change (2 ^ (- 0)) with 1 in Hm; change (2 ^ 0) with 1.
    rewrite Hm, !Z.mul_1_r; split; reflexivity.
  - rewrite Hm; split; f_equal.
    + rewrite <- Z.mul_opp_l, Z.div_mul by lia; lia.
    + rewrite Z.quot_mul by lia; reflexivity.
Qed.

Lemma shr_iter_exact (j : positive) :
  forall q : positive,
    SpecFloat.iter_pos shr_1 j
      {| shr_m := Z.pos (Pos.iter xO q j); shr_r := false; shr_s := false |}
    = {| shr_m := Z.pos q; shr_r := false; shr_s := false |}.
Proof.
  induction j as [j IH | j IH |]; intros q; cbn [SpecFloat.iter_pos Pos.iter].
  - cbn [shr_1 orb]; rewrite IH, IH; reflexivity.
  - rewrite IH, IH; reflexivity.
  - reflexivity.
Qed.

Lemma round_shifted (s : bool) (m : positive) (e j : Z) :
  SpecFloat.bounded prec emax m e = true -> 0 <= j ->
  binary_round_aux prec emax s (Z.pos m * 2 ^ j) (e - j) loc_Exact
  = S754_finite s m e.
Proof.
  intros Hb Hj; destruct j as [|j|j]; [| |lia].
  - rewrite Z.mul_1_r, Z.sub_0_r; apply round_canonical; assumption.
  - pose proof Hb as Hb'.
    unfold SpecFloat.bounded, canonical_mantissa in Hb'.
    apply andb_prop in Hb' as [Hc He]; apply Z.eqb_eq in Hc.
    rewrite <- iter_xO_value.
    unfold binary_round_aux, shr_fexp.
    cbn [Zdigits2]; rewrite iter_xO_digits.
    replace (Z.pos (digits2_pos m) + Z.pos j + (e - Z.pos j))
      with (Z.pos (digits2_pos m) + e) by lia.
    rewrite Hc.
    replace (e - (e - Z.pos j)) with (Z.pos j) by lia.
    cbn [shr shr_record_of_loc]; rewrite shr_iter_exact.
    cbn [loc_of_shr_record shr_m round_nearest_even Zdigits2].
    replace (e - Z.pos j + Z.pos j) with e by lia.
    rewrite Hc, Z.sub_diag; cbn [shr shr_m]; rewrite He; reflexivity.
Qed.

Lemma canonical_range (m : positive) (e : Z) :
  SpecFloat.bounded prec emax m e = true -> -1074 < e ->
  2 ^ 52 <= Z.pos m < 2 ^ 53.
Proof.
  unfold SpecFloat.bounded, canonical_mantissa; intros Hb He.
  apply andb_prop in Hb as [Hc _]; apply Z.eqb_eq in Hc.
  assert (Hd : Z.pos (digits2_pos m) = 53)
    by (unfold fexp, SpecFloat.emin, prec, emax in Hc; lia).
  rewrite digits2_size in Hd.
  pose proof (Pos.size_le m) as Hle; pose proof (Pos.size_gt m) as Hgt.
  apply Pos2Z.pos_le_pos in Hle; apply Pos2Z.pos_lt_pos in Hgt.
  rewrite Pos2Z.inj_pow, Hd in Hle, Hgt.
  change (Z.pos m~0) with (2 * Z.pos m) in Hle.
  change (2 ^ 53) with (2 * 2 ^ 52) in Hle; lia.
Qed.

Lemma of_Z_exact_range (z : Z) :
  0 < z < 2 ^ 53 ->
  exists m e,
    b64_of_Z z = S754_finite false m e
    /\ SpecFloat.bounded prec emax m e = true
    /\ -53 < e <= 0
    /\ Z.pos m = z * 2 ^ (- e)
    /\ 2 ^ 52 <= Z.pos m < 2 ^ 53.
Proof.
  intros Hz; destruct (of_Z_exact z Hz) as (m & e & Hf & Hb & He & Hm).
  exists m, e.
  assert (Hlow : -53 < e).
  { destruct (Z_lt_le_dec (-53) e) as [Hlt|Hge]; [assumption|].
    exfalso.
    assert (Hpow : 2 ^ 53 <= 2 ^ (- e)) by (apply Z.pow_le_mono_r; lia).
    unfold SpecFloat.bounded, canonical_mantissa in Hb.
    apply andb_prop in Hb as [Hc _]; apply Z.eqb_eq in Hc.
    assert (Hd : Z.pos (digits2_pos m) <= 53)
      by (unfold fexp, SpecFloat.emin, prec, emax in Hc; lia).
    rewrite digits2_size in Hd.
    pose proof (Pos.size_gt m) as Hgt; apply Pos2Z.pos_lt_pos in Hgt.
    rewrite Pos2Z.inj_pow in Hgt.
    assert (2 ^ Z.pos (Pos.size m) <= 2 ^ 53)
      by (apply Z.pow_le_mono_r; lia).
    nia. }
  repeat split; try assumption; try lia;
    apply (canonical_range m e Hb); lia.
Qed.

(** The product of two integers is exact when it is below 2^53. *)
Lemma mul_exact (a b : Z) :
  0 < a -> 0 < b -> a * b < 2 ^ 53 ->
  SFmul prec emax (b64_of_Z a) (b64_of_Z b) = b64_of_Z (a * b).
Proof.
  intros Ha Hb Hab.
  assert (Ha53 : 0 < a < 2 ^ 53) by nia.
  assert (Hb53 : 0 < b < 2 ^ 53) by nia.
  assert (Hz : 0 < a * b < 2 ^ 53) by nia.
  destruct (of_Z_exact_range a Ha53) as (ma & ea & -> & _ & Hea & Hma & Hra).
  destruct (of_Z_exact_range b Hb53) as (mb & eb & -> & _ & Heb & Hmb & Hrb).
  destruct (of_Z_exact_range (a * b) Hz)
    as (mz & ez & -> & Hbz & Hez & Hmz & Hrz).
  cbn [SFmul xorb].
  assert (Hpa : 0 < 2 ^ (- ea)) by (apply Z.pow_pos_nonneg; lia).
  assert (Hpb : 0 < 2 ^ (- eb)) by (apply Z.pow_pos_nonneg; lia).
  assert (Hpz : 0 < 2 ^ (- ez)) by (apply Z.pow_pos_nonneg; lia).
  assert (Hprod : Z.pos (ma * mb) = a * b * 2 ^ (- ea - eb)).
  { rewrite Pos2Z.inj_mul, Hma, Hmb.
    replace (- ea - eb) with (- ea + - eb) by lia.
    rewrite Z.pow_add_r by lia; ring. }
  assert (Hj : 0 <= ez - ea - eb).
  { destruct (Z_le_gt_dec 0 (ez - ea - eb)) as [Hle|Hgt]; [assumption|].
    exfalso.
    assert (Hlt : - ea - eb + 1 <= - ez) by lia.
    assert (Hpow : 2 ^ (- ea - eb + 1) <= 2 ^ (- ez))
      by (apply Z.pow_le_mono_r; lia).
    rewrite Z.pow_add_r in Hpow by lia.
    assert (Hbig : 2 ^ 52 * 2 ^ 52 <= Z.pos (ma * mb))
      by (rewrite Pos2Z.inj_mul; nia).
    change (2 ^ 1) with 2 in Hpow.
    assert (Z.pos (ma * mb) * 2 <= Z.pos mz) by (rewrite Hprod, Hmz; nia).
    change (2 ^ 52) with 4503599627370496 in *.
    change (2 ^ 53) with 9007199254740992 in *. lia. }
  replace (Z.pos (ma * mb)) with (Z.pos mz * 2 ^ (ez - ea - eb)).
  - replace (ea + eb) with (ez - (ez - ea - eb)) by lia.
    apply round_shifted; assumption.
  - rewrite Hprod, Hmz.
    replace (- ea - eb) with (- ez + (ez - ea - eb)) by lia.
    rewrite Z.pow_add_r by lia; ring.
Qed.

(** The quotient of an integer product by one of its factors is exact. *)
Lemma div_exact (a b : Z) :
  0 < a -> 0 < b -> a * b < 2 ^ 53 ->
  SFdiv prec emax (b64_of_Z (a * b)) (b64_of_Z b) = b64_of_Z a.
Proof.
  intros Ha Hb Hab.
  assert (Ha53 : 0 < a < 2 ^ 53) by nia.
  assert (Hb53 : 0 < b < 2 ^ 53) by nia.
  assert (Hz : 0 < a * b < 2 ^ 53) by nia.
  destruct (of_Z_exact_range a Ha53) as (ma & ea & -> & Hba & Hea & Hma & Hra).
  destruct (of_Z_exact_range b Hb53) as (mb & eb & -> & Hbb & Heb & Hmb & Hrb).
  destruct (of_Z_exact_range (a * b) Hz)
    as (mz & ez & -> & Hbz & Hez & Hmz & Hrz).
  assert (Hda : Z.pos (digits2_pos mb) = 53 /\ Z.pos (digits2_pos mz) = 53).
  { unfold SpecFloat.bounded, canonical_mantissa in Hbb, Hbz.
    apply andb_prop in Hbb as [Hcb _]; apply Z.eqb_eq in Hcb.
    apply andb_prop in Hbz as [Hcz _]; apply Z.eqb_eq in Hcz.
    unfold fexp, SpecFloat.emin, prec, emax in Hcb, Hcz; lia. }
  destruct Hda as [Hdb Hdz].
  cbn [SFdiv xorb]; unfold SFdiv_core_binary; cbn [Zdigits2].
  rewrite Hdb, Hdz.
  replace (53 + ez - (53 + eb)) with (ez - eb) by lia.
  assert (Hfexp : Z.min (fexp prec emax (ez - eb)) (ez - eb) = ez - eb - 53)
    by (unfold fexp, SpecFloat.emin, prec, emax; lia).
  rewrite Hfexp.
  replace (ez - eb - (ez - eb - 53)) with 53 by lia.
  cbv iota.
  rewrite Z.shiftl_mul_pow2 by lia.
  assert (Hpa : 0 < 2 ^ (- ea)) by (apply Z.pow_pos_nonneg; lia).
  assert (Hpb : 0 < 2 ^ (- eb)) by (apply Z.pow_pos_nonneg; lia).
  assert (Hpz : 0 < 2 ^ (- ez)) by (apply Z.pow_pos_nonneg; lia).
  set (n := 53 - ez + eb).
  assert (Hn : 0 <= n) by (unfold n; lia).
  assert (Hnum : Z.pos mz * 2 ^ 53 = a * 2 ^ n * Z.pos mb).
  { rewrite Hmz, Hmb.
    replace (2 ^ n) with (2 ^ (- ez + 53 - - eb)) by (f_equal; unfold n; lia).
    assert (Hsplit : 2 ^ (- ez) * 2 ^ 53
                     = 2 ^ (- ez + 53 - - eb) * 2 ^ (- eb)).
    { rewrite <- !Z.pow_add_r by lia; f_equal; lia. }
    nia. }
  assert (Hdiv : Z.div_eucl (Z.pos mz * 2 ^ 53) (Z.pos mb) = (a * 2 ^ n, 0)).
  { rewrite Hnum.
    pose proof (Z.div_mul (a * 2 ^ n) (Z.pos mb) ltac:(lia)) as Hq.
    pose proof (Z.mod_mul (a * 2 ^ n) (Z.pos mb) ltac:(lia)) as Hr.
    unfold Z.div, Z.modulo in Hq, Hr.
    destruct (Z.div_eucl (a * 2 ^ n * Z.pos mb) (Z.pos mb)) as [q r].
    congruence. }
  rewrite Hdiv.
  assert (Hloc : new_location (Z.pos mb) 0 = loc_Exact).
  { unfold new_location, new_location_even, new_location_odd.
    destruct (Z.even (Z.pos mb)); reflexivity. }
  rewrite Hloc.
  assert (Hj : 0 <= n + ea).
  { destruct (Z_le_gt_dec 0 (n + ea)) as [Hle|Hgt]; [assumption|].
    exfalso.
    assert (Hpow : 2 ^ (n + 1) <= 2 ^ (- ea))
      by (apply Z.pow_le_mono_r; lia).
    rewrite Z.pow_add_r in Hpow by lia; change (2 ^ 1) with 2 in Hpow.
    assert (Hpn : 0 < 2 ^ n) by (apply Z.pow_pos_nonneg; lia).
    assert (Hq : a * 2 ^ n * 2 <= Z.pos ma) by (rewrite Hma; nia).
    assert (Hx : 0 <= a * 2 ^ n < 2 ^ 52)
      by (change (2 ^ 53) with (2 ^ 52 * 2) in Hra; nia).
    assert (Hlt : a * 2 ^ n * Z.pos mb < 2 ^ 52 * 2 ^ 53)
      by (apply Z.mul_lt_mono_nonneg; lia).
    assert (Hge : 2 ^ 52 * 2 ^ 53 <= Z.pos mz * 2 ^ 53)
      by (apply Z.mul_le_mono_nonneg_r; lia).
    lia. }
  replace (a * 2 ^ n) with (Z.pos ma * 2 ^ (n + ea)).
  - replace (ez - eb - 53) with (ea - (n + ea)) by (unfold n; lia).
    apply round_shifted; assumption.
  - rewrite Hma.
    replace n with (- ea + (n + ea)) at 2 by lia.
    rewrite (Z.pow_add_r 2 (- ea) (n + ea)) by lia; ring.
Qed.

(** X13.  For a frequency that is a whole number k and sample rate R and
    duration D with D k < 2^53 and R D < 2^53, the binary64 run is exact:
    D times k, its ceiling and the quotient by k are computed without
    rounding, so that the adjusted duration is D itself, no period is
    added, and the buffer has exactly R D samples, for every waveform. *)
Theorem whole_periods_exact (sin1 : float -> float) (A : float)
        (kind : WaveFormType) (R D k : Z) :
  0 < R -> 0 < D -> 0 < k -> D * k < 2 ^ 53 -> R * D < 2 ^ 53 ->
  let self := {| sample_rate := R; duration := D; amplitude := A |} in
  sample_grid self (b64_of_Z k) = Ok (b64_of_Z D, R * D)
  /\ exists buf,
      _generate_wave self (wave_functions sin1 kind) (b64_of_Z k) = Ok buf
      /\ Z.of_nat (List.length buf) = R * D.
Proof.
  intros HR HD Hk HDk HRD self.
  assert (HD53 : 0 < D < 2 ^ 53) by nia.
  assert (HR53 : 0 < R < 2 ^ 53) by nia.
  assert (Hk53 : 0 < k < 2 ^ 53) by nia.
  assert (HDk53 : 0 < D * k < 2 ^ 53) by nia.
  assert (HRD53 : 0 < R * D < 2 ^ 53) by nia.
  assert (Hfin : forall z, 0 < z < 2 ^ 53 ->
            b64_is_finite (b64_of_Z z) = true
            /\ b64_is_zero (b64_of_Z z) = false
            /\ b64_ceil (b64_of_Z z) = Ok z
            /\ b64_trunc (b64_of_Z z) = Ok z
            /\ positive_float (b64_of_Z z) = true).
  { intros z Hz.
    destruct (of_Z_exact z Hz) as (m & e & -> & _ & He & Hm).
    destruct (ceil_trunc_exact z m e He Hm) as [Hc Ht].
    repeat split; assumption || reflexivity. }
  destruct (Hfin D HD53) as (HfD & _).
  destruct (Hfin R HR53) as (HfR & _).
  destruct (Hfin k Hk53) as (_ & Hzk & _ & _ & Hpos).
  destruct (Hfin (D * k) HDk53) as (HfDk & _ & HcDk & _).
  destruct (Hfin (R * D) HRD53) as (_ & _ & _ & HtRD & _).
  assert (Hgrid : sample_grid self (b64_of_Z k) = Ok (b64_of_Z D, R * D)).
  { unfold sample_grid, int_mul_float, int_div_float, int_to_float,
      float_truediv.
    cbn [duration sample_rate self is_finite is_zero fmul fdiv fceil ftrunc
         of_Z b64].
    rewrite HfD; cbn [bind].
    rewrite (mul_exact D k HD Hk HDk), HcDk; cbn [bind].
    rewrite HfDk; cbn [bind]; rewrite Hzk.
    rewrite (div_exact D k HD Hk HDk); cbn [bind].
    rewrite HfR; cbn [bind].
    rewrite (mul_exact R D HR HD HRD), HtRD; reflexivity. }
  split; [assumption|].
  assert (HN : 0 < R * D) by lia.
  destruct (proj2 (SampleCount.b64_sample_count
                     sin1 self kind (b64_of_Z k) HR HD Hpos)
                  (b64_of_Z D) (R * D) Hgrid (or_intror HN))
    as (buf & Hbuf & Hlen & _).
  exists buf; split; assumption.
Qed.

End WholeFrequency.

(** ** Rounding (binary64)

    [binary_round_aux] truncates the mantissa to 53 bits and moves up by
    at most one unit: the result lies between any two floats that enclose
    the exact value, and within a relative error of 2^-52 of it in the
    normal range.  The operations of the program inherit both facts. *)

Module Rounding.

Import Binary64 Binary64Facts WholeFrequency Value.

Lemma fexp_eq (e : Z) : fexp prec emax e = Z.max (e - 53) (-1074).
Proof. reflexivity. Qed.

Lemma digits_log2 (p : positive) :
  Zdigits2 (Z.pos p) = Z.log2 (Z.pos p) + 1.
Proof.
  cbn [Zdigits2]; rewrite digits2_size.
  pose proof (Pos.size_le p) as Hle; pose proof (Pos.size_gt p) as Hgt.
  apply Pos2Z.pos_le_pos in Hle; apply Pos2Z.pos_lt_pos in Hgt.
  rewrite Pos2Z.inj_pow in Hle, Hgt.
  change (Z.pos p~0) with (2 * Z.pos p) in Hle.
  assert (Hs : 1 <= Z.pos (Pos.size p)) by lia.
  symmetry; rewrite (Z.log2_unique (Z.pos p) (Z.pos (Pos.size p) - 1)); [lia|lia|].
  replace (Z.succ (Z.pos (Pos.size p) - 1)) with (Z.pos (Pos.size p)) by lia.
  split; [|assumption].
  replace (Z.pos (Pos.size p)) with (Z.succ (Z.pos (Pos.size p) - 1)) in Hle by lia.
  rewrite Z.pow_succ_r in Hle by lia; lia.
Qed.

Lemma digits_bounds (m : Z) :
  0 < m -> 2 ^ (Zdigits2 m - 1) <= m < 2 ^ Zdigits2 m.
Proof.
  intros Hm; destruct m as [|p|p]; try lia.
  rewrite digits_log2.
  pose proof (Z.log2_spec (Z.pos p) ltac:(lia)) as Hs.
  replace (Z.log2 (Z.pos p) + 1 - 1) with (Z.log2 (Z.pos p)) by lia.
  exact Hs.
Qed.

Lemma digits_unique (m d : Z) :
  0 < d -> 2 ^ (d - 1) <= m < 2 ^ d -> Zdigits2 m = d.
Proof.
  intros Hd Hm.
  assert (0 < 2 ^ (d - 1)) by (apply Z.pow_pos_nonneg; lia).
  destruct m as [|p|p]; try lia.
  rewrite digits_log2, (Z.log2_unique (Z.pos p) (d - 1)); [lia | lia |].
  replace (Z.succ (d - 1)) with d by lia; assumption.
Qed.

Lemma digits_nonneg (m : Z) : 0 <= Zdigits2 m.
Proof. destruct m; simpl; lia. Qed.

Lemma digits_le (m d : Z) : 0 <= d -> 0 <= m < 2 ^ d -> Zdigits2 m <= d.
Proof.
  intros Hd Hm; destruct (Z.eq_dec m 0) as [->|Hn]; [simpl; lia|].
  pose proof (digits_bounds m ltac:(lia)) as Hb.
  destruct (Z_le_gt_dec (Zdigits2 m) d) as [Hle|Hgt]; [assumption|exfalso].
  assert (2 ^ d <= 2 ^ (Zdigits2 m - 1)) by (apply Z.pow_le_mono_r; lia).
  lia.
Qed.

Lemma shr_1_m (mrs : shr_record) :
  0 <= shr_m mrs -> shr_m (shr_1 mrs) = Z.div2 (shr_m mrs).
Proof.
  destruct mrs as [m r s]; cbn [shr_m]; intros Hm.
  destruct m as [|p|p]; [reflexivity| |lia].
  destruct p; reflexivity.
Qed.

Lemma shr_iter_m (k : positive) :
  forall mrs : shr_record,
    0 <= shr_m mrs ->
    shr_m (SpecFloat.iter_pos shr_1 k mrs) = Z.shiftr (shr_m mrs) (Z.pos k).
Proof.
  assert (Hnn : forall a n, 0 <= a -> 0 <= n -> 0 <= Z.shiftr a n)
    by (intros a n Ha Hn; apply Z.shiftr_nonneg; assumption).
  induction k as [k IH | k IH |]; intros mrs Hm; cbn [SpecFloat.iter_pos].
  - assert (H1 : 0 <= shr_m (shr_1 mrs))
      by (rewrite shr_1_m, Z.div2_spec by assumption; apply Hnn; lia).
    rewrite IH; [rewrite IH by assumption|rewrite IH by assumption; apply Hnn; lia].
    rewrite shr_1_m, Z.div2_spec by assumption.
    rewrite !Z.shiftr_shiftr by lia; f_equal; lia.
  - rewrite IH; [rewrite IH by assumption|rewrite IH by assumption; apply Hnn; lia].
    rewrite !Z.shiftr_shiftr by lia; f_equal; lia.
  - rewrite shr_1_m, Z.div2_spec by assumption; reflexivity.
Qed.

Lemma rne_range (m : Z) (l : location) :
  round_nearest_even m l = m \/ round_nearest_even m l = m + 1.
Proof.
  destruct l as [|[| |]]; cbn [round_nearest_even]; auto.
  destruct (Z.even m); auto.
Qed.

Lemma round_finish (s : bool) (m1 e' : Z) :
  0 <= m1 <= 2 ^ 53 -> -1074 <= e' ->
  (let '(mrs'', e'') := shr_fexp prec emax m1 e' loc_Exact in
   match shr_m mrs'' with
   | Z0 => S754_zero s
   | Zpos m => if e'' <=? emax - prec then S754_finite s m e''
               else S754_infinity s
   | Zneg _ => S754_nan
   end) = finish s m1 e'.
Proof.
  intros Hm He; unfold finish.
  destruct (m1 =? 0) eqn:H0.
  { apply Z.eqb_eq in H0; subst m1.
    unfold shr_fexp; cbn [Zdigits2]; rewrite fexp_eq.
    destruct (Z.max (0 + e' - 53) (-1074) - e') eqn:Hk; try lia;
      cbn [shr shr_record_of_loc shr_m]; reflexivity. }
  apply Z.eqb_neq in H0.
  destruct (m1 =? 2 ^ 53) eqn:H53.
  { apply Z.eqb_eq in H53; subst m1.
    unfold shr_fexp.
    change (Zdigits2 (2 ^ 53)) with 54; rewrite fexp_eq.
    replace (Z.max (54 + e' - 53) (-1074) - e') with 1 by lia.
    cbn [shr shr_record_of_loc SpecFloat.iter_pos].
    change (2 ^ 53) with (Z.pos (xO (Z.to_pos (2 ^ 52)))).
    cbn [shr_1 shr_m orb].
    change (emax - prec) with 971; reflexivity. }
  apply Z.eqb_neq in H53.
  assert (Hd : Zdigits2 m1 <= 53) by (apply digits_le; lia).
  unfold shr_fexp; rewrite fexp_eq.
  destruct (Z.max (Zdigits2 m1 + e' - 53) (-1074) - e') as [|k|k] eqn:Hk;
    try lia;
    cbn [shr shr_record_of_loc shr_m];
    (destruct m1 as [|p|p]; [lia| |lia]);
    change (emax - prec) with 971; rewrite Pos2Z.id; reflexivity.
Qed.

(** The rounding in terms of the truncated mantissa. *)
Lemma round_aux_spec (s : bool) (m e : Z) (l : location) :
  0 < m ->
  let e' := fexp prec emax (Zdigits2 m + e) in
  e <= e' ->
  let m' := m / 2 ^ (e' - e) in
  exists m1,
    (m1 = m' \/ m1 = m' + 1)
    /\ (l = loc_Exact -> m mod 2 ^ (e' - e) = 0 -> m1 = m')
    /\ binary_round_aux prec emax s m e l = finish s m1 e'
    /\ 0 <= m' < 2 ^ 53
    /\ (-1074 < e' -> 2 ^ 52 <= m')
    /\ -1074 <= e'.
Proof.
  intros Hm e' Hk m'.
  pose proof (digits_bounds m Hm) as Hdig.
  assert (He' : -1074 <= e') by (unfold e'; rewrite fexp_eq; lia).
  assert (Hpk : 0 < 2 ^ (e' - e)) by (apply Z.pow_pos_nonneg; lia).
  assert (Hm'0 : 0 <= m') by (apply Z.div_pos; lia).
  assert (Hm'53 : m' < 2 ^ 53).
  { unfold m'; apply Z.div_lt_upper_bound; [lia|].
    rewrite <- Z.pow_add_r by lia.
    assert (2 ^ Zdigits2 m <= 2 ^ (e' - e + 53)); [|lia].
    apply Z.pow_le_mono_r; [lia|]; unfold e'; rewrite fexp_eq; lia. }
  assert (Hm'52 : -1074 < e' -> 2 ^ 52 <= m').
  { intros Hn; unfold m'.
    assert (He'eq : e' = Zdigits2 m + e - 53)
      by (unfold e' in *; rewrite fexp_eq in *; lia).
    apply Z.div_le_lower_bound; [lia|].
    rewrite <- Z.pow_add_r by lia.
    replace (e' - e + 52) with (Zdigits2 m - 1) by lia; lia. }
  set (mrs' := fst (shr_fexp prec emax m e l)).
  assert (Hshr : shr_fexp prec emax m e l = (mrs', e') /\ shr_m mrs' = m').
  { unfold mrs', shr_fexp; fold e'.
    destruct (e' - e) as [|k|k] eqn:Hke; [| |lia]; cbn [shr fst].
    - split; [f_equal; lia|].
      unfold m'; change (2 ^ 0) with 1; rewrite Z.div_1_r.
      destruct l as [|[| |]]; reflexivity.
    - split; [f_equal; lia|].
      rewrite shr_iter_m by (destruct l as [|[| |]]; cbn; lia).
      rewrite Z.shiftr_div_pow2 by lia.
      unfold m'.
      destruct l as [|[| |]]; reflexivity. }
  destruct Hshr as [Hshr Hmm].
  exists (round_nearest_even (shr_m mrs') (loc_of_shr_record mrs')).
  split; [rewrite Hmm; apply rne_range|].
  split.
  { intros -> Hmod.
    assert (Hloc : loc_of_shr_record mrs' = loc_Exact).
    { unfold mrs', shr_fexp; fold e'.
      destruct (e' - e) as [|k|k] eqn:Hke; [reflexivity| |reflexivity].
      cbn [shr fst shr_record_of_loc].
      assert (Hq : 0 < m / 2 ^ Z.pos k).
      { apply Z.div_str_pos; split; [lia|].
        apply Z.mod_divide in Hmod; [|lia].
        apply Z.divide_pos_le in Hmod; lia. }
      destruct (m / 2 ^ Z.pos k) as [|q|q] eqn:Hdiv; try lia.
      assert (Hmq : m = Z.pos (Pos.iter xO q k)).
      { rewrite iter_xO_value, <- Hdiv.
        rewrite (Z.div_mod m (2 ^ Z.pos k)) at 1 by lia.
        rewrite Hmod; ring. }
      rewrite Hmq, shr_iter_exact; reflexivity. }
    rewrite Hloc, Hmm; reflexivity. }
  split; [|repeat split; assumption].
  unfold binary_round_aux; rewrite Hshr.
  apply round_finish; [|assumption].
  destruct (rne_range (shr_m mrs') (loc_of_shr_record mrs')) as [-> | ->];
    rewrite Hmm; lia.
Qed.

Lemma bpow_pos (e : Z) : (0 < bpow e)%R.
Proof. apply powerRZ_lt; lra. Qed.

Lemma bpow_add (a b : Z) : bpow (a + b) = (bpow a * bpow b)%R.
Proof. apply powerRZ_add; lra. Qed.

Lemma bpow_IZR (n : Z) : 0 <= n -> IZR (2 ^ n) = bpow n.
Proof.
  intros Hn; destruct n as [|p|p]; [reflexivity| |lia].
  unfold bpow; rewrite <- Zpower_pos_powerRZ; reflexivity.
Qed.

Lemma bpow_le (a b : Z) : a <= b -> (bpow a <= bpow b)%R.
Proof.
  intros Hab; assert (Hd : 0 <= b - a) by lia.
  replace b with (a + (b - a)) by lia.
  generalize dependent (b - a); intros d Hd.
  rewrite bpow_add, <- (bpow_IZR d) by lia.
  assert (1 <= IZR (2 ^ d))%R.
  { apply IZR_le; assert (0 < 2 ^ d) by (apply Z.pow_pos_nonneg; lia); lia. }
  pose proof (bpow_pos a); nra.
Qed.

Lemma bpow_lt (a b : Z) : a < b -> (bpow a < bpow b)%R.
Proof.
  intros Hab; assert (Hd : 0 < b - a) by lia.
  replace b with (a + (b - a)) by lia.
  generalize dependent (b - a); intros d Hd.
  rewrite bpow_add, <- (bpow_IZR d) by lia.
  assert (2 <= IZR (2 ^ d))%R.
  { apply IZR_le. replace d with (Z.succ (d - 1)) by lia.
    rewrite Z.pow_succ_r by lia.
    assert (0 < 2 ^ (d - 1)) by (apply Z.pow_pos_nonneg; lia); lia. }
  pose proof (bpow_pos a); nra.
Qed.

Lemma bpow_lt_inv (a b : Z) : (bpow a < bpow b)%R -> a < b.
Proof.
  intros H; destruct (Z_lt_le_dec a b) as [Hlt|Hge]; [assumption|].
  apply bpow_le in Hge; lra.
Qed.

Lemma bpow_le_inv (a b : Z) : (bpow a <= bpow b)%R -> a <= b.
Proof.
  intros H; destruct (Z_le_gt_dec a b) as [Hle|Hgt]; [assumption|].
  assert (b < a) by lia. apply bpow_lt in H0; lra.
Qed.

(** An integer times a power of two, moved to a smaller exponent. *)
Lemma scale_down (m a b : Z) :
  b <= a -> (IZR m * bpow a = IZR (m * 2 ^ (a - b)) * bpow b)%R.
Proof.
  intros Hab; rewrite mult_IZR, bpow_IZR by lia.
  replace a with ((a - b) + b) at 1 by lia; rewrite bpow_add; ring.
Qed.

Lemma IZR_bpow_le (a b e : Z) : (IZR a * bpow e <= IZR b * bpow e)%R -> a <= b.
Proof.
  intros H; apply le_IZR; pose proof (bpow_pos e); nra.
Qed.

Lemma IZR_bpow_lt (a b e : Z) : (IZR a * bpow e < IZR b * bpow e)%R -> a < b.
Proof.
  intros H; apply lt_IZR; pose proof (bpow_pos e); nra.
Qed.

Lemma digits_bpow (m e : Z) :
  0 < m ->
  (bpow (Zdigits2 m + e - 1) <= IZR m * bpow e < bpow (Zdigits2 m + e))%R.
Proof.
  intros Hm; pose proof (digits_bounds m Hm) as [Hlo Hhi].
  assert (Hd : 1 <= Zdigits2 m).
  { destruct m; simpl; lia. }
  replace (Zdigits2 m + e - 1) with ((Zdigits2 m - 1) + e) by lia.
  rewrite !bpow_add, <- (bpow_IZR (Zdigits2 m - 1)), <- (bpow_IZR (Zdigits2 m))
    by lia.
  apply IZR_le in Hlo; apply IZR_lt in Hhi.
  pose proof (bpow_pos e); split; nra.
Qed.

(** The truncation of the mantissa brackets the value. *)
Lemma trunc_bracket (m e e' : Z) (x : R) :
  0 < m -> e <= e' ->
  (IZR m * bpow e <= x < IZR (m + 1) * bpow e)%R ->
  (IZR (m / 2 ^ (e' - e)) * bpow e' <= x
   < IZR (m / 2 ^ (e' - e) + 1) * bpow e')%R.
Proof.
  intros Hm He [Hlo Hhi].
  set (k := e' - e).
  assert (Hpk : 0 < 2 ^ k) by (apply Z.pow_pos_nonneg; unfold k; lia).
  pose proof (Z.div_mod m (2 ^ k) ltac:(lia)) as Hdm.
  pose proof (Z.mod_pos_bound m (2 ^ k) Hpk) as Hmod.
  rewrite (scale_down (m / 2 ^ k) e' e He), (scale_down (m / 2 ^ k + 1) e' e He).
  fold k. pose proof (bpow_pos e) as Hb.
  assert (H1 : (IZR (m / 2 ^ k * 2 ^ k) <= IZR m)%R) by (apply IZR_le; lia).
  assert (H2 : (IZR (m + 1) <= IZR ((m / 2 ^ k + 1) * 2 ^ k))%R)
    by (apply IZR_le; lia).
  split; nra.
Qed.

(** The value of a rounding that has not overflowed. *)
Lemma bpow_1 : bpow 1 = 2%R.
Proof. unfold bpow; simpl; ring. Qed.

Lemma finish_value (s : bool) (m1 e' : Z) :
  0 <= m1 <= 2 ^ 53 -> e' <= 971 -> (m1 = 2 ^ 53 -> e' <= 970) ->
  b64_is_finite (finish s m1 e') = true
  /\ B2R (finish s m1 e')
     = (IZR (if s then (- m1) else m1) * bpow e')%R.
Proof.
  intros Hm He He53; unfold finish.
  destruct (m1 =? 0) eqn:H0.
  { apply Z.eqb_eq in H0; subst m1; split; [reflexivity|].
    destruct s; simpl; ring. }
  destruct (m1 =? 2 ^ 53) eqn:H53.
  { apply Z.eqb_eq in H53; subst m1.
    assert (Hle : (e' + 1 <=? 971) = true)
      by (apply Z.leb_le; specialize (He53 eq_refl); lia).
    rewrite Hle; split; [reflexivity|].
    cbn [B2R]. rewrite bpow_add, bpow_1.
    destruct s; cbn [signed];
      [change (Z.neg (Z.to_pos (2 ^ 52))) with (- (2 ^ 52))
      |change (Z.pos (Z.to_pos (2 ^ 52))) with (2 ^ 52)];
      change (2 ^ 53) with (2 ^ 52 * 2); rewrite ?opp_IZR, mult_IZR;
      rewrite ?opp_IZR; ring. }
  assert (Hle : (e' <=? 971) = true) by (apply Z.leb_le; lia).
  rewrite Hle; split; [reflexivity|].
  apply Z.eqb_neq in H0.
  cbn [B2R]; destruct s; cbn [signed].
  - rewrite <- Pos2Z.opp_pos, Z2Pos.id by lia; reflexivity.
  - rewrite Z2Pos.id by lia; reflexivity.
Qed.

Lemma finish_valid (s : bool) (m1 e' : Z) :
  0 <= m1 <= 2 ^ 53 -> -1074 <= e' -> (-1074 < e' -> 2 ^ 52 <= m1) ->
  valid_binary prec emax (finish s m1 e') = true.
Proof.
  intros Hm He Hn; unfold finish.
  destruct (m1 =? 0) eqn:H0; [reflexivity|].
  destruct (m1 =? 2 ^ 53) eqn:H53.
  { destruct (e' + 1 <=? 971) eqn:Hle; [|reflexivity].
    cbn [valid_binary]; unfold SpecFloat.bounded, canonical_mantissa.
    change (Z.pos (digits2_pos (Z.to_pos (2 ^ 52)))) with 53.
    rewrite fexp_eq. apply andb_true_intro; split.
    - apply Z.eqb_eq; lia.
    - exact Hle. }
  apply Z.eqb_neq in H0; apply Z.eqb_neq in H53.
  destruct (e' <=? 971) eqn:Hle; [|reflexivity].
  cbn [valid_binary]; unfold SpecFloat.bounded, canonical_mantissa.
  apply andb_true_intro; split; [|exact Hle].
  apply Z.eqb_eq; rewrite fexp_eq.
  change (Z.pos (digits2_pos (Z.to_pos m1))) with (Zdigits2 (Z.pos (Z.to_pos m1))).
  rewrite Z2Pos.id by lia.
  destruct (Z.eq_dec e' (-1074)) as [->|Hne].
  - assert (Zdigits2 m1 <= 53) by (apply digits_le; lia). lia.
  - rewrite (digits_unique m1 53); [lia | lia |].
    change (53 - 1) with 52; lia.
Qed.

(** Rounding a positive real known through its truncated mantissa. *)
Lemma round_aux_value (s : bool) (m e : Z) (l : location) (x : R) :
  0 < m ->
  let e' := fexp prec emax (Zdigits2 m + e) in
  e <= e' ->
  ((x = IZR m * bpow e)%R /\ l = loc_Exact
   \/ (IZR m * bpow e < x < IZR (m + 1) * bpow e)%R) ->
  exists m' m1,
    binary_round_aux prec emax s m e l = finish s m1 e'
    /\ (IZR m' * bpow e' <= x < IZR (m' + 1) * bpow e')%R
    /\ (m1 = m' \/ m1 = m' + 1)
    /\ (x = IZR m' * bpow e' -> m1 = m')%R
    /\ 0 <= m' < 2 ^ 53
    /\ (-1074 < e' -> 2 ^ 52 <= m')
    /\ -1074 <= e'.
Proof.
  intros Hm e' Hk Hx.
  destruct (round_aux_spec s m e l Hm Hk)
    as (m1 & Hm1 & Hex & Hr & Hm' & Hn & He').
  fold e' in Hm1, Hex, Hr, Hm', Hn, He'.
  exists (m / 2 ^ (e' - e)), m1.
  assert (Hbr : (IZR m * bpow e <= x < IZR (m + 1) * bpow e)%R).
  { destruct Hx as [[-> _]|Hx]; [|lra].
    pose proof (bpow_pos e); rewrite plus_IZR; split; [lra | nra]. }
  pose proof (trunc_bracket m e e' x Hm Hk Hbr) as Hb.
  repeat split; try assumption; try lia; try apply Hb.
  intros Hxe.
  assert (Heq : m = m / 2 ^ (e' - e) * 2 ^ (e' - e)).
  { rewrite (scale_down _ e' e Hk) in Hxe.
    destruct Hbr as [Hlo _]; rewrite Hxe in Hlo.
    apply IZR_bpow_le in Hlo.
    assert (Hpk : 0 < 2 ^ (e' - e)) by (apply Z.pow_pos_nonneg; lia).
    pose proof (Z.div_mod m (2 ^ (e' - e)) ltac:(lia)).
    pose proof (Z.mod_pos_bound m (2 ^ (e' - e)) Hpk). lia. }
  destruct Hx as [[Hxm ->]|Hx].
  - apply Hex; [reflexivity|].
    rewrite Heq at 1; apply Z.mod_mul.
    assert (Hpk : 0 < 2 ^ (e' - e)) by (apply Z.pow_pos_nonneg; lia). lia.
  - exfalso. rewrite (scale_down _ e' e Hk), <- Heq in Hxe. lra.
Qed.

(** What a canonical mantissa and exponent say. *)
Lemma bounded_facts (m : positive) (e : Z) :
  SpecFloat.bounded prec emax m e = true ->
  fexp prec emax (Zdigits2 (Z.pos m) + e) = e
  /\ -1074 <= e <= 971
  /\ Z.pos m < 2 ^ 53
  /\ (-1074 < e -> 2 ^ 52 <= Z.pos m).
Proof.
  unfold SpecFloat.bounded, canonical_mantissa; intros Hb.
  apply andb_prop in Hb as [Hc He].
  apply Z.eqb_eq in Hc; apply Z.leb_le in He.
  change (emax - prec) with 971 in He.
  change (Z.pos (digits2_pos m)) with (Zdigits2 (Z.pos m)) in Hc.
  pose proof (digits_bounds (Z.pos m) ltac:(lia)) as [Hlo Hhi].
  split; [assumption|].
  rewrite fexp_eq in Hc.
  split; [lia|].
  split.
  - assert (2 ^ Zdigits2 (Z.pos m) <= 2 ^ 53); [|lia].
    apply Z.pow_le_mono_r; lia.
  - intros Hn.
    assert (Hd : Zdigits2 (Z.pos m) = 53) by lia.
    rewrite Hd in Hlo; exact Hlo.
Qed.

Lemma finish_ok (s : bool) (m1 e' : Z) :
  0 <= m1 <= 2 ^ 53 -> -1074 <= e' -> (-1074 < e' -> 2 ^ 52 <= m1) ->
  (IZR m1 * bpow e' < bpow 1024)%R ->
  b64_is_finite (finish s m1 e') = true
  /\ valid_binary prec emax (finish s m1 e') = true
  /\ B2R (finish s m1 e') = (IZR (if s then (- m1) else m1) * bpow e')%R.
Proof.
  intros Hm He Hn Hlt.
  assert (Hv := finish_valid s m1 e' Hm He Hn).
  assert (Hbig : forall a b, 2 ^ a <= m1 -> 0 <= a -> 1024 <= a + b -> b <= e' ->
                             False).
  { intros a b Ha Ha0 Hab Hb.
    assert (Hc : (bpow 1024 <= IZR m1 * bpow e')%R); [|lra].
    apply Rle_trans with (bpow (a + b)); [apply bpow_le; lia|].
    rewrite bpow_add, <- (bpow_IZR a) by lia.
    apply IZR_le in Ha.
    assert (bpow b <= bpow e')%R by (apply bpow_le; lia).
    pose proof (bpow_pos b).
    assert (0 < IZR (2 ^ a))%R
      by (apply IZR_lt; apply Z.pow_pos_nonneg; lia).
    nra. }
  assert (He1 : e' <= 971).
  { destruct (Z_le_gt_dec e' 971) as [Hle|Hgt]; [assumption|exfalso].
    apply (Hbig 52 972); lia. }
  assert (He2 : m1 = 2 ^ 53 -> e' <= 970).
  { intros H53; destruct (Z_le_gt_dec e' 970) as [Hle|Hgt]; [assumption|exfalso].
    apply (Hbig 53 971); lia. }
  destruct (finish_value s m1 e' Hm He1 He2) as [Hf Hval]; auto.
Qed.

(** Rounding between representable numbers. *)
Lemma round_sandwich_pos (s : bool) (m e : Z) (l : location) (x : R)
      (my : positive) (ey : Z) :
  0 < m ->
  e <= fexp prec emax (Zdigits2 m + e) ->
  ((x = IZR m * bpow e)%R /\ l = loc_Exact
   \/ (IZR m * bpow e < x < IZR (m + 1) * bpow e)%R) ->
  SpecFloat.bounded prec emax my ey = true ->
  (x <= IZR (Z.pos my) * bpow ey)%R ->
  exists V : R,
    b64_is_finite (binary_round_aux prec emax s m e l) = true
    /\ valid_binary prec emax (binary_round_aux prec emax s m e l) = true
    /\ B2R (binary_round_aux prec emax s m e l) = (if s then - V else V)%R
    /\ (0 <= V <= IZR (Z.pos my) * bpow ey)%R
    /\ (forall (ml : positive) (el : Z),
           SpecFloat.bounded prec emax ml el = true ->
           (IZR (Z.pos ml) * bpow el <= x)%R ->
           (IZR (Z.pos ml) * bpow el <= V)%R)
    /\ (bpow (-1021) <= x ->
        x * (1 - bpow (-52)) <= V <= x * (1 + bpow (-52)))%R.
Proof.
  intros Hm Hk Hx Hby Hxy.
  destruct (round_aux_value s m e l x Hm Hk Hx)
    as (m' & m1 & Hr & [Hlo Hhi] & Hm1 & Hex & Hm' & Hn & He').
  set (e' := fexp prec emax (Zdigits2 m + e)) in *.
  destruct (bounded_facts my ey Hby) as (Hcy & Hey & Hmy & Hny).
  pose proof (digits_bpow m e Hm) as [Hdlo Hdhi].
  pose proof (digits_bpow (Z.pos my) ey ltac:(lia)) as [Hylo Hyhi].
  assert (Hxm : (IZR m * bpow e <= x)%R) by (destruct Hx as [[-> _]|Hx]; lra).
  (* exponents *)
  assert (Hee : e' <= ey).
  { rewrite <- Hcy; unfold e'; rewrite !fexp_eq.
    assert (Zdigits2 m + e - 1 < Zdigits2 (Z.pos my) + ey)
      by (apply bpow_lt_inv; lra).
    lia. }
  assert (HY : (IZR (Z.pos my) * bpow ey
                = IZR (Z.pos my * 2 ^ (ey - e')) * bpow e')%R)
    by (apply scale_down; assumption).
  assert (Hm1Y : m1 <= Z.pos my * 2 ^ (ey - e')).
  { assert (Hle : m' <= Z.pos my * 2 ^ (ey - e'))
      by (apply (IZR_bpow_le _ _ e'); lra).
    destruct (Z.eq_dec m' (Z.pos my * 2 ^ (ey - e'))) as [Heq|Hne].
    - rewrite Hex; [lia|]. rewrite Heq, <- HY. rewrite Heq, <- HY in Hlo. lra.
    - lia. }
  assert (HVY : (IZR m1 * bpow e' <= IZR (Z.pos my) * bpow ey)%R).
  { rewrite HY; apply IZR_le in Hm1Y; pose proof (bpow_pos e'); nra. }
  assert (Hm1r : 0 <= m1 <= 2 ^ 53) by lia.
  assert (Hn1 : -1074 < e' -> 2 ^ 52 <= m1) by (intros He; specialize (Hn He); lia).
  assert (Hfin : (IZR m1 * bpow e' < bpow 1024)%R).
  { assert (bpow (Zdigits2 (Z.pos my) + ey) <= bpow 1024)%R; [|lra].
    apply bpow_le.
    assert (Zdigits2 (Z.pos my) <= 53) by (apply digits_le; lia). lia. }
  destruct (finish_ok s m1 e' Hm1r He' Hn1 Hfin) as (Hf & Hv & Hval).
  exists (IZR m1 * bpow e')%R.
  rewrite Hr.
  split; [assumption|]. split; [assumption|].
  split.
  { rewrite Hval; destruct s; [rewrite opp_IZR|]; ring. }
  split.
  { split; [|assumption].
    assert (0 <= IZR m1)%R by (apply IZR_le; lia).
    pose proof (bpow_pos e'); nra. }
  assert (Hm'1 : (IZR m' * bpow e' <= IZR m1 * bpow e')%R).
  { assert (IZR m' <= IZR m1)%R by (apply IZR_le; lia).
    pose proof (bpow_pos e'); nra. }
  split.
  { intros ml el Hbl Hlx.
    destruct (bounded_facts ml el Hbl) as (Hcl & Hel & Hml & Hnl).
    pose proof (digits_bpow (Z.pos ml) el ltac:(lia)) as [Hllo Hlhi].
    assert (Hxhi : (x < bpow (Zdigits2 m + e))%R).
    { (* x < (m + 1) 2^e <= 2^(digits + e) *)
      assert (Hb : (IZR (m + 1) * bpow e <= bpow (Zdigits2 m + e))%R).
      { pose proof (digits_bounds m Hm) as [_ Hh].
        rewrite bpow_add, <- (bpow_IZR (Zdigits2 m)) by apply digits_nonneg.
        assert (IZR (m + 1) <= IZR (2 ^ Zdigits2 m))%R by (apply IZR_le; lia).
        pose proof (bpow_pos e); nra. }
      destruct Hx as [[-> _]|Hx]; [|lra].
      rewrite plus_IZR in Hb; pose proof (bpow_pos e); nra. }
    assert (Hel' : el <= e').
    { rewrite <- Hcl; unfold e'; rewrite !fexp_eq.
      assert (Zdigits2 (Z.pos ml) + el - 1 < Zdigits2 m + e)
        by (apply bpow_lt_inv; lra).
      lia. }
    apply Rle_trans with (2 := Hm'1).
    destruct (Z.eq_dec el e') as [->|Hne].
    - assert (Z.pos ml < m' + 1) by (apply (IZR_bpow_lt _ _ e'); lra).
      assert (IZR (Z.pos ml) <= IZR m')%R by (apply IZR_le; lia).
      pose proof (bpow_pos e'); nra.
    - assert (H52 : 2 ^ 52 <= m') by (apply Hn; lia).
      apply Rle_trans with (IZR (2 ^ 53) * bpow el)%R.
      { assert (IZR (Z.pos ml) <= IZR (2 ^ 53))%R by (apply IZR_le; lia).
        pose proof (bpow_pos el); nra. }
      apply Rle_trans with (IZR (2 ^ 52) * bpow e')%R.
      { rewrite !bpow_IZR, <- !bpow_add by lia. apply bpow_le; lia. }
      assert (IZR (2 ^ 52) <= IZR m')%R by (apply IZR_le; lia).
      pose proof (bpow_pos e'); nra. }
  intros Hnorm.
  assert (He1 : -1074 < e').
  { assert (-1021 < Zdigits2 m + e).
    { apply bpow_lt_inv.
      assert (Hb : (IZR (m + 1) * bpow e <= bpow (Zdigits2 m + e))%R).
      { pose proof (digits_bounds m Hm) as [_ Hh].
        rewrite bpow_add, <- (bpow_IZR (Zdigits2 m)) by apply digits_nonneg.
        assert (IZR (m + 1) <= IZR (2 ^ Zdigits2 m))%R by (apply IZR_le; lia).
        pose proof (bpow_pos e); nra. }
      destruct Hx as [[-> _]|Hx]; [|lra].
      rewrite plus_IZR in Hb; pose proof (bpow_pos e); nra. }
    unfold e'; rewrite fexp_eq; lia. }
  specialize (Hn He1).
  assert (Hulp : (bpow e' <= x * bpow (-52))%R).
  { assert (Hx52 : (IZR (2 ^ 52) * bpow e' <= x)%R).
    { assert (IZR (2 ^ 52) <= IZR m')%R by (apply IZR_le; lia).
      pose proof (bpow_pos e'); nra. }
    rewrite bpow_IZR in Hx52 by lia.
    assert (Hone : (bpow 52 * bpow (-52) = 1)%R)
      by (rewrite <- bpow_add; reflexivity).
    pose proof (bpow_pos (-52)); pose proof (bpow_pos e'). nra. }
  rewrite plus_IZR in Hhi.
  destruct Hm1 as [-> | ->]; [|rewrite plus_IZR]; split;
    pose proof (bpow_pos (-52)); pose proof (bpow_pos e'); nra.
Qed.

Lemma B2R_pos (m : positive) (e : Z) :
  (0 < B2R (S754_finite false m e))%R.
Proof.
  cbn [B2R signed]. pose proof (bpow_pos e).
  assert (0 < IZR (Z.pos m))%R by (apply IZR_lt; lia). nra.
Qed.

Lemma B2R_neg (m : positive) (e : Z) :
  (B2R (S754_finite true m e) < 0)%R.
Proof.
  cbn [B2R signed]. pose proof (bpow_pos e).
  assert (IZR (Z.neg m) < 0)%R by (apply IZR_lt; lia). nra.
Qed.

Lemma B2R_opp (x : float) : B2R (SFopp x) = (- B2R x)%R.
Proof.
  destruct x as [s|s| |s m e]; cbn [SFopp B2R]; try ring.
  destruct s; cbn [negb signed];
    [change (Z.neg m) with (- Z.pos m)|change (Z.neg m) with (- Z.pos m)];
    rewrite opp_IZR; ring.
Qed.

Lemma B2R_abs (x : float) : B2R (SFabs x) = Rabs (B2R x).
Proof.
  destruct x as [s|s| |s m e]; cbn [SFabs B2R]; try (rewrite Rabs_R0; reflexivity).
  destruct s; cbn [signed].
  - pose proof (B2R_neg m e) as Hn; cbn [B2R signed] in Hn.
    rewrite Rabs_left by assumption.
    change (Z.neg m) with (- Z.pos m); rewrite opp_IZR; ring.
  - pose proof (B2R_pos m e) as Hp; cbn [B2R signed] in Hp.
    rewrite Rabs_pos_eq by lra; reflexivity.
Qed.

Lemma fin_opp (x : float) : fin x -> fin (SFopp x).
Proof. destruct x as [s|s| |s m e]; intros [Hf Hv]; split; auto. Qed.

Lemma fin_abs (x : float) : fin x -> fin (SFabs x).
Proof. destruct x as [s|s| |s m e]; intros [Hf Hv]; split; auto. Qed.

(** Rounding with a sign, between two floats. *)
Lemma round_sandwich (s : bool) (m e : Z) (l : location) (x : R)
      (lo hi : float) :
  0 < m ->
  e <= fexp prec emax (Zdigits2 m + e) ->
  ((x = IZR m * bpow e)%R /\ l = loc_Exact
   \/ (IZR m * bpow e < x < IZR (m + 1) * bpow e)%R) ->
  fin lo -> fin hi ->
  (B2R lo <= (if s then - x else x) <= B2R hi)%R ->
  fin (binary_round_aux prec emax s m e l)
  /\ (B2R lo <= B2R (binary_round_aux prec emax s m e l) <= B2R hi)%R.
Proof.
  intros Hm Hk Hx [Hflo Hvlo] [Hfhi Hvhi] [Hlo Hhi].
  assert (Hxpos : (0 < x)%R).
  { pose proof (bpow_pos e).
    assert (0 < IZR m)%R by (apply IZR_lt; lia).
    destruct Hx as [[-> _]|Hx]; nra. }
  destruct s.
  - (* negative: the lower bound is a negative float *)
    destruct lo as [sl|sl| |sl ml el]; try discriminate;
      [cbn [B2R] in Hlo; lra|].
    destruct sl; [|pose proof (B2R_pos ml el); lra].
    cbn [valid_binary] in Hvlo.
    assert (Hxy : (x <= IZR (Z.pos ml) * bpow el)%R).
    { cbn [B2R signed] in Hlo. change (Z.neg ml) with (- Z.pos ml) in Hlo.
      rewrite opp_IZR in Hlo; lra. }
    destruct (round_sandwich_pos true m e l x ml el Hm Hk Hx Hvlo Hxy)
      as (V & Hf & Hv & Hval & [HV0 HVY] & Hlow & _).
    split; [split; assumption|].
    rewrite Hval; split.
    + cbn [B2R signed]. change (Z.neg ml) with (- Z.pos ml).
      rewrite opp_IZR; lra.
    + destruct hi as [sh|sh| |sh mh eh]; try discriminate;
        [cbn [B2R]; lra|].
      destruct sh; [|pose proof (B2R_pos mh eh); lra].
      cbn [valid_binary] in Hvhi.
      cbn [B2R signed] in Hhi |- *. change (Z.neg mh) with (- Z.pos mh) in *.
      rewrite opp_IZR in *.
      assert (IZR (Z.pos mh) * bpow eh <= V)%R; [|lra].
      apply Hlow; [assumption | lra].
  - destruct hi as [sh|sh| |sh mh eh]; try discriminate;
      [cbn [B2R] in Hhi; lra|].
    destruct sh; [pose proof (B2R_neg mh eh); lra|].
    cbn [valid_binary] in Hvhi.
    assert (Hxy : (x <= IZR (Z.pos mh) * bpow eh)%R)
      by (cbn [B2R signed] in Hhi; lra).
    destruct (round_sandwich_pos false m e l x mh eh Hm Hk Hx Hvhi Hxy)
      as (V & Hf & Hv & Hval & [HV0 HVY] & Hlow & _).
    split; [split; assumption|].
    rewrite Hval; split.
    + destruct lo as [sl|sl| |sl ml el]; try discriminate;
        [cbn [B2R]; lra|].
      destruct sl; [pose proof (B2R_neg ml el); lra|].
      cbn [valid_binary] in Hvlo.
      cbn [B2R signed] in Hlo |- *.
      apply Hlow; [assumption | lra].
    + cbn [B2R signed]; lra.
Qed.

(** Comparison of canonical floats is comparison of their values. *)
Lemma canonical_order (m1 m2 : positive) (e1 e2 : Z) :
  SpecFloat.bounded prec emax m1 e1 = true ->
  SpecFloat.bounded prec emax m2 e2 = true ->
  e1 < e2 -> (IZR (Z.pos m1) * bpow e1 < IZR (Z.pos m2) * bpow e2)%R.
Proof.
  intros H1 H2 He.
  destruct (bounded_facts m1 e1 H1) as (_ & He1 & Hm1 & _).
  destruct (bounded_facts m2 e2 H2) as (_ & He2 & _ & Hn2).
  specialize (Hn2 ltac:(lia)).
  apply Rlt_le_trans with (IZR (2 ^ 53) * bpow e1)%R.
  { assert (IZR (Z.pos m1) < IZR (2 ^ 53))%R by (apply IZR_lt; lia).
    pose proof (bpow_pos e1); nra. }
  apply Rle_trans with (IZR (2 ^ 52) * bpow e2)%R.
  { rewrite !bpow_IZR, <- !bpow_add by lia. apply bpow_le; lia. }
  assert (IZR (2 ^ 52) <= IZR (Z.pos m2))%R by (apply IZR_le; lia).
  pose proof (bpow_pos e2); nra.
Qed.

Lemma compare_pos (m1 m2 : positive) (e1 e2 : Z) :
  SpecFloat.bounded prec emax m1 e1 = true ->
  SpecFloat.bounded prec emax m2 e2 = true ->
  match (match e1 ?= e2 with
         | Lt => Lt
         | Gt => Gt
         | Eq => Pos.compare_cont Eq m1 m2
         end) with
  | Lt => (IZR (Z.pos m1) * bpow e1 < IZR (Z.pos m2) * bpow e2)%R
  | Eq => (IZR (Z.pos m1) * bpow e1 = IZR (Z.pos m2) * bpow e2)%R
  | Gt => (IZR (Z.pos m2) * bpow e2 < IZR (Z.pos m1) * bpow e1)%R
  end.
Proof.
  intros H1 H2.
  destruct (e1 ?= e2) eqn:He.
  - apply Z.compare_eq in He; subst e2.
    change (Pos.compare_cont Eq m1 m2) with (Pos.compare m1 m2).
    pose proof (bpow_pos e1).
    destruct (Pos.compare m1 m2) eqn:Hm.
    + apply Pos.compare_eq in Hm; subst; reflexivity.
    + apply Pos.compare_lt_iff in Hm. cbv beta iota.
      apply Rmult_lt_compat_r; [assumption | apply IZR_lt].
      apply Pos2Z.pos_lt_pos; exact Hm.
    + apply Pos.compare_gt_iff in Hm. cbv beta iota.
      apply Rmult_lt_compat_r; [assumption | apply IZR_lt].
      apply Pos2Z.pos_lt_pos; exact Hm.
  - apply Z.compare_lt_iff in He. apply canonical_order; assumption.
  - apply Z.compare_gt_iff in He. apply canonical_order; assumption.
Qed.

Lemma SFltb_value (x y : float) :
  fin x -> fin y -> (B2R x < B2R y)%R -> SFltb x y = true.
Proof.
  intros [Hfx Hvx] [Hfy Hvy] Hlt; unfold SFltb.
  destruct x as [sx|sx| |sx mx ex]; try discriminate;
    destruct y as [sy|sy| |sy my ey]; try discriminate; cbn [SFcompare].
  - cbn [B2R] in Hlt; lra.
  - destruct sy; [pose proof (B2R_neg my ey); exfalso; cbn [B2R] in *; lra
                 |reflexivity].
  - destruct sx; [reflexivity
                 |pose proof (B2R_pos mx ex); exfalso; cbn [B2R] in *; lra].
  - cbn [valid_binary] in Hvx, Hvy.
    pose proof (compare_pos mx my ex ey Hvx Hvy) as Hc.
    pose proof (compare_pos my mx ey ex Hvy Hvx) as Hc'.
    destruct sx, sy.
    + cbn [B2R signed] in Hlt.
      change (Z.neg mx) with (- Z.pos mx) in Hlt.
      change (Z.neg my) with (- Z.pos my) in Hlt.
      rewrite !opp_IZR in Hlt.
      destruct (ex ?= ey); [|lra|reflexivity].
      destruct (Pos.compare_cont Eq mx my); [lra | lra | reflexivity].
    + reflexivity.
    + pose proof (B2R_pos mx ex); pose proof (B2R_neg my ey); lra.
    + cbn [B2R signed] in Hlt.
      destruct (ex ?= ey); [|reflexivity|lra].
      destruct (Pos.compare_cont Eq mx my); [lra | reflexivity | lra].
Qed.

Lemma SFleb_value (x y : float) :
  fin x -> fin y -> (B2R x <= B2R y)%R -> SFleb x y = true.
Proof.
  intros [Hfx Hvx] [Hfy Hvy] Hle; unfold SFleb.
  destruct x as [sx|sx| |sx mx ex]; try discriminate;
    destruct y as [sy|sy| |sy my ey]; try discriminate; cbn [SFcompare].
  - reflexivity.
  - destruct sy; [pose proof (B2R_neg my ey); exfalso; cbn [B2R] in *; lra
                 |reflexivity].
  - destruct sx; [reflexivity
                 |pose proof (B2R_pos mx ex); exfalso; cbn [B2R] in *; lra].
  - cbn [valid_binary] in Hvx, Hvy.
    pose proof (compare_pos mx my ex ey Hvx Hvy) as Hc.
    destruct sx, sy.
    + cbn [B2R signed] in Hle.
      change (Z.neg mx) with (- Z.pos mx) in Hle.
      change (Z.neg my) with (- Z.pos my) in Hle.
      rewrite !opp_IZR in Hle.
      destruct (ex ?= ey); [|lra|reflexivity].
      destruct (Pos.compare_cont Eq mx my); [reflexivity | lra | reflexivity].
    + reflexivity.
    + pose proof (B2R_pos mx ex); pose proof (B2R_neg my ey); lra.
    + cbn [B2R signed] in Hle.
      destruct (ex ?= ey); [|reflexivity|lra].
      destruct (Pos.compare_cont Eq mx my); [reflexivity | reflexivity | lra].
Qed.

Lemma fexp_mono (a b : Z) : a <= b -> fexp prec emax a <= fexp prec emax b.
Proof. intros H; rewrite !fexp_eq; lia. Qed.

Lemma B2R_signed (s : bool) (m : positive) (e : Z) :
  B2R (S754_finite s m e)
  = (if s then - (IZR (Z.pos m) * bpow e) else IZR (Z.pos m) * bpow e)%R.
Proof.
  cbn [B2R]; destruct s; cbn [signed]; [|reflexivity].
  change (Z.neg m) with (- Z.pos m); rewrite opp_IZR; ring.
Qed.

Lemma fin_zero (s : bool) : fin (S754_zero s).
Proof. split; reflexivity. Qed.

Lemma fin_finite (s : bool) (m : positive) (e : Z) :
  fin (S754_finite s m e) -> SpecFloat.bounded prec emax m e = true.
Proof. intros [_ Hv]; exact Hv. Qed.

(** ** Multiplication *)

Lemma mul_digits (mx my : positive) (ex ey : Z) :
  SpecFloat.bounded prec emax mx ex = true ->
  SpecFloat.bounded prec emax my ey = true ->
  ex + ey <= fexp prec emax (Zdigits2 (Z.pos (mx * my)) + (ex + ey)).
Proof.
  intros Hx Hy.
  destruct (bounded_facts mx ex Hx) as (Hcx & Hex & Hmx & Hnx).
  destruct (bounded_facts my ey Hy) as (Hcy & Hey & Hmy & Hny).
  pose proof (digits_bounds (Z.pos mx) ltac:(lia)) as [Hxl Hxh].
  pose proof (digits_bounds (Z.pos my) ltac:(lia)) as [Hyl Hyh].
  pose proof (digits_bounds (Z.pos (mx * my)) ltac:(lia)) as [Hpl Hph].
  assert (Hdx : 1 <= Zdigits2 (Z.pos mx)) by (simpl; lia).
  assert (Hdy : 1 <= Zdigits2 (Z.pos my)) by (simpl; lia).
  assert (Hd : Zdigits2 (Z.pos mx) + Zdigits2 (Z.pos my) - 1
               <= Zdigits2 (Z.pos (mx * my))).
  { assert (Hlt : 2 ^ (Zdigits2 (Z.pos mx) - 1 + (Zdigits2 (Z.pos my) - 1))
                  < 2 ^ Zdigits2 (Z.pos (mx * my))).
    { rewrite Z.pow_add_r by lia.
      assert (0 < 2 ^ (Zdigits2 (Z.pos mx) - 1)) by (apply Z.pow_pos_nonneg; lia).
      assert (0 < 2 ^ (Zdigits2 (Z.pos my) - 1)) by (apply Z.pow_pos_nonneg; lia).
      apply Z.le_lt_trans with (Z.pos (mx * my)); [|exact Hph].
      rewrite Pos2Z.inj_mul; apply Z.mul_le_mono_nonneg; lia. }
    apply Z.pow_lt_mono_r_iff in Hlt; [lia | lia | apply digits_nonneg]. }
  rewrite fexp_eq in *. lia.
Qed.

Lemma SFmul_sandwich (x y lo hi : float) :
  fin x -> fin y -> fin lo -> fin hi ->
  (B2R lo <= B2R x * B2R y <= B2R hi)%R ->
  fin (SFmul prec emax x y)
  /\ (B2R lo <= B2R (SFmul prec emax x y) <= B2R hi)%R.
Proof.
  intros Hx Hy Hlo Hhi Hb.
  destruct x as [sx|sx| |sx mx ex]; try (destruct Hx; discriminate);
    destruct y as [sy|sy| |sy my ey]; try (destruct Hy; discriminate);
    cbn [SFmul];
    try (split; [apply fin_zero|]; cbn [B2R] in *;
         rewrite ?Rmult_0_l, ?Rmult_0_r in Hb; exact Hb).
  apply fin_finite in Hx, Hy.
  apply (round_sandwich (xorb sx sy) (Z.pos (mx * my)) (ex + ey) loc_Exact
           (IZR (Z.pos (mx * my)) * bpow (ex + ey))%R lo hi);
    try assumption; try lia.
  - apply mul_digits; assumption.
  - left; split; reflexivity.
  - rewrite !B2R_signed in Hb.
    rewrite Pos2Z.inj_mul, mult_IZR, bpow_add.
    destruct sx, sy; cbn [xorb]; lra.
Qed.

Lemma max_float_bounded :
  SpecFloat.bounded prec emax (Z.to_pos (2 ^ 52)) 971 = true.
Proof. reflexivity. Qed.

Lemma bpow_1023 : bpow 1023 = (IZR (Z.pos (Z.to_pos (2 ^ 52))) * bpow 971)%R.
Proof.
  change (Z.pos (Z.to_pos (2 ^ 52))) with (2 ^ 52).
  rewrite bpow_IZR, <- bpow_add by lia; reflexivity.
Qed.

(** The relative error of a product in the normal range. *)
Lemma SFmul_rel (x y : float) :
  fin x -> fin y -> (0 < B2R x)%R -> (0 < B2R y)%R ->
  (bpow (-1021) <= B2R x * B2R y <= bpow 1023)%R ->
  fin (SFmul prec emax x y)
  /\ (B2R x * B2R y * (1 - bpow (-52)) <= B2R (SFmul prec emax x y)
      <= B2R x * B2R y * (1 + bpow (-52)))%R.
Proof.
  intros Hx Hy Hxp Hyp [Hlo Hhi].
  destruct x as [sx|sx| |sx mx ex]; try (destruct Hx; discriminate);
    try (cbn [B2R] in Hxp; lra).
  destruct y as [sy|sy| |sy my ey]; try (destruct Hy; discriminate);
    try (cbn [B2R] in Hyp; lra).
  destruct sx; [pose proof (B2R_neg mx ex); lra|].
  destruct sy; [pose proof (B2R_neg my ey); lra|].
  apply fin_finite in Hx, Hy.
  cbn [SFmul xorb].
  assert (Hval : (B2R (S754_finite false mx ex) * B2R (S754_finite false my ey)
                  = IZR (Z.pos (mx * my)) * bpow (ex + ey))%R).
  { cbn [B2R signed]; rewrite Pos2Z.inj_mul, mult_IZR, bpow_add; ring. }
  rewrite Hval in *.
  destruct (round_sandwich_pos false (Z.pos (mx * my)) (ex + ey) loc_Exact
              (IZR (Z.pos (mx * my)) * bpow (ex + ey))%R
              (Z.to_pos (2 ^ 52)) 971)
    as (V & Hf & Hv & HV & _ & _ & Hrel).
  - lia.
  - apply mul_digits; assumption.
  - left; split; reflexivity.
  - apply max_float_bounded.
  - rewrite <- bpow_1023; assumption.
  - split; [split; assumption|].
    rewrite HV; apply Hrel; assumption.
Qed.

(** ** Rounding an integer mantissa: [binary_round], [binary_normalize] *)

Lemma binary_round_aux_form (s : bool) (mx : positive) (ex : Z) :
  exists (mz : positive) (ez : Z),
    binary_round prec emax s mx ex
    = binary_round_aux prec emax s (Z.pos mz) ez loc_Exact
    /\ (IZR (Z.pos mz) * bpow ez = IZR (Z.pos mx) * bpow ex)%R
    /\ ez <= fexp prec emax (Zdigits2 (Z.pos mz) + ez).
Proof.
  unfold binary_round, shl_align.
  set (e' := fexp prec emax (Z.pos (digits2_pos mx) + ex)).
  destruct (e' - ex) as [|d|d] eqn:Hd.
  - exists mx, ex; repeat split.
    change (Zdigits2 (Z.pos mx)) with (Z.pos (digits2_pos mx)); fold e'; lia.
  - exists mx, ex; repeat split.
    change (Zdigits2 (Z.pos mx)) with (Z.pos (digits2_pos mx)); fold e'; lia.
  - exists (Pos.iter xO mx d), e'; split; [reflexivity|]; split.
    + rewrite iter_xO_value, mult_IZR, bpow_IZR by lia.
      replace ex with (Z.pos d + e') by lia.
      rewrite bpow_add; ring.
    + cbn [Zdigits2]; rewrite iter_xO_digits.
      replace (Z.pos (digits2_pos mx) + Z.pos d + e')
        with (Z.pos (digits2_pos mx) + ex) by lia.
      fold e'; lia.
Qed.

Lemma normalize_sandwich (z e : Z) (sz : bool) (lo hi : float) :
  fin lo -> fin hi ->
  (B2R lo <= IZR z * bpow e <= B2R hi)%R ->
  fin (binary_normalize prec emax z e sz)
  /\ (B2R lo <= B2R (binary_normalize prec emax z e sz) <= B2R hi)%R.
Proof.
  intros Hlo Hhi Hb.
  destruct z as [|p|p]; cbn [binary_normalize].
  - split; [apply fin_zero|]. cbn [B2R]; rewrite Rmult_0_l in Hb; exact Hb.
  - destruct (binary_round_aux_form false p e) as (mz & ez & -> & Hval & Hk).
    apply (round_sandwich false (Z.pos mz) ez loc_Exact
             (IZR (Z.pos mz) * bpow ez)%R lo hi); try assumption; try lia.
    + left; split; reflexivity.
    + rewrite Hval; exact Hb.
  - destruct (binary_round_aux_form true p e) as (mz & ez & -> & Hval & Hk).
    apply (round_sandwich true (Z.pos mz) ez loc_Exact
             (IZR (Z.pos mz) * bpow ez)%R lo hi); try assumption; try lia.
    + left; split; reflexivity.
    + rewrite Hval. change (Z.neg p) with (- Z.pos p) in Hb.
      rewrite opp_IZR in Hb; lra.
Qed.

Lemma normalize_rel (z e : Z) (sz : bool) :
  0 < z ->
  (bpow (-1021) <= IZR z * bpow e <= bpow 1023)%R ->
  fin (binary_normalize prec emax z e sz)
  /\ (IZR z * bpow e * (1 - bpow (-52))
      <= B2R (binary_normalize prec emax z e sz)
      <= IZR z * bpow e * (1 + bpow (-52)))%R.
Proof.
  intros Hz [Hlo Hhi].
  destruct z as [|p|p]; try lia; cbn [binary_normalize].
  destruct (binary_round_aux_form false p e) as (mz & ez & -> & Hval & Hk).
  destruct (round_sandwich_pos false (Z.pos mz) ez loc_Exact
              (IZR (Z.pos mz) * bpow ez)%R (Z.to_pos (2 ^ 52)) 971)
    as (V & Hf & Hv & HV & _ & _ & Hrel).
  - lia.
  - assumption.
  - left; split; reflexivity.
  - apply max_float_bounded.
  - rewrite <- bpow_1023, Hval; assumption.
  - split; [split; assumption|].
    rewrite HV, <- Hval; apply Hrel; rewrite Hval; assumption.
Qed.

Lemma bpow_0 : bpow 0 = 1%R.
Proof. reflexivity. Qed.

Lemma of_Z_sandwich (z : Z) (lo hi : float) :
  fin lo -> fin hi -> (B2R lo <= IZR z <= B2R hi)%R ->
  fin (b64_of_Z z) /\ (B2R lo <= B2R (b64_of_Z z) <= B2R hi)%R.
Proof.
  intros Hlo Hhi Hb; apply normalize_sandwich; try assumption.
  rewrite bpow_0, Rmult_1_r; exact Hb.
Qed.

Lemma of_Z_rel (z : Z) :
  0 < z -> (IZR z <= bpow 1023)%R ->
  fin (b64_of_Z z)
  /\ (IZR z * (1 - bpow (-52)) <= B2R (b64_of_Z z)
      <= IZR z * (1 + bpow (-52)))%R.
Proof.
  intros Hz Hhi.
  destruct (normalize_rel z 0 false Hz) as [Hf Hr].
  - rewrite bpow_0, Rmult_1_r; split; [|assumption].
    apply Rle_trans with 1%R; [|apply IZR_le; lia].
    change 1%R with (bpow 0); apply bpow_le; lia.
  - rewrite bpow_0, Rmult_1_r in Hr; split; assumption.
Qed.

(** The float of an integer, when it is representable. *)
Lemma of_Z_value (z : Z) :
  0 <= z < 2 ^ 53 -> fin (b64_of_Z z) /\ B2R (b64_of_Z z) = IZR z.
Proof.
  intros Hz; destruct (Z.eq_dec z 0) as [->|Hn].
  { split; [apply fin_zero | reflexivity]. }
  destruct (of_Z_exact z ltac:(lia)) as (m & e & -> & Hb & He & Hm).
  split; [split; [reflexivity | exact Hb]|].
  cbn [B2R signed]; rewrite Hm, mult_IZR, bpow_IZR by lia.
  rewrite Rmult_assoc, <- bpow_add.
  replace (- e + e) with 0 by lia; rewrite bpow_0; ring.
Qed.

(** ** Division of positive floats *)

Lemma new_location_zero (n : Z) : new_location n 0 = loc_Exact.
Proof.
  unfold new_location, new_location_even, new_location_odd.
  destruct (Z.even n); reflexivity.
Qed.

Lemma pow2_digits_le (q j : Z) : 0 <= j -> 2 ^ j <= q -> j + 1 <= Zdigits2 q.
Proof.
  intros Hj Hq.
  assert (0 < 2 ^ j) by (apply Z.pow_pos_nonneg; lia).
  pose proof (digits_bounds q ltac:(lia)) as [_ Hhi].
  assert (Hlt : 2 ^ j < 2 ^ Zdigits2 q) by lia.
  apply Z.pow_lt_mono_r_iff in Hlt; [lia | lia | apply digits_nonneg].
Qed.

Lemma div_core_spec (mx my : positive) (ex ey : Z) :
  let X := (IZR (Z.pos mx) * bpow ex / (IZR (Z.pos my) * bpow ey))%R in
  (bpow (-1021) <= X)%R ->
  exists q e' l,
    SFdiv_core_binary prec emax (Z.pos mx) ex (Z.pos my) ey = (q, e', l)
    /\ 0 < q
    /\ e' <= fexp prec emax (Zdigits2 q + e')
    /\ ((X = IZR q * bpow e')%R /\ l = loc_Exact
        \/ (IZR q * bpow e' < X < IZR (q + 1) * bpow e')%R).
Proof.
  intros X HX.
  unfold SFdiv_core_binary.
  set (d1 := Zdigits2 (Z.pos mx)); set (d2 := Zdigits2 (Z.pos my)).
  set (E := d1 + ex - (d2 + ey)).
  set (e' := Z.min (fexp prec emax E) (ex - ey)).
  set (s := ex - ey - e').
  assert (Hs : 0 <= s) by (unfold s, e'; lia).
  set (m' := match s with
             | 0 => Z.pos mx
             | Z.pos _ => Z.shiftl (Z.pos mx) s
             | Z.neg _ => 0
             end).
  assert (Hm' : m' = Z.pos mx * 2 ^ s).
  { unfold m'; destruct s as [|p|p] eqn:Hsp; [lia| |lia].
    rewrite Z.shiftl_mul_pow2 by lia; reflexivity. }
  pose proof (Z_div_mod m' (Z.pos my) ltac:(lia)) as Hdiv.
  destruct (Z.div_eucl m' (Z.pos my)) as [q r].
  destruct Hdiv as [Hqr Hr].
  pose proof (bpow_pos ex) as Hbx; pose proof (bpow_pos ey) as Hby.
  pose proof (bpow_pos e') as Hbe.
  assert (Hmyp : (0 < IZR (Z.pos my))%R) by (apply IZR_lt; lia).
  assert (Hmxp : (0 < IZR (Z.pos mx))%R) by (apply IZR_lt; lia).
  (* the quotient as a multiple of 2^e' *)
  assert (HXq : (X * IZR (Z.pos my) = IZR m' * bpow e')%R).
  { unfold X; rewrite Hm', mult_IZR, bpow_IZR by lia.
    replace ex with (s + e' + ey) at 1 by (unfold s; lia).
    rewrite !bpow_add; field; split; lra. }
  assert (Hlo : (IZR q * bpow e' <= X)%R).
  { apply (Rmult_le_reg_r (IZR (Z.pos my))); [assumption|].
    rewrite HXq.
    assert (IZR (q * Z.pos my) <= IZR m')%R by (apply IZR_le; lia).
    rewrite mult_IZR in H; nra. }
  assert (Hhi : (X < IZR (q + 1) * bpow e')%R).
  { apply (Rmult_lt_reg_r (IZR (Z.pos my))); [assumption|].
    rewrite HXq.
    assert (IZR m' < IZR ((q + 1) * Z.pos my))%R by (apply IZR_lt; lia).
    rewrite mult_IZR in H; nra. }
  (* the size of the quotient *)
  pose proof (digits_bpow (Z.pos mx) ex ltac:(lia)) as [Hxl Hxh].
  pose proof (digits_bpow (Z.pos my) ey ltac:(lia)) as [Hyl Hyh].
  fold d1 in Hxl, Hxh; fold d2 in Hyl, Hyh.
  assert (HXhi : (X < bpow (E + 1))%R).
  { unfold X.
    apply (Rmult_lt_reg_r (IZR (Z.pos my) * bpow ey)); [nra|].
    unfold Rdiv; rewrite Rmult_assoc, Rinv_l, Rmult_1_r by nra.
    apply Rlt_le_trans with (1 := Hxh).
    apply Rle_trans with (bpow (E + 1) * bpow (d2 + ey - 1))%R.
    - rewrite <- bpow_add; apply bpow_le; unfold E; lia.
    - pose proof (bpow_pos (E + 1)); nra. }
  assert (HE : -1021 <= E).
  { assert (-1021 < E + 1) by (apply bpow_lt_inv; lra). lia. }
  assert (Hq0 : 0 <= q).
  { destruct (Z_le_gt_dec 0 q) as [Hle|Hgt]; [assumption|exfalso].
    assert (q * Z.pos my <= - Z.pos my) by nia. lia. }
  assert (Hqj : forall j, 0 <= j -> j <= d1 - 1 + s - d2 -> 2 ^ j <= q).
  { intros j Hj Hle.
    pose proof (digits_bounds (Z.pos mx) ltac:(lia)) as [Hml _].
    pose proof (digits_bounds (Z.pos my) ltac:(lia)) as [_ Hmh].
    fold d1 in Hml; fold d2 in Hmh.
    assert (Hd2 : 1 <= d2) by (unfold d2; simpl; lia).
    assert (Hd1 : 1 <= d1) by (unfold d1; simpl; lia).
    assert (H1 : 2 ^ (j + d2) <= m').
    { rewrite Hm'.
      apply Z.le_trans with (2 ^ (d1 - 1) * 2 ^ s).
      - rewrite <- Z.pow_add_r by lia. apply Z.pow_le_mono_r; lia.
      - apply Z.mul_le_mono_nonneg_r; [apply Z.pow_nonneg; lia | lia]. }
    rewrite Z.pow_add_r in H1 by lia.
    assert (0 < 2 ^ j) by (apply Z.pow_pos_nonneg; lia).
    destruct (Z_le_gt_dec (2 ^ j) q) as [Hok|Hgt]; [assumption|exfalso].
    assert (q + 1 <= 2 ^ j) by lia.
    assert ((q + 1) * Z.pos my <= 2 ^ j * Z.pos my)
      by (apply Z.mul_le_mono_nonneg_r; lia).
    assert (2 ^ j * Z.pos my < 2 ^ j * 2 ^ d2)
      by (apply Z.mul_lt_mono_pos_l; lia).
    lia. }
  assert (Hfe : fexp prec emax E = E - 53) by (rewrite fexp_eq; lia).
  assert (He'E : e' <= E - 53) by (unfold e'; lia).
  assert (Hq52 : 2 ^ 52 <= q).
  { apply Hqj; [lia|]. unfold s, E in *. lia. }
  exists q, e', (new_location (Z.pos my) r).
  split; [reflexivity|].
  split; [lia|].
  split.
  { assert (Hdq : E - e' <= Zdigits2 q).
    { assert (0 <= d1 - 1 + s - d2) by (unfold s, E in *; lia).
      pose proof (pow2_digits_le q (d1 - 1 + s - d2) H
                    (Hqj _ H ltac:(lia))).
      unfold s, E in *; lia. }
    apply Z.le_trans with (fexp prec emax E); [unfold e'; lia|].
    apply fexp_mono; lia. }
  destruct (Z.eq_dec r 0) as [->|Hr0].
  - left; split; [|apply new_location_zero].
    apply (Rmult_eq_reg_r (IZR (Z.pos my))); [|lra].
    rewrite HXq, Hqr, Z.add_0_r, mult_IZR; ring.
  - right; split; [|assumption].
    apply (Rmult_lt_reg_r (IZR (Z.pos my))); [assumption|].
    rewrite HXq.
    assert (IZR (q * Z.pos my) < IZR m')%R by (apply IZR_lt; lia).
    rewrite mult_IZR in H; nra.
Qed.

Lemma SFdiv_rel (x y : float) :
  fin x -> fin y -> (0 < B2R x)%R -> (0 < B2R y)%R ->
  (bpow (-1021) <= B2R x / B2R y <= bpow 1023)%R ->
  fin (SFdiv prec emax x y)
  /\ (B2R x / B2R y * (1 - bpow (-52)) <= B2R (SFdiv prec emax x y)
      <= B2R x / B2R y * (1 + bpow (-52)))%R.
Proof.
  intros Hx Hy Hxp Hyp [Hlo Hhi].
  destruct x as [sx|sx| |sx mx ex]; try (destruct Hx; discriminate);
    try (cbn [B2R] in Hxp; lra).
  destruct y as [sy|sy| |sy my ey]; try (destruct Hy; discriminate);
    try (cbn [B2R] in Hyp; lra).
  destruct sx; [pose proof (B2R_neg mx ex); lra|].
  destruct sy; [pose proof (B2R_neg my ey); lra|].
  cbn [SFdiv xorb]; cbn [B2R signed] in *.
  destruct (div_core_spec mx my ex ey Hlo) as (q & e' & l & -> & Hq & Hk & Hval).
  destruct (round_sandwich_pos false q e' l
              (IZR (Z.pos mx) * bpow ex / (IZR (Z.pos my) * bpow ey))%R
              (Z.to_pos (2 ^ 52)) 971)
    as (V & Hf & Hv & HV & _ & _ & Hrel); try assumption.
  - apply max_float_bounded.
  - rewrite <- bpow_1023; assumption.
  - split; [split; assumption|].
    rewrite HV; apply Hrel; assumption.
Qed.

Lemma SFdiv_sandwich (x y lo hi : float) :
  fin x -> fin y -> (0 <= B2R x)%R -> (0 < B2R y)%R ->
  fin lo -> fin hi ->
  (B2R x = 0 \/ bpow (-1021) <= B2R x / B2R y)%R ->
  (B2R lo <= B2R x / B2R y <= B2R hi)%R ->
  fin (SFdiv prec emax x y)
  /\ (B2R lo <= B2R (SFdiv prec emax x y) <= B2R hi)%R.
Proof.
  intros Hx Hy Hxp Hyp Hlo Hhi Hn Hb.
  destruct y as [sy|sy| |sy my ey]; try (destruct Hy; discriminate);
    try (cbn [B2R] in Hyp; lra).
  destruct sy; [pose proof (B2R_neg my ey); lra|].
  destruct x as [sx|sx| |sx mx ex]; try (destruct Hx; discriminate).
  { cbn [SFdiv]; split; [apply fin_zero|].
    cbn [B2R] in *. unfold Rdiv in Hb; rewrite Rmult_0_l in Hb; exact Hb. }
  destruct sx; [pose proof (B2R_neg mx ex); lra|].
  destruct Hn as [Hn|Hn]; [pose proof (B2R_pos mx ex); lra|].
  cbn [SFdiv xorb]; cbn [B2R signed] in Hn, Hb.
  destruct (div_core_spec mx my ex ey Hn) as (q & e' & l & -> & Hq & Hk & Hval).
  apply (round_sandwich false q e' l
           (IZR (Z.pos mx) * bpow ex / (IZR (Z.pos my) * bpow ey))%R lo hi);
    assumption.
Qed.

(** ** Ranges *)

Lemma rng_pos (a b : Z) (v : R) : rng a b v -> (0 < v)%R.
Proof. intros [H _]; pose proof (bpow_pos a); lra. Qed.

Lemma rng_mul (a b c d : Z) (x y : R) :
  rng a b x -> rng c d y -> rng (a + c) (b + d) (x * y).
Proof.
  intros [Hxl Hxh] [Hyl Hyh]; unfold rng; rewrite !bpow_add.
  pose proof (bpow_pos a); pose proof (bpow_pos c).
  split; apply Rmult_le_compat; lra.
Qed.

Lemma bpow_inv (a : Z) : (/ bpow a = bpow (- a))%R.
Proof.
  pose proof (bpow_pos a).
  apply (Rmult_eq_reg_l (bpow a)); [|lra].
  rewrite Rinv_r, <- bpow_add by lra.
  replace (a + - a) with 0 by lia; reflexivity.
Qed.

Lemma rng_inv (a b : Z) (x : R) : rng a b x -> rng (- b) (- a) (/ x).
Proof.
  intros [Hl Hh]; unfold rng; rewrite <- !bpow_inv.
  pose proof (bpow_pos a); pose proof (bpow_pos b).
  split; apply Rinv_le_contravar; lra.
Qed.

Lemma rng_div (a b c d : Z) (x y : R) :
  rng a b x -> rng c d y -> rng (a - d) (b - c) (x / y).
Proof.
  intros Hx Hy; unfold Rdiv.
  replace (a - d) with (a + - d) by lia; replace (b - c) with (b + - c) by lia.
  apply rng_mul; [assumption | apply rng_inv; assumption].
Qed.

Lemma rng_weaken (a b a' b' : Z) (v : R) :
  rng a b v -> a' <= a -> b <= b' -> rng a' b' v.
Proof.
  intros [Hl Hh] Ha Hb; split.
  - apply Rle_trans with (bpow a); [apply bpow_le|]; assumption.
  - apply Rle_trans with (bpow b); [|apply bpow_le]; assumption.
Qed.

Lemma eps_value : bpow (-52) = (/ 4503599627370496)%R.
Proof.
  change (-52) with (- (52)); rewrite <- bpow_inv, <- bpow_IZR by lia.
  reflexivity.
Qed.

Lemma bpow_m1 : bpow (-1) = (/ 2)%R.
Proof.
  change (-1) with (- (1)); rewrite <- bpow_inv, bpow_1; reflexivity.
Qed.

(** A value within the relative error of a value in a range. *)
Lemma rng_rel (a b : Z) (x v : R) :
  rng a b x ->
  (x * (1 - bpow (-52)) <= v <= x * (1 + bpow (-52)))%R ->
  rng (a - 1) (b + 1) v.
Proof.
  intros [Hl Hh] [Hvl Hvh]; unfold rng.
  replace (a - 1) with (a + -1) by lia.
  rewrite !bpow_add, bpow_1, bpow_m1.
  rewrite eps_value in *.
  pose proof (bpow_pos a); pose proof (bpow_pos b).
  split; nra.
Qed.

Lemma rng_IZR (z k : Z) : 1 <= z <= 2 ^ k -> 0 <= k -> rng 0 k (IZR z).
Proof.
  intros Hz Hk; split.
  - change (bpow 0) with 1%R; apply IZR_le; lia.
  - rewrite <- bpow_IZR by lia; apply IZR_le; lia.
Qed.

(** ** [math.ceil] *)

Lemma ceil_value (x : float) (p : Z) :
  b64_ceil x = Ok p -> (IZR p - 1 < B2R x <= IZR p)%R.
Proof.
  destruct x as [s|s| |s m e]; cbn [b64_ceil]; try discriminate.
  - intros [= <-]; cbn [B2R]; lra.
  - destruct (0 <=? e) eqn:He; intros [= <-]; cbn [B2R].
    + apply Z.leb_le in He.
      rewrite mult_IZR, bpow_IZR by assumption; lra.
    + apply Z.leb_gt in He.
      set (z := signed s m).
      assert (Hp : 0 < 2 ^ (- e)) by (apply Z.pow_pos_nonneg; lia).
      pose proof (Z.div_mod (- z) (2 ^ (- e)) ltac:(lia)) as Hdm.
      pose proof (Z.mod_pos_bound (- z) (2 ^ (- e)) Hp) as Hmod.
      set (q := - z / 2 ^ (- e)) in *.
      assert (Hb : (bpow e * IZR (2 ^ (- e)) = 1)%R).
      { rewrite bpow_IZR, <- bpow_add by lia.
        replace (e + - e) with 0 by lia; reflexivity. }
      pose proof (bpow_pos e) as Hbe.
      assert (H1 : (IZR (- q) * IZR (2 ^ (- e)) >= IZR z)%R).
      { rewrite <- mult_IZR; apply Rle_ge, IZR_le; lia. }
      assert (H2 : (IZR (- q - 1) * IZR (2 ^ (- e)) < IZR z)%R).
      { rewrite <- mult_IZR; apply IZR_lt; lia. }
      assert (Hpr : (0 < IZR (2 ^ (- e)))%R) by (apply IZR_lt; lia).
      rewrite minus_IZR in H2.
      split.
      * apply (Rmult_lt_reg_r (IZR (2 ^ (- e)))); [assumption|].
        rewrite Rmult_assoc, Hb; lra.
      * apply (Rmult_le_reg_r (IZR (2 ^ (- e)))); [assumption|].
        rewrite Rmult_assoc, Hb; lra.
Qed.

(** ** Constants *)

Lemma two_pi_value :
  fin (two_pi (F := float))
  /\ B2R (two_pi (F := float)) = (IZR 7074237752028440 * bpow (-50))%R.
Proof.
  split; [split; reflexivity|].
  change (two_pi (F := float)) with (S754_finite false 7074237752028440 (-50)).
  reflexivity.
Qed.

Lemma two_pi_rng : rng 2 3 (B2R (two_pi (F := float))).
Proof.
  destruct two_pi_value as [_ ->]; unfold rng.
  change 2 with (52 + -50) at 1; change 3 with (53 + -50).
  rewrite !bpow_add, <- (bpow_IZR 52), <- (bpow_IZR 53) by lia.
  pose proof (bpow_pos (-50)).
  split; (apply Rmult_le_compat_r; [lra | apply IZR_le; lia]).
Qed.

(** ** Addition and subtraction *)

Lemma align_value (mx : positive) (ex ez : Z) :
  ez <= ex ->
  (IZR (Z.pos (fst (shl_align mx ex ez))) * bpow ez
   = IZR (Z.pos mx) * bpow ex)%R.
Proof.
  intros He; unfold shl_align.
  destruct (ez - ex) as [|d|d] eqn:Hd; cbn [fst]; try lia.
  - replace ez with ex by lia; reflexivity.
  - rewrite iter_xO_value, mult_IZR, bpow_IZR by lia.
    replace ex with (Z.pos d + ez) by lia.
    rewrite bpow_add; ring.
Qed.

Lemma cond_Zopp_value (s : bool) (m : positive) (z : positive) (e ez : Z) :
  (IZR (Z.pos z) * bpow ez = IZR (Z.pos m) * bpow e)%R ->
  (IZR (cond_Zopp s (Z.pos z)) * bpow ez = B2R (S754_finite s m e))%R.
Proof.
  intros H; rewrite B2R_signed; destruct s; cbn [cond_Zopp].
  - rewrite opp_IZR, <- H; ring.
  - exact H.
Qed.

Lemma SFadd_sandwich (x y lo hi : float) :
  fin x -> fin y -> fin lo -> fin hi ->
  (B2R lo <= B2R x + B2R y <= B2R hi)%R ->
  fin (SFadd prec emax x y)
  /\ (B2R lo <= B2R (SFadd prec emax x y) <= B2R hi)%R.
Proof.
  intros Hx Hy Hlo Hhi Hb.
  destruct x as [sx|sx| |sx mx ex]; try (destruct Hx; discriminate);
    destruct y as [sy|sy| |sy my ey]; try (destruct Hy; discriminate);
    cbn [SFadd].
  - assert (Hz : exists s, (if Bool.eqb sx sy then S754_zero sx
                            else S754_zero false) = S754_zero s)
      by (destruct (Bool.eqb sx sy); eauto).
    replace (match sx with
             | true => match sy with true => S754_zero sx | false => S754_zero false end
             | false => match sy with true => S754_zero false | false => S754_zero sx end
             end) with (if Bool.eqb sx sy then S754_zero sx else S754_zero false)
      by (destruct sx, sy; reflexivity).
    destruct Hz as [s ->]; split; [apply fin_zero|].
    cbn [B2R] in *; lra.
  - split; [assumption|]. cbn [B2R] in Hb |- *; lra.
  - split; [assumption|]. cbn [B2R] in Hb |- *; lra.
  - apply normalize_sandwich; try assumption.
    set (ez := Z.min ex ey) in *.
    assert (Hv : (IZR (cond_Zopp sx (Z.pos (fst (shl_align mx ex ez)))
                       + cond_Zopp sy (Z.pos (fst (shl_align my ey ez))))
                  * bpow ez
                  = B2R (S754_finite sx mx ex) + B2R (S754_finite sy my ey))%R).
    { rewrite plus_IZR, Rmult_plus_distr_r.
      rewrite (cond_Zopp_value sx mx _ ex), (cond_Zopp_value sy my _ ey);
        [reflexivity | apply align_value; lia | apply align_value; lia]. }
    rewrite Hv; exact Hb.
Qed.

Lemma SFsub_sandwich (x y lo hi : float) :
  fin x -> fin y -> fin lo -> fin hi ->
  (B2R lo <= B2R x - B2R y <= B2R hi)%R ->
  fin (SFsub prec emax x y)
  /\ (B2R lo <= B2R (SFsub prec emax x y) <= B2R hi)%R.
Proof.
  intros Hx Hy Hlo Hhi Hb.
  destruct x as [sx|sx| |sx mx ex]; try (destruct Hx; discriminate);
    destruct y as [sy|sy| |sy my ey]; try (destruct Hy; discriminate);
    cbn [SFsub].
  - replace (match sx with
             | true => match sy with true => S754_zero false | false => S754_zero sx end
             | false => match sy with true => S754_zero sx | false => S754_zero false end
             end) with (if Bool.eqb sx sy then S754_zero false else S754_zero sx)
      by (destruct sx, sy; reflexivity).
    assert (Hz : exists s, (if Bool.eqb sx sy then S754_zero false
                            else S754_zero sx) = S754_zero s)
      by (destruct (Bool.eqb sx sy); eauto).
    destruct Hz as [s ->]; split; [apply fin_zero|].
    cbn [B2R] in *; lra.
  - split; [exact (fin_opp (S754_finite sy my ey) Hy)|].
    change (S754_finite (negb sy) my ey) with (SFopp (S754_finite sy my ey)).
    rewrite B2R_opp; cbn [B2R] in Hb |- *; lra.
  - split; [assumption|]. cbn [B2R] in Hb |- *; lra.
  - apply normalize_sandwich; try assumption.
    set (ez := Z.min ex ey) in *.
    assert (Hv : (IZR (cond_Zopp sx (Z.pos (fst (shl_align mx ex ez)))
                       - cond_Zopp sy (Z.pos (fst (shl_align my ey ez))))
                  * bpow ez
                  = B2R (S754_finite sx mx ex) - B2R (S754_finite sy my ey))%R).
    { rewrite minus_IZR, Rmult_minus_distr_r.
      rewrite (cond_Zopp_value sx mx _ ex), (cond_Zopp_value sy my _ ey);
        [reflexivity | apply align_value; lia | apply align_value; lia]. }
    rewrite Hv; exact Hb.
Qed.

(** ** [np.floor] of a float that is not negative *)

Lemma floor_value (x : float) :
  fin x -> (0 <= B2R x < bpow 53)%R ->
  exists n : Z,
    0 <= n
    /\ fin (b64_floor x)
    /\ B2R (b64_floor x) = IZR n
    /\ (IZR n <= B2R x < IZR n + 1)%R.
Proof.
  intros Hx [H0 H53].
  destruct x as [s|s| |s m e]; try (destruct Hx; discriminate).
  { exists 0; cbn [b64_floor B2R]; repeat split; try lra; lia. }
  destruct s; [pose proof (B2R_neg m e); lra|].
  apply fin_finite in Hx as Hb.
  cbn [b64_floor]; destruct (0 <=? e) eqn:He.
  - apply Z.leb_le in He.
    exists (Z.pos m * 2 ^ e).
    assert (0 < 2 ^ e) by (apply Z.pow_pos_nonneg; lia).
    split; [lia|]. split; [assumption|].
    cbn [B2R signed]; rewrite mult_IZR, bpow_IZR by lia.
    split; [reflexivity | lra].
  - apply Z.leb_gt in He.
    cbn [signed].
    assert (Hp : 0 < 2 ^ (- e)) by (apply Z.pow_pos_nonneg; lia).
    pose proof (Z.div_mod (Z.pos m) (2 ^ (- e)) ltac:(lia)) as Hdm.
    pose proof (Z.mod_pos_bound (Z.pos m) (2 ^ (- e)) Hp) as Hmod.
    set (q := Z.pos m / 2 ^ (- e)) in *.
    assert (Hq0 : 0 <= q) by (apply Z.div_pos; lia).
    assert (Hb1 : (bpow e * IZR (2 ^ (- e)) = 1)%R).
    { rewrite bpow_IZR, <- bpow_add by lia.
      replace (e + - e) with 0 by lia; reflexivity. }
    assert (Hpr : (0 < IZR (2 ^ (- e)))%R) by (apply IZR_lt; lia).
    assert (Hbr : (IZR q <= B2R (S754_finite false m e) < IZR q + 1)%R).
    { cbn [B2R signed].
      assert (H1 : (IZR q * IZR (2 ^ (- e)) <= IZR (Z.pos m))%R)
        by (rewrite <- mult_IZR; apply IZR_le; lia).
      assert (H2 : (IZR (Z.pos m) < (IZR q + 1) * IZR (2 ^ (- e)))%R)
        by (rewrite <- plus_IZR, <- mult_IZR; apply IZR_lt; lia).
      split.
      - apply (Rmult_le_reg_r (IZR (2 ^ (- e)))); [assumption|].
        rewrite Rmult_assoc, Hb1; lra.
      - apply (Rmult_lt_reg_r (IZR (2 ^ (- e)))); [assumption|].
        rewrite Rmult_assoc, Hb1; lra. }
    exists q; split; [assumption|].
    destruct (q =? 0) eqn:Hq.
    + apply Z.eqb_eq in Hq; rewrite Hq in *.
      split; [apply fin_zero|]. split; [reflexivity | exact Hbr].
    + apply Z.eqb_neq in Hq.
      destruct (bounded_facts m e Hb) as (_ & _ & Hm & _).
      assert (Hqm : q <= Z.pos m).
      { assert (1 <= 2 ^ (- e)) by lia. nia. }
      destruct (of_Z_value q ltac:(lia)) as [Hf Hv].
      split; [assumption|]. split; [assumption | exact Hbr].
Qed.

(** ** Representable numbers *)

Lemma representable (a b : Z) :
  0 < a < 2 ^ 53 -> -1074 <= b -> (IZR a * bpow b < bpow 1024)%R ->
  exists y, fin y /\ B2R y = (IZR a * bpow b)%R.
Proof.
  intros Ha Hb Hlt.
  destruct a as [|a|a]; try lia.
  exists (binary_round prec emax false a b).
  assert (Hd : Zdigits2 (Z.pos a) <= 53) by (apply digits_le; lia).
  assert (Hform : exists (mz : positive) (ez : Z),
             binary_round prec emax false a b
             = binary_round_aux prec emax false (Z.pos mz) ez loc_Exact
             /\ (IZR (Z.pos mz) * bpow ez = IZR (Z.pos a) * bpow b)%R
             /\ ez = fexp prec emax (Zdigits2 (Z.pos mz) + ez)).
  { unfold binary_round, shl_align.
    change (Z.pos (digits2_pos a)) with (Zdigits2 (Z.pos a)).
    set (e' := fexp prec emax (Zdigits2 (Z.pos a) + b)).
    assert (He' : e' <= b) by (unfold e'; rewrite fexp_eq; lia).
    destruct (e' - b) as [|d|d] eqn:Hdd; try lia.
    - exists a, b; repeat split. fold e'; lia.
    - exists (Pos.iter xO a d), e'; split; [reflexivity|]; split.
      + rewrite iter_xO_value, mult_IZR, bpow_IZR by lia.
        replace b with (Z.pos d + e') by lia.
        rewrite bpow_add; ring.
      + cbn [Zdigits2]; rewrite iter_xO_digits.
        change (Z.pos (digits2_pos a)) with (Zdigits2 (Z.pos a)).
        replace (Zdigits2 (Z.pos a) + Z.pos d + e')
          with (Zdigits2 (Z.pos a) + b) by lia.
        reflexivity. }
  destruct Hform as (mz & ez & -> & Hval & Hez).
  destruct (round_aux_value false (Z.pos mz) ez loc_Exact
              (IZR (Z.pos mz) * bpow ez)%R)
    as (m' & m1 & Hr & [Hlo Hhi] & Hm1 & Hex & Hm' & Hn & He');
    [lia | lia | left; split; reflexivity |].
  rewrite <- Hez in *.
  assert (Hmm : m' = Z.pos mz).
  { apply IZR_bpow_le in Hlo. apply IZR_bpow_lt in Hhi. lia. }
  assert (Hm1' : m1 = m') by (apply Hex; rewrite Hmm; reflexivity).
  subst m1; rewrite Hmm in *.
  destruct (finish_ok false (Z.pos mz) ez) as (Hf & Hv & Hvl);
    [lia | assumption | assumption | rewrite Hval; assumption |].
  rewrite Hr; split; [split; assumption|].
  rewrite Hvl, Hval; reflexivity.
Qed.

End Rounding.

(** ** The sample times and the phases (binary64) *)

Module GridBounds.

Import Binary64 Binary64Facts WholeFrequency Value Rounding.

Lemma moderate_rng (f : float) :
  moderate f = true ->
  fin f /\ rng (-200) 200 (B2R f) /\ positive_float f = true.
Proof.
  destruct f as [s|s| |s m e]; try discriminate.
  destruct s; [discriminate|]; cbn [moderate].
  intros H; apply andb_prop in H as [H He2]; apply andb_prop in H as [Hb He1].
  apply Z.leb_le in He1, He2.
  destruct (bounded_facts m e Hb) as (_ & _ & Hm & Hn).
  specialize (Hn ltac:(lia)).
  split; [split; [reflexivity | exact Hb]|].
  split; [|reflexivity].
  cbn [B2R signed]; split.
  - apply Rle_trans with (IZR (2 ^ 52) * bpow e)%R.
    + rewrite bpow_IZR, <- bpow_add by lia; apply bpow_le; lia.
    + apply Rmult_le_compat_r; [left; apply bpow_pos | apply IZR_le; lia].
  - apply Rle_trans with (IZR (2 ^ 53) * bpow e)%R.
    + apply Rmult_le_compat_r; [left; apply bpow_pos | apply IZR_le; lia].
    + rewrite bpow_IZR, <- bpow_add by lia; apply bpow_le; lia.
Qed.

Lemma e1_bounds : (1 < e1 <= 1 + / 4503599627370496)%R.
Proof. unfold e1; rewrite eps_value; lra. Qed.

Lemma normal_range (a b : Z) (v : R) :
  rng a b v -> -1021 <= a -> b <= 1023 -> (bpow (-1021) <= v <= bpow 1023)%R.
Proof. intros H Ha Hb; apply (rng_weaken a b); assumption. Qed.

Ltac rng_norm H a b := apply (rng_weaken _ _ a b) in H; [|lia|lia].

(** The adjusted duration. *)
Lemma grid_values (D p : Z) (f : float) :
  0 < D <= 2 ^ 64 -> moderate f = true ->
  b64_ceil (SFmul prec emax (b64_of_Z D) f) = Ok p ->
  1 <= p
  /\ rng 0 267 (IZR p)
  /\ fin (b64_of_Z p)
  /\ rng (-1) 268 (B2R (b64_of_Z p))
  /\ (IZR p * e0 <= B2R (b64_of_Z p) <= IZR p * e1)%R
  /\ fin (SFdiv prec emax (b64_of_Z p) f)
  /\ rng (-202) 469 (B2R (SFdiv prec emax (b64_of_Z p) f))
  /\ (B2R (SFdiv prec emax (b64_of_Z p) f) <= IZR p / B2R f * (e1 * e1))%R.
Proof.
  intros HD Hf Hp.
  destruct (moderate_rng f Hf) as (Hff & Hfr & _).
  pose proof (rng_pos _ _ _ Hfr) as Hfpos.
  (* D as a float *)
  assert (HDr : rng 0 64 (IZR D)) by (apply rng_IZR; lia).
  destruct (of_Z_rel D ltac:(lia)) as [HDf HDrel].
  { apply Rle_trans with (bpow 64); [apply HDr | apply bpow_le; lia]. }
  pose proof (rng_rel _ _ _ _ HDr HDrel) as HDfr; rng_norm HDfr (-1) 65.
  (* D * f *)
  pose proof (rng_mul _ _ _ _ _ _ HDfr Hfr) as Hprod; rng_norm Hprod (-201) 265.
  destruct (SFmul_rel (b64_of_Z D) f HDf Hff (rng_pos _ _ _ HDfr) Hfpos)
    as [HDff HDfrel].
  { apply (normal_range _ _ _ Hprod); lia. }
  pose proof (rng_rel _ _ _ _ Hprod HDfrel) as HDffr; rng_norm HDffr (-202) 266.
  (* p *)
  pose proof (ceil_value _ _ Hp) as [Hpl Hph].
  pose proof (rng_pos _ _ _ HDffr) as HDfpos.
  assert (Hp1 : 1 <= p).
  { assert (0 < p); [|lia]. apply lt_IZR; lra. }
  assert (Hpr : rng 0 267 (IZR p)).
  { split; [change (bpow 0) with 1%R; apply IZR_le; lia|].
    destruct HDffr as [_ Hhi].
    apply Rle_trans with (bpow 266 + 1)%R; [lra|].
    replace 267 with (266 + 1) by lia; rewrite bpow_add, bpow_1.
    assert (1 <= bpow 266)%R
      by (change 1%R with (bpow 0); apply bpow_le; lia).
    lra. }
  destruct (of_Z_rel p ltac:(lia)) as [Hpf Hprel].
  { apply Rle_trans with (bpow 267); [apply Hpr | apply bpow_le; lia]. }
  pose proof (rng_rel _ _ _ _ Hpr Hprel) as Hpfr; rng_norm Hpfr (-1) 268.
  pose proof (rng_div _ _ _ _ _ _ Hpfr Hfr) as Hquot; rng_norm Hquot (-201) 468.
  destruct (SFdiv_rel (b64_of_Z p) f Hpf Hff (rng_pos _ _ _ Hpfr) Hfpos)
    as [Hdf Hdrel].
  { apply (normal_range _ _ _ Hquot); lia. }
  pose proof (rng_rel _ _ _ _ Hquot Hdrel) as Hdr; rng_norm Hdr (-202) 469.
  split; [assumption|]. split; [assumption|]. split; [assumption|].
  split; [assumption|]. split; [exact Hprel|].
  split; [assumption|]. split; [assumption|].
  destruct Hdrel as [_ Hdu]; destruct Hprel as [_ Hpu].
  apply Rle_trans with (1 := Hdu); fold e1; fold e1 in Hpu.
  unfold Rdiv in *.
  assert (Hinv : (0 < / B2R f)%R) by (apply Rinv_0_lt_compat; assumption).
  pose proof e1_bounds.
  assert (B2R (b64_of_Z p) * / B2R f <= IZR p * e1 * / B2R f)%R
    by (apply Rmult_le_compat_r; lra).
  nra.
Qed.

Lemma B2R_zero_iff (x : float) :
  fin x -> (0 < B2R x)%R -> b64_is_zero x = false.
Proof.
  destruct x as [s|s| |s m e]; intros _ Hp; try reflexivity.
  cbn [B2R] in Hp; lra.
Qed.

(** The sample times. *)
Lemma time_values (d : float) (N : Z) (i : nat) :
  fin d -> rng (-202) 469 (B2R d) -> 1 <= N <= 2 ^ 48 ->
  (i < Z.to_nat N)%nat ->
  fin (b64_time d N i)
  /\ (0 <= B2R (b64_time d N i)
      <= IZR (Z.of_nat i) * (B2R d / IZR N) * (e1 * e1))%R
  /\ (i <> 0%nat -> rng (-252) 519 (B2R (b64_time d N i))).
Proof.
  intros Hd Hdr HN Hi.
  destruct (of_Z_value N ltac:(lia)) as [HNf HNv].
  assert (HNr : rng 0 48 (IZR N)) by (apply rng_IZR; lia).
  pose proof (rng_pos _ _ _ Hdr) as Hdpos.
  pose proof (rng_pos _ _ _ HNr) as HNpos.
  pose proof (rng_div _ _ _ _ _ _ Hdr HNr) as Hq; rng_norm Hq (-250) 469.
  destruct (SFdiv_rel d (b64_of_Z N) Hd HNf Hdpos) as [Hsf Hsrel].
  { rewrite HNv; assumption. }
  { rewrite HNv; apply (normal_range _ _ _ Hq); lia. }
  rewrite HNv in Hsrel.
  pose proof (rng_rel _ _ _ _ Hq Hsrel) as Hsr; rng_norm Hsr (-251) 470.
  pose proof (rng_pos _ _ _ Hsr) as Hspos.
  unfold b64_time; rewrite (B2R_zero_iff _ Hsf Hspos).
  destruct (of_Z_value (Z.of_nat i) ltac:(lia)) as [Hif Hiv].
  pose proof e1_bounds as He1.
  destruct i as [|i].
  - change (Z.of_nat 0) with 0 in *.
    destruct (SFmul_sandwich (b64_of_Z 0) (SFdiv prec emax d (b64_of_Z N))
                (S754_zero false) (S754_zero false) Hif Hsf
                (fin_zero false) (fin_zero false)) as [Hf Hv].
    { rewrite Hiv; cbn [B2R]; lra. }
    cbn [B2R] in Hv.
    split; [assumption|]. split; [|congruence].
    rewrite Rmult_0_l, Rmult_0_l; lra.
  - assert (Hir : rng 0 48 (IZR (Z.of_nat (S i)))) by (apply rng_IZR; lia).
    pose proof (rng_mul _ _ _ _ _ _ Hir Hsr) as Hpr; rng_norm Hpr (-251) 518.
    destruct (SFmul_rel (b64_of_Z (Z.of_nat (S i)))
                (SFdiv prec emax d (b64_of_Z N)) Hif Hsf) as [Htf Htrel].
    { rewrite Hiv; apply (rng_pos _ _ _ Hir). }
    { assumption. }
    { rewrite Hiv; apply (normal_range _ _ _ Hpr); lia. }
    rewrite Hiv in Htrel.
    pose proof (rng_rel _ _ _ _ Hpr Htrel) as Htr; rng_norm Htr (-252) 519.
    split; [assumption|]. split; [|intros _; assumption].
    split; [left; apply (rng_pos _ _ _ Htr)|].
    destruct Htrel as [_ Htu]; destruct Hsrel as [_ Hsu].
    fold e1 in Htu, Hsu.
    apply Rle_trans with (1 := Htu).
    pose proof (rng_pos _ _ _ Hir) as Hipos.
    assert (IZR (Z.of_nat (S i)) * B2R (SFdiv prec emax d (b64_of_Z N))
            <= IZR (Z.of_nat (S i)) * (B2R d / IZR N * e1))%R
      by (apply Rmult_le_compat_l; lra).
    nra.
Qed.

(** Below one whole turn more: numbers. *)
Lemma count_margin (N i : Z) (k : R) :
  1 <= N <= 2 ^ 48 -> 0 <= i < N ->
  (1 <= k <= 1 + 12 * / 4503599627370496)%R ->
  (IZR i * k < IZR N * (1 - 3 * / 4503599627370496))%R.
Proof.
  intros HN Hi Hk.
  assert (Hi1 : (IZR i <= IZR N - 1)%R).
  { rewrite <- minus_IZR; apply IZR_le; lia. }
  assert (HN1 : (IZR N <= 281474976710656)%R).
  { apply IZR_le; change (2 ^ 48) with 281474976710656 in HN; lia. }
  assert (Hi0 : (0 <= IZR i)%R) by (apply IZR_le; lia).
  assert (HN0 : (1 <= IZR N)%R) by (apply IZR_le; lia).
  apply Rle_lt_trans with ((IZR N - 1) * k)%R.
  - apply Rmult_le_compat_r; lra.
  - apply Rle_lt_trans with ((IZR N - 1) * (1 + 12 * / 4503599627370496))%R.
    + apply Rmult_le_compat_l; lra.
    + lra.
Qed.

Lemma e1_pow6 : (1 <= e1 * e1 * e1 * e1 * e1 * e1
                 <= 1 + 12 * / 4503599627370496)%R.
Proof.
  pose proof e1_bounds as [Hl Hh].
  assert (H2 : (1 <= e1 * e1 <= 1 + 3 * / 4503599627370496)%R) by nra.
  assert (H3 : (1 <= e1 * e1 * e1 <= 1 + 4 * / 4503599627370496)%R) by nra.
  assert (H6 : (e1 * e1 * e1 * e1 * e1 * e1 = (e1 * e1 * e1) * (e1 * e1 * e1))%R)
    by ring.
  rewrite H6; nra.
Qed.

Lemma e1_pow2 : (1 <= e1 * e1 <= 1 + 12 * / 4503599627370496)%R.
Proof. pose proof e1_bounds as [Hl Hh]; nra. Qed.

Lemma e0_pow2 : (1 - 3 * / 4503599627370496 <= e0 * e0)%R.
Proof. unfold e0; rewrite eps_value; nra. Qed.

Lemma fin_zero_value (x : float) :
  fin x -> B2R x = 0%R -> exists s, x = S754_zero s.
Proof.
  destruct x as [s|s| |s m e]; intros [Hf _] Hv; try discriminate.
  - exists s; reflexivity.
  - exfalso; destruct s;
      [pose proof (B2R_neg m e) | pose proof (B2R_pos m e)]; lra.
Qed.

(** The phases of the samples stay below the whole turns. *)
Lemma phase_values (D p N : Z) (f : float) (i : nat) :
  0 < D <= 2 ^ 64 -> moderate f = true ->
  b64_ceil (SFmul prec emax (b64_of_Z D) f) = Ok p ->
  1 <= N <= 2 ^ 48 -> (i < Z.to_nat N)%nat ->
  let d := SFdiv prec emax (b64_of_Z p) f in
  let t := b64_time d N i in
  let phase := SFmul prec emax (SFmul prec emax two_pi f) t in
  let turns := SFmul prec emax two_pi (b64_of_Z p) in
  fin d /\ fin t /\ fin phase /\ fin turns
  /\ (0 <= B2R t < B2R d)%R
  /\ (0 <= B2R phase < B2R turns)%R
  /\ (B2R phase < B2R (two_pi (F := float)) * IZR p)%R
  /\ (B2R phase = 0 \/ bpow (-452) <= B2R phase)%R.
Proof.
  intros HD Hf Hp HN Hi d t phase turns.
  destruct (grid_values D p f HD Hf Hp)
    as (Hp1 & Hpr & Hpf & Hpfr & Hprel & Hdf & Hdr & Hdu).
  fold d in Hdf, Hdr, Hdu.
  destruct (time_values d N i Hdf Hdr HN Hi) as (Htf & [Ht0 Htu] & Htr).
  fold t in Htf, Ht0, Htu, Htr.
  destruct (moderate_rng f Hf) as (Hff & Hfr & _).
  destruct two_pi_value as [Htpf _]; pose proof two_pi_rng as Htpr.
  set (tau := B2R (two_pi (F := float))) in *.
  pose proof (rng_pos _ _ _ Htpr) as Htaupos.
  pose proof (rng_pos _ _ _ Hfr) as Hfpos.
  pose proof (rng_pos _ _ _ Hdr) as Hdpos.
  pose proof (rng_pos _ _ _ Hpr) as Hppos.
  pose proof e1_bounds as He1.
  assert (HNr : rng 0 48 (IZR N)) by (apply rng_IZR; lia).
  pose proof (rng_pos _ _ _ HNr) as HNpos.
  assert (Hi0 : (0 <= IZR (Z.of_nat i))%R) by (apply IZR_le; lia).
  (* c = 2 pi f *)
  pose proof (rng_mul _ _ _ _ _ _ Htpr Hfr) as Hcx; rng_norm Hcx (-198) 203.
  destruct (SFmul_rel two_pi f Htpf Hff Htaupos Hfpos) as [Hcf Hcrel].
  { apply (normal_range _ _ _ Hcx); lia. }
  fold tau in Hcrel.
  pose proof (rng_rel _ _ _ _ Hcx Hcrel) as Hcr; rng_norm Hcr (-199) 204.
  pose proof (rng_pos _ _ _ Hcr) as Hcpos.
  (* the turns *)
  pose proof (rng_mul _ _ _ _ _ _ Htpr Hpfr) as Htx; rng_norm Htx 1 271.
  destruct (SFmul_rel two_pi (b64_of_Z p) Htpf Hpf Htaupos
              (rng_pos _ _ _ Hpfr)) as [Htuf Hturel].
  { apply (normal_range _ _ _ Htx); lia. }
  fold tau in Hturel; fold turns in Htuf, Hturel.
  assert (Hturns : (tau * IZR p * (1 - 3 * / 4503599627370496)
                    <= B2R turns)%R).
  { destruct Hturel as [Hl _]; destruct Hprel as [Hpl _].
    fold e0 in Hl, Hpl.
    pose proof e0_pow2 as He0.
    assert (He0p : (0 < e0)%R) by (unfold e0; rewrite eps_value; lra).
    apply Rle_trans with (tau * IZR p * (e0 * e0))%R.
    - apply Rmult_le_compat_l; [nra | assumption].
    - apply Rle_trans with (2 := Hl).
      replace (tau * IZR p * (e0 * e0))%R with (tau * (IZR p * e0) * e0)%R
        by ring.
      apply Rmult_le_compat_r; [lra|].
      apply Rmult_le_compat_l; lra. }
  (* the time is below the adjusted duration *)
  assert (Hmargin2 := count_margin N (Z.of_nat i) (e1 * e1) HN ltac:(lia)
                        e1_pow2).
  assert (Hmargin6 := count_margin N (Z.of_nat i)
                        (e1 * e1 * e1 * e1 * e1 * e1) HN ltac:(lia) e1_pow6).
  assert (Htd : (B2R t < B2R d)%R).
  { apply Rle_lt_trans with (1 := Htu).
    replace (IZR (Z.of_nat i) * (B2R d / IZR N) * (e1 * e1))%R
      with (B2R d * (IZR (Z.of_nat i) * (e1 * e1) / IZR N))%R
      by (field; lra).
    rewrite <- (Rmult_1_r (B2R d)) at 2.
    apply Rmult_lt_compat_l; [assumption|].
    apply (Rmult_lt_reg_r (IZR N)); [assumption|].
    unfold Rdiv; rewrite Rmult_assoc, Rinv_l, Rmult_1_r by lra. lra. }
  (* the phase *)
  assert (Hphase : fin phase
                   /\ (0 <= B2R phase
                       <= tau * IZR p
                          * (IZR (Z.of_nat i)
                             * (e1 * e1 * e1 * e1 * e1 * e1) / IZR N))%R
                   /\ (B2R phase = 0 \/ bpow (-452) <= B2R phase)%R).
  { destruct (Nat.eq_dec i 0) as [->|Hne].
    - change (Z.of_nat 0) with 0 in *.
      assert (Ht00 : B2R t = 0%R).
      { rewrite Rmult_0_l, Rmult_0_l in Htu; lra. }
      destruct (SFmul_sandwich (SFmul prec emax two_pi f) t
                  (S754_zero false) (S754_zero false) Hcf Htf
                  (fin_zero false) (fin_zero false)) as [Hf0 Hv0].
      { rewrite Ht00, Rmult_0_r; cbn [B2R]; lra. }
      fold phase in Hf0, Hv0; cbn [B2R] in Hv0.
      split; [assumption|].
      split; [|left; lra].
      unfold Rdiv; rewrite !Rmult_0_l, Rmult_0_r; lra.
    - specialize (Htr Hne).
      pose proof (rng_mul _ _ _ _ _ _ Hcr Htr) as Hpx; rng_norm Hpx (-451) 723.
      destruct (SFmul_rel (SFmul prec emax two_pi f) t Hcf Htf Hcpos
                  (rng_pos _ _ _ Htr)) as [Hphf Hphrel].
      { apply (normal_range _ _ _ Hpx); lia. }
      fold phase in Hphf, Hphrel.
      split; [assumption|].
      pose proof (rng_rel _ _ _ _ Hpx Hphrel) as Hphr; rng_norm Hphr (-452) 724.
      split; [|right; apply Hphr].
      split.
      { destruct Hphrel as [Hl _].
        assert (0 < 1 - bpow (-52))%R by (rewrite eps_value; lra).
        pose proof (rng_pos _ _ _ Hpx).
        apply Rle_trans with (2 := Hl); apply Rmult_le_pos; [|lra].
        left; assumption. }
      destruct Hphrel as [_ Hphu]; destruct Hcrel as [_ Hcu].
      fold e1 in Hphu, Hcu.
      apply Rle_trans with (1 := Hphu).
      assert (Htu' : (B2R t <= IZR (Z.of_nat i)
                               * (IZR p / B2R f * (e1 * e1) / IZR N)
                               * (e1 * e1))%R).
      { apply Rle_trans with (1 := Htu).
        apply Rmult_le_compat_r; [nra|].
        apply Rmult_le_compat_l; [assumption|].
        unfold Rdiv; apply Rmult_le_compat_r;
          [left; apply Rinv_0_lt_compat; assumption | exact Hdu]. }
      assert (Hct : (B2R (SFmul prec emax two_pi f) * B2R t
                     <= tau * B2R f * e1
                        * (IZR (Z.of_nat i)
                           * (IZR p / B2R f * (e1 * e1) / IZR N)
                           * (e1 * e1)))%R).
      { apply Rmult_le_compat;
          [left; exact Hcpos | exact Ht0 | exact Hcu | exact Htu']. }
      replace (tau * IZR p
               * (IZR (Z.of_nat i) * (e1 * e1 * e1 * e1 * e1 * e1) / IZR N))%R
        with (tau * B2R f * e1
              * (IZR (Z.of_nat i)
                 * (IZR p / B2R f * (e1 * e1) / IZR N) * (e1 * e1)) * e1)%R
        by (field; lra).
      apply Rmult_le_compat_r; lra. }
  destruct Hphase as (Hphf & [Hph0 Hphu] & Hphz).
  assert (Hlt : (B2R phase < tau * IZR p * (1 - 3 * / 4503599627370496))%R).
  { apply Rle_lt_trans with (1 := Hphu).
    apply Rmult_lt_compat_l; [nra|].
    apply (Rmult_lt_reg_r (IZR N)); [assumption|].
    unfold Rdiv; rewrite Rmult_assoc, Rinv_l, Rmult_1_r by lra. lra. }
  split; [assumption|]. split; [assumption|]. split; [assumption|].
  split; [assumption|]. split; [split; assumption|].
  split; [split; [assumption | lra]|].
  split; [lra | exact Hphz].
Qed.

Lemma SFltb_irrefl (x : float) : SFltb x x = false.
Proof.
  unfold SFltb; destruct x as [s|s| |s m e]; cbn [SFcompare];
    try reflexivity; try (destruct s; reflexivity).
  destruct s; rewrite Z.compare_refl;
    change (Pos.compare_cont Eq m m) with (Pos.compare m m);
    rewrite Pos.compare_refl; reflexivity.
Qed.

(** C5, as the binary64 run has it.  For a positive sample rate, a
    duration of at most 2^64, a frequency between 2^-200 and 2^200 and at
    most 2^48 samples, the builder samples at the N times
    t_i = i * (D' / N), i = 0 .. N - 1, both operations rounded
    ([b64_time]).  Every time satisfies 0 <= t_i < D', so that the end D'
    is not among them, and every phase (2 pi f) * t_i, the last one
    included, is strictly below 2 pi ceil(D f), where 2 pi is the float
    [2 * np.pi] and the product is taken exactly or in binary64. *)
Theorem time_grid_half_open_b64 (self : WaveformGenerator float)
        (wf : wave_func_t float) (f d : float) (N p : Z) :
  0 < sample_rate self -> 0 < duration self <= 2 ^ 64 ->
  moderate f = true ->
  sample_grid self f = Ok (d, N) -> N <= 2 ^ 48 ->
  b64_ceil (SFmul prec emax (b64_of_Z (duration self)) f) = Ok p ->
  let times := map (b64_time d N) (seq 0 (Z.to_nat N)) in
  0 <= N
  /\ List.length times = Z.to_nat N
  /\ _generate_wave self wf f
     = (y <- wf (map (SFmul prec emax (SFmul prec emax two_pi f)) times) ;;
        Ok (scalar_mul (amplitude self) y))
  /\ (forall i : nat,
         (i < Z.to_nat N)%nat ->
         let t := b64_time d N i in
         let phase := SFmul prec emax (SFmul prec emax two_pi f) t in
         SFleb (S754_zero false) t = true
         /\ SFltb t d = true
         /\ SFltb phase (SFmul prec emax two_pi (b64_of_Z p)) = true
         /\ (B2R phase < B2R (two_pi (F := float)) * IZR p)%R)
  /\ ~ In d times.
Proof.
  intros HR HD Hf Hg HN Hp times.
  destruct (moderate_rng f Hf) as (_ & _ & Hfpos).
  destruct (SampleCount.generate_wave_b64_grid self wf f d N HR
              ltac:(lia) Hfpos Hg) as (HN0 & _ & Hgen).
  assert (Hd : d = SFdiv prec emax (b64_of_Z p) f).
  { apply SampleCount.sample_grid_inv in Hg
      as (p' & _ & Hp' & _ & _ & -> & _ & _).
    rewrite Hp in Hp'; injection Hp' as <-; reflexivity. }
  assert (Hall : forall i : nat,
             (i < Z.to_nat N)%nat ->
             SFleb (S754_zero false) (b64_time d N i) = true
             /\ SFltb (b64_time d N i) d = true
             /\ SFltb (SFmul prec emax (SFmul prec emax two_pi f)
                             (b64_time d N i))
                      (SFmul prec emax two_pi (b64_of_Z p)) = true
             /\ (B2R (SFmul prec emax (SFmul prec emax two_pi f)
                            (b64_time d N i))
                 < B2R (two_pi (F := float)) * IZR p)%R).
  { intros i Hi.
    assert (HN1 : 1 <= N <= 2 ^ 48) by lia.
    destruct (phase_values (duration self) p N f i HD Hf Hp HN1 Hi)
      as (Hdf & Htf & Hphf & Htuf & [Ht0 Htd] & [Hph0 Hphlt] & Hphx & _).
    rewrite <- Hd in *.
    split; [apply SFleb_value; [apply fin_zero | assumption | exact Ht0]|].
    split; [apply SFltb_value; assumption|].
    split; [apply SFltb_value; assumption|].
    exact Hphx. }
  split; [assumption|].
  split; [unfold times; rewrite length_map, length_seq; reflexivity|].
  split; [exact Hgen|].
  split; [exact Hall|].
  unfold times; intros Hin.
  apply in_map_iff in Hin as (i & Hi & Hseq).
  apply in_seq in Hseq.
  destruct (Hall i ltac:(lia)) as (_ & Hlt & _).
  rewrite Hi, SFltb_irrefl in Hlt; discriminate.
Qed.

End GridBounds.

(** ** The size of the samples (binary64) *)

Module ShapeBounds.

Import Binary64 Binary64Facts WholeFrequency Value Rounding GridBounds.

Lemma half_value : fin b64_half /\ B2R b64_half = (/ 2)%R.
Proof.
  split; [split; reflexivity|].
  unfold b64_half; cbn [B2R signed].
  change 4503599627370496 with (2 ^ 52).
  rewrite bpow_IZR, <- bpow_add by lia.
  change (52 + -53) with (-1); apply bpow_m1.
Qed.

Lemma half_split (e : Z) :
  -53 <= e <= -1 -> (/ 2 = IZR (2 ^ (- 1 - e)) * bpow e)%R.
Proof.
  intros He; rewrite bpow_IZR, <- bpow_add by lia.
  replace (- 1 - e + e) with (-1) by lia; symmetry; apply bpow_m1.
Qed.

Lemma IZR_pow2_le (j : Z) (n : Z) :
  0 <= j -> (IZR n <= IZR (2 ^ j) + / 2)%R -> n <= 2 ^ j.
Proof.
  intros Hj H.
  assert (n < 2 ^ j + 1); [|lia].
  apply lt_IZR; rewrite plus_IZR; lra.
Qed.

(** The fractional part that the triangle and the sawtooth use:
    [u - floor(u + 0.5)] stays within one half, as long as [u] is below
    2^52. *)
Lemma frac_bound (u w : float) :
  fin u -> (0 <= B2R u < bpow 52)%R ->
  (forall lo hi, fin lo -> fin hi ->
                 (B2R lo <= B2R u + / 2 <= B2R hi)%R ->
                 fin w /\ (B2R lo <= B2R w <= B2R hi)%R) ->
  (u = pred_half -> w = b64_of_Z 1) ->
  fin (SFsub prec emax u (b64_floor w))
  /\ (- / 2 <= B2R (SFsub prec emax u (b64_floor w)) <= / 2)%R.
Proof.
  intros Hu [Hu0 Hu52] Hw Hexc.
  destruct half_value as [Hhf Hhv].
  destruct (of_Z_value (2 ^ 52 + 1) ltac:(lia)) as [Htopf Htopv].
  assert (H52 : bpow 52 = IZR (2 ^ 52)) by (rewrite bpow_IZR; [reflexivity|lia]).
  assert (Htop : (B2R u + / 2 <= B2R (b64_of_Z (2 ^ 52 + 1)))%R).
  { rewrite Htopv, plus_IZR, <- H52; lra. }
  destruct (Hw b64_half (b64_of_Z (2 ^ 52 + 1)) Hhf Htopf) as [Hwf [Hwl Hwh]].
  { rewrite Hhv; split; [lra | exact Htop]. }
  rewrite Hhv in Hwl; rewrite Htopv, plus_IZR, <- H52 in Hwh.
  destruct (floor_value w Hwf) as (n & Hn0 & Hnf & Hnv & Hnl & Hnh).
  { split; [lra|].
    apply Rle_lt_trans with (1 := Hwh).
    replace 53 with (52 + 1) by lia; rewrite bpow_add, bpow_1.
    assert (1 <= bpow 52)%R by (rewrite H52; apply IZR_le; lia). lra. }
  assert (Hn52 : n <= 2 ^ 52 + 1).
  { apply le_IZR; rewrite plus_IZR, <- H52; lra. }
  (* the conclusion from floor(w) <= u + 1/2 *)
  assert (Hfinal : (IZR n <= B2R u + / 2)%R ->
            fin (SFsub prec emax u (b64_floor w))
            /\ (- / 2 <= B2R (SFsub prec emax u (b64_floor w)) <= / 2)%R).
  { intros Hlow.
    assert (Hup : (B2R u + / 2 < IZR n + 1)%R).
    { destruct (Rlt_le_dec (B2R u + / 2) (IZR n + 1)) as [Hlt|Hge];
        [assumption|exfalso].
      destruct (of_Z_value (n + 1) ltac:(lia)) as [Hn1f Hn1v].
      destruct (Hw (b64_of_Z (n + 1)) (b64_of_Z (2 ^ 52 + 1)) Hn1f Htopf)
        as [_ [Hc _]].
      { rewrite Hn1v, plus_IZR; split; [lra | exact Htop]. }
      rewrite Hn1v, plus_IZR in Hc; lra. }
    destruct (SFsub_sandwich u (b64_floor w) (SFopp b64_half) b64_half
                Hu Hnf (fin_opp _ Hhf) Hhf) as [Hdf Hdv].
    { rewrite B2R_opp, Hhv, Hnv; lra. }
    rewrite B2R_opp, Hhv in Hdv; split; assumption. }
  destruct u as [su|su| |su m e]; try (destruct Hu; discriminate).
  { (* u is a zero *)
    apply Hfinal.
    destruct (Hw b64_half b64_half Hhf Hhf) as [_ Hwv].
    { cbn [B2R]; rewrite Hhv; lra. }
    rewrite Hhv in Hwv; cbn [B2R].
    assert (n < 1); [apply lt_IZR; lra|].
    assert (n = 0) by lia; subst n; lra. }
  destruct su; [pose proof (B2R_neg m e); lra|].
  apply fin_finite in Hu as Hb.
  destruct (bounded_facts m e Hb) as (_ & He & Hm & Hnorm).
  cbn [B2R signed] in Hu0, Hu52, Hfinal, Htop |- *.
  pose proof (bpow_pos e) as Hbe.
  assert (Hmpos : (0 < IZR (Z.pos m))%R) by (apply IZR_lt; lia).
  destruct (Z_le_gt_dec 0 e) as [He0|He0].
  { (* u is at least 2^52 *)
    exfalso. specialize (Hnorm ltac:(lia)).
    assert (bpow 52 <= IZR (Z.pos m) * bpow e)%R; [|lra].
    rewrite H52.
    assert (1 <= bpow e)%R
      by (change 1%R with (bpow 0); apply bpow_le; lia).
    assert (IZR (2 ^ 52) <= IZR (Z.pos m))%R by (apply IZR_le; lia).
    assert (0 < IZR (2 ^ 52))%R by (apply IZR_lt; lia).
    nra. }
  destruct (Z_le_gt_dec e (-54)) as [He54|He54].
  { (* u is below one half *)
    assert (Hult : (IZR (Z.pos m) * bpow e < / 2)%R).
    { apply Rlt_le_trans with (IZR (2 ^ 53) * bpow (-54))%R.
      - apply Rlt_le_trans with (IZR (2 ^ 53) * bpow e)%R.
        + apply Rmult_lt_compat_r; [assumption | apply IZR_lt; lia].
        + apply Rmult_le_compat_l; [apply IZR_le; lia | apply bpow_le; lia].
      - rewrite bpow_IZR, <- bpow_add by lia.
        change (53 + -54) with (-1); rewrite bpow_m1; lra. }
    destruct (Z.eq_dec n 0) as [->|Hn].
    { apply Hfinal; lra. }
    (* the sum has rounded up to one *)
    destruct (of_Z_value 1 ltac:(lia)) as [H1f H1v].
    set (pred1 := S754_finite false 9007199254740991 (-53)).
    assert (Hp1 : fin pred1 /\ B2R pred1 = (1 - bpow (-53))%R).
    { split; [split; reflexivity|].
      unfold pred1; cbn [B2R signed].
      change 9007199254740991 with (2 ^ 53 - 1).
      rewrite minus_IZR, bpow_IZR by lia.
      rewrite Rmult_minus_distr_r, <- bpow_add.
      change (53 + -53) with 0; rewrite bpow_0; ring. }
    destruct Hp1 as [Hp1f Hp1v].
    assert (Hs : (1 - bpow (-53) < IZR (Z.pos m) * bpow e + / 2)%R).
    { destruct (Rlt_le_dec (1 - bpow (-53)) (IZR (Z.pos m) * bpow e + / 2))
        as [Hlt|Hge]; [assumption|exfalso].
      destruct (Hw b64_half pred1 Hhf Hp1f) as [_ [_ Hc]].
      { rewrite Hhv, Hp1v; cbn [B2R signed]; lra. }
      rewrite Hp1v in Hc.
      assert (1 <= n) by lia.
      assert (1 <= IZR n)%R by (apply IZR_le; lia).
      pose proof (bpow_pos (-53)); lra. }
    assert (H53 : bpow (-53) = (2 * bpow (-54))%R).
    { change (-53) with (1 + -54); rewrite bpow_add, bpow_1; reflexivity. }
    assert (Hh54 : (/ 2 = IZR (2 ^ 53) * bpow (-54))%R).
    { rewrite bpow_IZR, <- bpow_add by lia.
      change (53 + -54) with (-1); rewrite bpow_m1; reflexivity. }
    assert (He' : e = -54).
    { destruct (Z.eq_dec e (-54)) as [Heq|Hne]; [assumption|exfalso].
      assert (IZR (Z.pos m) * bpow e <= IZR (2 ^ 53) * bpow (-55))%R.
      { apply Rle_trans with (IZR (2 ^ 53) * bpow e)%R.
        - apply Rmult_le_compat_r; [lra | apply IZR_le; lia].
        - apply Rmult_le_compat_l; [apply IZR_le; lia | apply bpow_le; lia]. }
      assert (bpow (-54) = 2 * bpow (-55))%R.
      { change (-54) with (1 + -55); rewrite bpow_add, bpow_1; reflexivity. }
      pose proof (bpow_pos (-55)).
      assert (IZR (2 ^ 53) = 9007199254740992)%R by reflexivity.
      nra. }
    subst e.
    assert (Hm' : Z.pos m = 2 ^ 53 - 1).
    { assert (2 ^ 53 - 2 < Z.pos m); [|lia].
      apply (IZR_bpow_lt _ _ (-54)).
      rewrite minus_IZR, Rmult_minus_distr_r, <- Hh54.
      change (IZR 2) with 2%R. lra. }
    assert (Hu' : S754_finite false m (-54) = pred_half).
    { unfold pred_half; f_equal.
      apply Pos2Z.inj; rewrite Hm'; reflexivity. }
    rewrite Hu'; rewrite (Hexc Hu').
    split; [split; vm_compute; reflexivity|].
    assert (Hd : SFsub prec emax pred_half (b64_floor (b64_of_Z 1))
                 = SFopp b64_half) by (vm_compute; reflexivity).
    rewrite Hd, B2R_opp, Hhv; lra. }
  (* one half <= u < 2^52 *)
  specialize (Hnorm ltac:(lia)).
  apply Hfinal.
  assert (Hsplit := half_split e ltac:(lia)).
  set (k := 2 ^ (- 1 - e)) in *.
  assert (Hk : 0 < k) by (apply Z.pow_pos_nonneg; lia).
  assert (Hsum : (IZR (Z.pos m) * bpow e + / 2
                  = IZR (Z.pos m + k) * bpow e)%R).
  { rewrite plus_IZR, Hsplit; ring. }
  destruct (Z_lt_le_dec (Z.pos m + k) (2 ^ 53)) as [Hfit|Hbig].
  { (* the sum is representable *)
    destruct (representable (Z.pos m + k) e ltac:(lia) ltac:(lia))
      as (y & Hyf & Hyv).
    { apply Rlt_le_trans with (IZR (2 ^ 53) * bpow e)%R.
      - apply Rmult_lt_compat_r; [assumption | apply IZR_lt; lia].
      - rewrite bpow_IZR, <- bpow_add by lia. apply bpow_le; lia. }
    destruct (Hw y y Hyf Hyf) as [_ Hwy].
    { cbn [B2R signed]; rewrite Hyv, Hsum; lra. }
    rewrite Hyv, <- Hsum in Hwy. lra. }
  (* the sum reaches the next power of two *)
  set (j := e + 53).
  assert (Hj : 0 <= j <= 52) by (unfold j; lia).
  assert (Hpj : (IZR (2 ^ j) = IZR (2 ^ 53) * bpow e)%R).
  { rewrite !bpow_IZR, <- bpow_add by lia. f_equal; unfold j; lia. }
  assert (Hlo2 : (IZR (2 ^ j) <= IZR (Z.pos m) * bpow e + / 2)%R).
  { rewrite Hsum, Hpj.
    apply Rmult_le_compat_r; [lra | apply IZR_le; lia]. }
  assert (Hhi2 : (IZR (Z.pos m) * bpow e + / 2 < IZR (2 ^ j) + / 2)%R).
  { rewrite Hpj.
    assert (IZR (Z.pos m) * bpow e < IZR (2 ^ 53) * bpow e)%R
      by (apply Rmult_lt_compat_r; [assumption | apply IZR_lt; lia]).
    lra. }
  assert (Hpjpos : 0 < 2 ^ j) by (apply Z.pow_pos_nonneg; lia).
  destruct (Z.eq_dec e (-1)) as [He1|He1].
  { (* the sum is 2^52 *)
    subst e. change (2 ^ (-1 - -1)) with 1 in k; subst k.
    assert (Hm52 : Z.pos m + 1 = 2 ^ 53) by lia.
    destruct (of_Z_value (2 ^ 52) ltac:(lia)) as [Hyf Hyv].
    assert (Hs52 : (IZR (Z.pos m) * bpow (-1) + / 2 = IZR (2 ^ 52))%R).
    { rewrite Hsum, Hm52, bpow_IZR, <- bpow_add by lia.
      change (53 + -1) with 52; symmetry; apply bpow_IZR; lia. }
    destruct (Hw (b64_of_Z (2 ^ 52)) (b64_of_Z (2 ^ 52)) Hyf Hyf) as [_ Hwy].
    { cbn [B2R signed]; rewrite Hyv, Hs52; lra. }
    rewrite Hyv, <- Hs52 in Hwy. lra. }
  assert (Hj51 : j <= 51) by (unfold j; lia).
  destruct (of_Z_value (2 ^ j) ltac:(split; [lia|apply Z.pow_lt_mono_r; lia]))
    as [Hlf Hlv].
  destruct (representable (2 ^ (j + 1) + 1) (-1)) as (y & Hyf & Hyv).
  { assert (2 ^ (j + 1) <= 2 ^ 52) by (apply Z.pow_le_mono_r; lia).
    assert (0 < 2 ^ (j + 1)) by (apply Z.pow_pos_nonneg; lia).
    change (2 ^ 53) with (2 * 2 ^ 52); lia. }
  { lia. }
  { apply Rlt_le_trans with (IZR (2 ^ 53) * bpow (-1))%R.
    - apply Rmult_lt_compat_r; [apply bpow_pos|].
      apply IZR_lt.
      assert (2 ^ (j + 1) <= 2 ^ 52) by (apply Z.pow_le_mono_r; lia).
      change (2 ^ 53) with (2 * 2 ^ 52); lia.
    - rewrite bpow_IZR, <- bpow_add by lia. apply bpow_le; lia. }
  assert (Hyv' : B2R y = (IZR (2 ^ j) + / 2)%R).
  { rewrite Hyv, plus_IZR, Z.pow_add_r, mult_IZR, bpow_m1 by lia.
    change (IZR (2 ^ 1)) with 2%R. field. }
  destruct (Hw (b64_of_Z (2 ^ j)) y Hlf Hyf) as [_ [Hwl2 Hwh2]].
  { cbn [B2R signed]; rewrite Hlv, Hyv'; lra. }
  rewrite Hlv in Hwl2; rewrite Hyv' in Hwh2.
  assert (Hnj : n <= 2 ^ j) by (apply (IZR_pow2_le j n); [lia | lra]).
  apply Rle_trans with (IZR (2 ^ j)); [apply IZR_le; lia | exact Hlo2].
Qed.

Lemma one_value : fin (b64_of_Z 1) /\ B2R (b64_of_Z 1) = 1%R.
Proof. apply (of_Z_value 1); lia. Qed.

Lemma two_value : fin (b64_of_Z 2) /\ B2R (b64_of_Z 2) = 2%R.
Proof. apply (of_Z_value 2); lia. Qed.

Lemma bpow_2 : bpow 2 = 4%R.
Proof. unfold bpow; simpl; ring. Qed.

Lemma bpow_3 : bpow 3 = 8%R.
Proof. unfold bpow; simpl; ring. Qed.

(** The triangle and the sawtooth stay within [-1, 1] for a phase that is
    not negative and at most 2^53. *)
Lemma shape_bounds (x : float) :
  fin x -> (0 <= B2R x <= bpow 53)%R ->
  (B2R x = 0 \/ bpow (-1018) <= B2R x)%R ->
  exists vt vs,
    _triangle_func x = Ok vt /\ _sawtooth_func x = Ok vs
    /\ fin vt /\ (-1 <= B2R vt <= 1)%R
    /\ fin vs /\ (-1 <= B2R vs <= 1)%R.
Proof.
  intros Hx [Hx0 Hx53] Hxn.
  destruct two_pi_value as [Htpf _]; pose proof two_pi_rng as [Htl Hth].
  set (tau := B2R (two_pi (F := float))) in *.
  assert (Htau : (4 <= tau <= 8)%R).
  { rewrite bpow_2 in Htl; rewrite bpow_3 in Hth; lra. }
  destruct half_value as [Hhf Hhv].
  destruct one_value as [H1f H1v]; destruct two_value as [H2f H2v].
  (* u = x / (2 pi) *)
  destruct (of_Z_value (2 ^ 51) ltac:(lia)) as [Hbf Hbv].
  assert (Hq : (0 <= B2R x / tau <= IZR (2 ^ 51))%R).
  { assert (Hinv : (0 < / tau)%R) by (apply Rinv_0_lt_compat; lra).
    split; [unfold Rdiv; apply Rmult_le_pos; lra|].
    apply (Rmult_le_reg_r tau); [lra|].
    unfold Rdiv; rewrite Rmult_assoc, Rinv_l, Rmult_1_r by lra.
    apply Rle_trans with (1 := Hx53).
    change 53 with (51 + 2); rewrite bpow_add, <- (bpow_IZR 51), bpow_2 by lia.
    assert (0 < IZR (2 ^ 51))%R by (apply IZR_lt; lia). nra. }
  destruct (SFdiv_sandwich x two_pi (S754_zero false) (b64_of_Z (2 ^ 51))
              Hx Htpf Hx0 ltac:(fold tau; lra) (fin_zero false) Hbf)
    as [Huf [Hu0 Hu51]].
  { destruct Hxn as [Hz|Hn]; [left; assumption | right].
    fold tau.
    apply Rle_trans with (bpow (-1018) / bpow 3)%R.
    - unfold Rdiv; rewrite bpow_inv, <- bpow_add. apply bpow_le; lia.
    - unfold Rdiv; apply Rmult_le_compat; try lra.
      + left; apply bpow_pos.
      + left; apply Rinv_0_lt_compat; apply bpow_pos.
      + apply Rinv_le_contravar; [lra|].
        rewrite bpow_3; lra. }
  { fold tau; cbn [B2R]; rewrite Hbv; exact Hq. }
  cbn [B2R] in Hu0; rewrite Hbv in Hu51.
  set (u := SFdiv prec emax x two_pi) in *.
  assert (Hu52 : (0 <= B2R u < bpow 52)%R).
  { split; [assumption|].
    apply Rle_lt_trans with (1 := Hu51).
    rewrite bpow_IZR by lia; apply bpow_lt; lia. }
  (* the fractional parts *)
  assert (Hfrac : forall w,
             (w = SFadd prec emax u b64_half
              \/ w = SFadd prec emax b64_half u) ->
             fin (SFsub prec emax u (b64_floor w))
             /\ (- / 2 <= B2R (SFsub prec emax u (b64_floor w)) <= / 2)%R).
  { intros w Hw; apply frac_bound; try assumption.
    - intros lo hi Hlo Hhi Hb.
      destruct Hw as [-> | ->]; apply SFadd_sandwich; try assumption;
        rewrite Hhv; lra.
    - intros ->; destruct Hw as [-> | ->]; vm_compute; reflexivity. }
  destruct (Hfrac _ (or_introl eq_refl)) as [Hdtf Hdtv].
  destruct (Hfrac _ (or_intror eq_refl)) as [Hdsf Hdsv].
  assert (Hdbl : forall dd,
             fin dd -> (- / 2 <= B2R dd <= / 2)%R ->
             fin (SFmul prec emax (b64_of_Z 2) dd)
             /\ (-1 <= B2R (SFmul prec emax (b64_of_Z 2) dd) <= 1)%R).
  { intros dd Hddf Hddv.
    destruct (SFmul_sandwich (b64_of_Z 2) dd (SFopp (b64_of_Z 1)) (b64_of_Z 1)
                H2f Hddf (fin_opp _ H1f) H1f) as [Hf Hv].
    { rewrite B2R_opp, H1v, H2v; lra. }
    rewrite B2R_opp, H1v in Hv; split; assumption. }
  destruct (Hdbl _ Hdtf Hdtv) as [Ha1f Ha1v].
  destruct (Hdbl _ Hdsf Hdsv) as [Hvsf Hvsv].
  set (a1 := SFmul prec emax (b64_of_Z 2)
                   (SFsub prec emax u (b64_floor (SFadd prec emax u b64_half))))
    in *.
  pose proof (fin_abs a1 Ha1f) as Ha2f.
  assert (Ha2v : (0 <= B2R (SFabs a1) <= 1)%R).
  { rewrite B2R_abs; split; [apply Rabs_pos|].
    apply Rabs_le; lra. }
  destruct (SFmul_sandwich (b64_of_Z 2) (SFabs a1) (S754_zero false)
              (b64_of_Z 2) H2f Ha2f (fin_zero false) H2f) as [Ha3f Ha3v].
  { rewrite H2v; cbn [B2R]; lra. }
  cbn [B2R] in Ha3v; rewrite H2v in Ha3v.
  destruct (SFsub_sandwich (SFmul prec emax (b64_of_Z 2) (SFabs a1))
              (b64_of_Z 1) (SFopp (b64_of_Z 1)) (b64_of_Z 1)
              Ha3f H1f (fin_opp _ H1f) H1f) as [Hvtf Hvtv].
  { rewrite B2R_opp, H1v; lra. }
  rewrite B2R_opp, H1v in Hvtv.
  eexists _, _.
  unfold _triangle_func, _sawtooth_func, float_truediv.
  change (is_zero (two_pi (F := float))) with (b64_is_zero two_pi).
  rewrite two_pi_not_zero; cbn [bind].
  split; [reflexivity|]. split; [reflexivity|].
  split; [exact Hvtf|]. split; [exact Hvtv|].
  split; [exact Hvsf | exact Hvsv].
Qed.

Lemma Rabs_bounds (a b : R) : (Rabs a <= b -> - b <= a <= b)%R.
Proof.
  intros H; pose proof (Rle_abs a); pose proof (Rle_abs (- a)) as Hn.
  rewrite Rabs_Ropp in Hn; lra.
Qed.

(** Scaling by the amplitude does not leave [-|A|, |A|]. *)
Lemma scale_bound (A v : float) :
  fin A -> fin v -> (-1 <= B2R v <= 1)%R ->
  SFleb (SFabs (SFmul prec emax A v)) (SFabs A) = true.
Proof.
  intros HA Hv Hb.
  destruct (SFmul_sandwich A v (SFopp (SFabs A)) (SFabs A) HA Hv
              (fin_opp _ (fin_abs _ HA)) (fin_abs _ HA)) as [Hf Hval].
  { rewrite B2R_opp, B2R_abs.
    assert (Habs : (Rabs (B2R A * B2R v) <= Rabs (B2R A))%R).
    { rewrite Rabs_mult.
      rewrite <- (Rmult_1_r (Rabs (B2R A))) at 2.
      apply Rmult_le_compat_l; [apply Rabs_pos | apply Rabs_le; lra]. }
    apply Rabs_bounds in Habs; lra. }
  apply SFleb_value; [apply fin_abs; assumption | apply fin_abs; assumption|].
  rewrite !B2R_abs; rewrite B2R_opp, B2R_abs in Hval.
  apply Rabs_le; lra.
Qed.

Lemma Forall2_values {A B : Type} (f : A -> result B) (P : A -> Prop)
      (Q : B -> Prop) (l : list A) (l' : list B) :
  (forall a b, P a -> f a = Ok b -> Q b) ->
  Forall P l -> Forall2 (fun a b => f a = Ok b) l l' -> Forall Q l'.
Proof.
  intros Hf HP H2; induction H2 as [|a b l l' Hab _ IH]; constructor.
  - apply (Hf a b); [apply (Forall_inv HP) | assumption].
  - apply IH; apply (Forall_inv_tail HP).
Qed.

Lemma phases_tame (D p N : Z) (f : float) :
  0 < D <= 2 ^ 64 -> moderate f = true ->
  b64_ceil (SFmul prec emax (b64_of_Z D) f) = Ok p ->
  p <= 2 ^ 50 -> 1 <= N <= 2 ^ 48 ->
  Forall tame
         (map (SFmul prec emax (SFmul prec emax two_pi f))
              (map (b64_time (SFdiv prec emax (b64_of_Z p) f) N)
                   (seq 0 (Z.to_nat N)))).
Proof.
  intros HD Hf Hp Hp50 HN.
  apply Forall_forall; intros x Hx.
  apply in_map_iff in Hx as (t & <- & Ht).
  apply in_map_iff in Ht as (i & <- & Hi).
  apply in_seq in Hi.
  destruct (phase_values D p N f i HD Hf Hp HN ltac:(lia))
    as (_ & _ & Hphf & _ & _ & [Hph0 _] & Hphx & Hphz).
  split; [assumption|]. split.
  - split; [assumption|].
    pose proof two_pi_rng as [_ Hth]; rewrite bpow_3 in Hth.
    destruct (grid_values D p f HD Hf Hp) as (Hp1 & _).
    assert (Hpr : (1 <= IZR p <= IZR (2 ^ 50))%R)
      by (split; apply IZR_le; lia).
    change 53 with (50 + 3); rewrite bpow_add, <- (bpow_IZR 50), bpow_3 by lia.
    pose proof two_pi_rng as [Htl _]; rewrite bpow_2 in Htl.
    left; apply Rlt_le_trans with (1 := Hphx).
    rewrite Rmult_comm; apply Rmult_le_compat; lra.
  - destruct Hphz as [Hz|Hn]; [left; assumption | right].
    apply Rle_trans with (2 := Hn); apply bpow_le; lia.
Qed.

Lemma SFleb_refl_abs (A : float) : fin A -> SFleb (SFabs A) (SFabs A) = true.
Proof.
  intros HA; apply SFleb_value; [apply fin_abs; assumption ..|]; lra.
Qed.

(** C3, as the binary64 run has it.  For a positive sample rate, a
    duration of at most 2^64, a frequency between 2^-200 and 2^200, at
    most 2^50 periods, a buffer of at most 2^48 samples and a finite
    amplitude A, every sample the builder returns has a magnitude of at
    most |A|, with no tolerance: for the triangle and the sawtooth, for the
    sine as long as the sine of the platform returns finite values within
    [-1, 1], and for the square, whose samples are A or -A bit for bit. *)
Theorem samples_within_amplitude_b64 (sin1 : float -> float)
        (self : WaveformGenerator float) (k : WaveFormType)
        (f : float) (p : Z) (buf : list float) :
  0 < sample_rate self -> 0 < duration self <= 2 ^ 64 ->
  moderate f = true ->
  b64_is_finite (amplitude self) = true ->
  valid_binary prec emax (amplitude self) = true ->
  b64_ceil (SFmul prec emax (b64_of_Z (duration self)) f) = Ok p ->
  p <= 2 ^ 50 ->
  (k = SINE ->
   forall x, b64_is_finite x = true -> valid_binary prec emax x = true ->
             b64_is_finite (sin1 x) = true
             /\ valid_binary prec emax (sin1 x) = true
             /\ (-1 <= B2R (sin1 x) <= 1)%R) ->
  _generate_wave self (wave_functions sin1 k) f = Ok buf ->
  Z.of_nat (List.length buf) <= 2 ^ 48 ->
  Forall (fun s => SFleb (SFabs s) (SFabs (amplitude self)) = true) buf
  /\ (k = SQUARE ->
      Forall (fun s => s = amplitude self \/ s = SFopp (amplitude self))
             buf).
Proof.
  intros HR HD Hf HAf HAv Hp Hp50 Hsin Hbuf Hlen.
  assert (HA : fin (amplitude self)) by (split; assumption).
  destruct (moderate_rng f Hf) as (_ & _ & Hfpos).
  assert (Hsq : k = SQUARE ->
                Forall (fun s => s = amplitude self
                                 \/ s = SFopp (amplitude self)) buf).
  { intros ->; apply (SquareExact.square_samples_exact self f buf HAv Hbuf). }
  split; [|exact Hsq].
  destruct (generate_wave_length sin1 self k f buf Hbuf)
    as (d & N & Hg & HN0 & HlenN).
  destruct (Z.eq_dec N 0) as [->|HNpos].
  { destruct buf; [constructor | simpl in HlenN; lia]. }
  assert (HN : 1 <= N <= 2 ^ 48) by lia.
  assert (Hd : d = SFdiv prec emax (b64_of_Z p) f).
  { pose proof Hg as Hg'.
    apply SampleCount.sample_grid_inv in Hg'
      as (p' & _ & Hp' & _ & _ & -> & _ & _).
    rewrite Hp in Hp'; injection Hp' as <-; reflexivity. }
  pose proof (phases_tame (duration self) p N f HD Hf Hp Hp50 HN) as Htame.
  rewrite <- Hd in Htame.
  destruct (SampleCount.generate_wave_b64_grid self (wave_functions sin1 k)
              f d N HR ltac:(lia) Hfpos Hg) as (_ & _ & Hgen).
  rewrite Hgen in Hbuf.
  set (phases := map (SFmul prec emax (SFmul prec emax two_pi f))
                     (map (b64_time d N) (seq 0 (Z.to_nat N)))) in *.
  apply bind_ok in Hbuf as (y & Hy & Hbuf); injection Hbuf as <-.
  destruct k; cbn [wave_functions] in Hy.
  - (* sine *)
    unfold np_sin in Hy; injection Hy as <-.
    cbn [scalar_mul]; rewrite Forall_map, Forall_map.
    apply (Forall_impl _ (P := tame)); [|exact Htame].
    intros x ((Hxf & Hxv) & _).
    destruct (Hsin eq_refl x Hxf Hxv) as (Hsf & Hsv & Hsb).
    apply scale_bound; [assumption | split; assumption | assumption].
  - (* triangle *)
    unfold np_vectorize_float in Hy.
    destruct phases as [|x0 ph] eqn:Hph; [discriminate|].
    apply bind_ok in Hy as (l & Hl & Hy); injection Hy as <-.
    cbn [scalar_mul]; rewrite Forall_map.
    apply mapM_Forall2 in Hl.
    apply (Forall2_values _triangle_func tame _ (x0 :: ph) l);
      [|exact Htame | exact Hl].
    intros x v (Hxf & Hxr & Hxz) Hv.
    destruct (shape_bounds x Hxf Hxr Hxz)
      as (vt & vs & Hvt & _ & Hvtf & Hvtv & _).
    rewrite Hv in Hvt; injection Hvt as <-.
    apply scale_bound; assumption.
  - (* square *)
    apply (Forall_impl _ (P := fun s => s = amplitude self
                                        \/ s = SFopp (amplitude self)));
      [|apply Hsq; reflexivity].
    intros s [-> | ->].
    + apply SFleb_refl_abs; assumption.
    + replace (SFabs (SFopp (amplitude self))) with (SFabs (amplitude self))
        by (destruct (amplitude self); reflexivity).
      apply SFleb_refl_abs; assumption.
  - (* sawtooth *)
    unfold np_vectorize_float in Hy.
    destruct phases as [|x0 ph] eqn:Hph; [discriminate|].
    apply bind_ok in Hy as (l & Hl & Hy); injection Hy as <-.
    cbn [scalar_mul]; rewrite Forall_map.
    apply mapM_Forall2 in Hl.
    apply (Forall2_values _sawtooth_func tame _ (x0 :: ph) l);
      [|exact Htame | exact Hl].
    intros x v (Hxf & Hxr & Hxz) Hv.
    destruct (shape_bounds x Hxf Hxr Hxz)
      as (vt & vs & _ & Hvs & _ & _ & Hvsf & Hvsv).
    rewrite Hv in Hvs; injection Hvs as <-.
    apply scale_bound; assumption.
Qed.

End ShapeBounds.

(** ** More concrete runs *)

Module MoreRuns.

Import Binary64 Text Driver.

Lemma load_frequencies_line_count_witness :
  List.length [b64_of_Z 440; b64_of_Z 880] = 2%nat.
Proof.
  apply (TextMore.load_frequencies_line_count
           ("440" ++ String newline "880") [b64_of_Z 440; b64_of_Z 880]).
  vm_compute; reflexivity.
Defined.

Lemma nonfinite_frequency_fails_witness :
  _generate_wave {| sample_rate := 8; duration := 1; amplitude := b64_half |}
                 (np_vectorize_int _square_func) (S754_infinity false)
  = Raise OverflowError
  \/ _generate_wave {| sample_rate := 8; duration := 1; amplitude := b64_half |}
                    (np_vectorize_int _square_func) (S754_infinity false)
     = Raise ValueError.
Proof.
  apply (BuilderMore.nonfinite_frequency_fails
           {| sample_rate := 8; duration := 1; amplitude := b64_half |}
           (np_vectorize_int _square_func) (S754_infinity false)).
  reflexivity.
Defined.

Lemma zero_duration_buffer_witness :
  _generate_wave {| sample_rate := 8; duration := 0; amplitude := b64_half |}
                 (wave_functions (fun x => x) SINE) (b64_of_Z 2)
  = Ok []
  /\ _generate_wave {| sample_rate := 8; duration := 0; amplitude := b64_half |}
                    (wave_functions (fun x => x) TRIANGLE) (b64_of_Z 2)
     = Raise ValueError.
Proof.
  split.
  - apply (BuilderMore.zero_duration_buffer
             (fun x => x)
             {| sample_rate := 8; duration := 0; amplitude := b64_half |}
             SINE (b64_of_Z 2)); reflexivity.
  - apply (BuilderMore.zero_duration_buffer
             (fun x => x)
             {| sample_rate := 8; duration := 0; amplitude := b64_half |}
             TRIANGLE (b64_of_Z 2)); reflexivity.
Defined.

Lemma generate_files_stops_witness :
  exists buf,
    generate_files (fun x => x)
      {| sample_rate := 8; duration := 1; amplitude := b64_half |}
      ([b64_of_Z 2] ++ S754_zero false :: [b64_of_Z 4]) "out" SQUARE
      {| files := []; console := [] |}
    = (Raise ZeroDivisionError,
       {| files :=
            written {| sample_rate := 8; duration := 1;
                       amplitude := b64_half |}
                    "out" [b64_of_Z 2] [buf]
            ++ [("out"%string, Directory)];
          console := [] |}).
Proof.
  eexists.
  apply (DriverMore.generate_files_stops
           (fun x => x)
           {| sample_rate := 8; duration := 1; amplitude := b64_half |}
           "out" SQUARE [b64_of_Z 2] _ (S754_zero false) [b64_of_Z 4]
           ZeroDivisionError
           {| files := []; console := [] |}
           {| files := [("out"%string, Directory)]; console := [] |}).
  - reflexivity.
  - constructor; [vm_compute; reflexivity | constructor].
  - vm_compute; reflexivity.
Defined.

Lemma generate_files_folder_is_file_witness :
  generate_files (fun x => x)
    {| sample_rate := 8; duration := 1; amplitude := b64_half |}
    [b64_of_Z 2] "out" SQUARE
    {| files := [("out"%string, TextFile "x")]; console := [] |}
  = (Raise FileExistsError,
     {| files := [("out"%string, TextFile "x")]; console := [] |}).
Proof.
  apply (DriverMore.generate_files_folder_is_file
           (fun x => x)
           {| sample_rate := 8; duration := 1; amplitude := b64_half |}
           [b64_of_Z 2] "out" SQUARE
           {| files := [("out"%string, TextFile "x")]; console := [] |}).
  left; exists "x"%string; reflexivity.
Defined.

Lemma main_success_witness :
  exists w',
    main (fun x => x)
         {| arg_sample_rate := 8; arg_duration := 1;
            arg_amplitude := b64_half; arg_waveform := SQUARE |}
         {| files := [("colundi_hertz.txt"%string,
                       TextFile ("2" ++ String newline "4"))];
            console := [] |}
    = (Ok tt, w')
    /\ console w'
       = ["Generating WaveFormType.SQUARE waveforms for 2 frequencies";
          "Waveforms generated, outputs are in colundi_waveforms_square"
         ]%string.
Proof.
  eexists; split; [vm_compute; reflexivity|].
  destruct (DriverMore.main_success
              (fun x => x)
              {| arg_sample_rate := 8; arg_duration := 1;
                 arg_amplitude := b64_half; arg_waveform := SQUARE |}
              {| files := [("colundi_hertz.txt"%string,
                            TextFile ("2" ++ String newline "4"))];
                 console := [] |}
              _ eq_refl)
    as (text & frequencies & buffers & _ & _ & _ & _ & _ & Hconsole).
  reflexivity.
Defined.

Lemma whole_periods_exact_witness :
  sample_grid {| sample_rate := 96000; duration := 2; amplitude := b64_half |}
              (b64_of_Z 440)
  = Ok (b64_of_Z 2, 96000 * 2).
Proof.
  apply (WholeFrequency.whole_periods_exact
           (fun x => x) b64_half SINE 96000 2 440); reflexivity.
Defined.

End MoreRuns.

(** ** Concrete runs within the bounds *)

Module BoundRuns.

Import Binary64 Value.

Lemma time_grid_half_open_b64_witness :
  SFltb (b64_time (b64_of_Z 1) 8 7) (b64_of_Z 1) = true
  /\ SFltb (SFmul prec emax (SFmul prec emax two_pi (b64_of_Z 2))
                  (b64_time (b64_of_Z 1) 8 7))
           (SFmul prec emax two_pi (b64_of_Z 2)) = true.
Proof.
  destruct (GridBounds.time_grid_half_open_b64
              {| sample_rate := 8; duration := 1; amplitude := b64_half |}
              (wave_functions (fun x => x) SAWTOOTH)
              (b64_of_Z 2) (b64_of_Z 1) 8 2)
    as (_ & _ & _ & Hall & _).
  - reflexivity.
  - split; [reflexivity | discriminate].
  - reflexivity.
  - vm_compute; reflexivity.
  - discriminate.
  - vm_compute; reflexivity.
  - destruct (Hall 7%nat ltac:(vm_compute; lia)) as (_ & H1 & H2 & _).
    split; assumption.
Defined.

Lemma samples_within_amplitude_b64_witness :
  Forall (fun s => SFleb (SFabs s) (SFabs b64_half) = true)
         [SFopp b64_half; S754_zero false; b64_half; S754_zero false;
          SFopp b64_half; S754_zero false; b64_half; S754_zero false].
Proof.
  apply (ShapeBounds.samples_within_amplitude_b64
           (fun x => x)
           {| sample_rate := 8; duration := 1; amplitude := b64_half |}
           TRIANGLE (b64_of_Z 2) 2).
  - reflexivity.
  - split; [reflexivity | discriminate].
  - reflexivity.
  - reflexivity.
  - reflexivity.
  - vm_compute; reflexivity.
  - discriminate.
  - discriminate.
  - vm_compute; reflexivity.
  - discriminate.
Defined.

End BoundRuns.
